(** * Selective tree-building filters of moraes/sadbox

    A shallow embedding of the two packages [htmlfilter] (over
    [exp/html]'s tokenizer) and [xmlfilter] (over [encoding/xml]'s decoder),
    and the properties of their match locator and tree builder. *)

From Stdlib Require Import Ascii String.
From Stdlib Require Import List NArith Bool Arith Lia.
Import ListNotations.
Local Open Scope list_scope.

Set Warnings "-register-all".

(** ** Go strings and the standard library's [TrimSpace] *)

(** A Go [rune] is a Unicode code point.  The strings of the two packages
    (tag names, text, and the [[]byte] of character data) are UTF-8 text;
    the model holds the sequence of code points that the bytes encode,
    which is how [strings.TrimSpace] and [bytes.TrimSpace] traverse them.
    [==] and [len(s) > 0] read the same on the bytes and on the code points.
    Bytes that are no UTF-8 have no counterpart in the model. *)
Definition rune := N.
Definition gostring := list rune.

(** A literal: every character of the Rocq string is one code point. *)
Definition str (s : string) : gostring :=
  map N_of_ascii (list_ascii_of_string s).
Arguments str s%_string.

(** Go's [==] on strings. *)
Fixpoint gostring_eqb (a b : gostring) : bool :=
  match a, b with
  | [], [] => true
  | x :: a', y :: b' => N.eqb x y && gostring_eqb a' b'
  | _, _ => false
  end.

(** [unicode.IsSpace]: the Latin-1 cases the Go function lists (tab, line
    feed, vertical tab, form feed, carriage return, space, U+0085, U+00A0),
    then the rest of Unicode's White_Space property (U+1680, U+2000 to
    U+200A, U+2028, U+2029, U+202F, U+205F, U+3000). *)
Definition IsSpace (r : rune) : bool :=
  (if N.leb r 255
   then (N.leb 9 r && N.leb r 13) || N.eqb r 32 || N.eqb r 133 || N.eqb r 160
   else N.eqb r 5760 || (N.leb 8192 r && N.leb r 8202) || N.eqb r 8232
        || N.eqb r 8233 || N.eqb r 8239 || N.eqb r 8287 || N.eqb r 12288)%N.

Fixpoint TrimLeftSpace (s : gostring) : gostring :=
  match s with
  | [] => []
  | r :: s' => if IsSpace r then TrimLeftSpace s' else s
  end.

Definition TrimRightSpace (s : gostring) : gostring :=
  rev (TrimLeftSpace (rev s)).

(** [strings.TrimSpace] / [bytes.TrimSpace]: the string without its leading
    and trailing white space, as defined by Unicode. *)
Definition TrimSpace (s : gostring) : gostring :=
  TrimRightSpace (TrimLeftSpace s).

(** The error a token source reports through [Tokenizer.Err] or as the
    second result of [Decoder.RawToken]: [io.EOF] at the end of the input,
    or a failure of the reader or of the syntax. *)
Inductive StreamError : Type :=
| EOF
| Failure (msg : gostring).

(** What [fmt] writes for an operand of the verb [%s] whose [String] method
    panics with an error of the message [msg]: [fmt] recovers the panic and
    writes this text in the operand's place.  (The text of Go 1.13 and
    later; before, [fmt] did not name the method.) *)
Definition recovered (msg : gostring) : gostring :=
  str "%!s(PANIC=String method: " ++ msg ++ str ")".

(** ** Package htmlfilter *)

Module htmlfilter.

Inductive TokenType : Type :=
| ErrorToken
| TextToken
| StartTagToken
| EndTagToken
| SelfClosingTagToken
| CommentToken
| DoctypeToken.

Record Attribute : Type := mkAttribute
  { Namespace : gostring; Key : gostring; Val : gostring }.

(** [html.Token]. *)
Record Token : Type := mkToken
  { TType : TokenType; Data : gostring; Attr : list Attribute }.

(** [type Node struct { Token html.Token; List []Node }]. *)
Inductive Node : Type :=
| mkNode (token : Token) (children : list Node).

Definition Node_Token (n : Node) : Token := let (t, _) := n in t.
Definition Node_List (n : Node) : list Node := let (_, l) := n in l.

(** The errors of the package.  The Go code builds them with [fmt.Errorf];
    a constructor stands for each format and carries its arguments:
    ["unclosed tags: %v"], ["expecting closing tag %q, got %q"],
    ["unexpected closing tag %q"].  [TokenizerError] is the value of
    [t.Err()], returned as it is. *)
Inductive error : Type :=
| TokenizerError (e : StreamError)
| UnclosedTags (stack : list gostring)
| MismatchedClosingTag (last tag : gostring)
| UnexpectedClosingTag (tag : gostring).

Inductive result (A : Type) : Type :=
| Ok (a : A)
| Err (e : error).
Arguments Ok {A} a.
Arguments Err {A} e.

(** The tokenizer: the tokens it will still produce, and the error it
    reports once they are exhausted. *)
Record Tokenizer : Type := mkTokenizer
  { pending : list Token; err : StreamError }.

(** [t.Next()] followed by [t.Token()] (or [t.TagName()]): the token just
    scanned and the advanced tokenizer.  At the end of the input the
    token's type is [ErrorToken], and [t.Err()] is [err t]; a pending token
    of type [ErrorToken] is an error reported at that place. *)
Definition Next (t : Tokenizer) : Token * Tokenizer :=
  match pending t with
  | [] => (mkToken ErrorToken [] [], t)
  | tok :: rest => (tok, mkTokenizer rest (err t))
  end.

(** [for _, v := range tagNames { if v == tag { ...; break } }]: the loops
    of this package over [tagNames] leave at the first [v == tag], by a
    [return] or a [break]; what they do, they do once and when [tag] is one
    of [tagNames]. *)
Definition hasName (tagNames : list gostring) (tag : gostring) : bool :=
  existsb (fun v => gostring_eqb v tag) tagNames.

(** The message of [fmt.Errorf("unexpected %T", n.Token)]: the static type
    of [n.Token] is [html.Token]. *)
Definition unexpected : gostring := str "unexpected html.Token".

(** [func (n Node) String() string]; [None] is the [panic] on a token of
    another type.  The children are written with [fmt.Fprintf(b, "%s", v)],
    which calls [v.String()] and recovers its panic: a child that panics
    leaves [recovered unexpected] in its place, and the parent goes on. *)
Fixpoint String (n : Node) : option gostring :=
  match n with
  | mkNode tok l =>
      match TType tok with
      | SelfClosingTagToken => Some (str "<" ++ Data tok ++ str "/>")
      | StartTagToken =>
          (fix render (l : list Node) (b : gostring) : option gostring :=
             match l with
             | [] => Some (b ++ str "</" ++ Data tok ++ str ">")
             | v :: l' =>
                 match String v with
                 | Some s => render l' (b ++ s)
                 | None => render l' (b ++ recovered unexpected)
                 end
             end) l (str "<" ++ Data tok ++ str ">")
      | TextToken => Some (Data tok)
      | _ => None
      end
  end.

(** [NextStartTag]: the loop over [t.Next()], on the pending tokens. *)
Fixpoint NextStartTag_scan (tagNames : list gostring) (e : StreamError)
         (ts : list Token) : result Token * Tokenizer :=
  match ts with
  | [] => (Err (TokenizerError e), mkTokenizer [] e)
  | tok :: rest =>
      match TType tok with
      | ErrorToken => (Err (TokenizerError e), mkTokenizer rest e)
      | SelfClosingTagToken | StartTagToken =>
          if hasName tagNames (Data tok)
          then (Ok tok, mkTokenizer rest e)
          else NextStartTag_scan tagNames e rest
      | _ => NextStartTag_scan tagNames e rest
      end
  end.

Definition NextStartTag (t : Tokenizer) (tagNames : list gostring)
  : result Token * Tokenizer :=
  NextStartTag_scan tagNames (err t) (pending t).

(** [popTag]. *)
Definition popTag (tags : list gostring) (tag : gostring)
  : result (list gostring) :=
  match length tags with
  | 0 => Err (UnexpectedClosingTag tag)
  | S n =>
      let last := nth n tags [] in
      if gostring_eqb last tag then Ok (firstn n tags)
      else Err (MismatchedClosingTag last tag)
  end.

(** What one trip through the body of [TextInTag]'s [for] ends in: the
    next trip, with the new [stack], [c] and tokenizer, or a
    [return nil, err]. *)
Inductive outcome : Type :=
| Continue (stack : list gostring) (c : list Node) (t : Tokenizer)
| Return (e : error) (t : Tokenizer).

(** The body of the [for len(stack) > 0] loop of [TextInTag]: the [switch]
    on [t.Next()].  [recurse tag t] is the call [TextInTag(t, tag,
    tagNames...)]; it has no result when the recursion runs out of fuel. *)
Definition loopBody
           (recurse : gostring -> Tokenizer ->
                      option (result (list Node) * Tokenizer))
           (tagNames stack : list gostring) (c : list Node) (t : Tokenizer)
  : option outcome :=
  let (tok, t1) := Next t in
  match TType tok with
  | ErrorToken => Some (Return (UnclosedTags stack) t1)
  | SelfClosingTagToken =>
      if hasName tagNames (Data tok)
      then Some (Continue stack (c ++ [mkNode tok []]) t1)
      else Some (Continue stack c t1)
  | StartTagToken =>
      if hasName tagNames (Data tok)
      then match recurse (Data tok) t1 with
           | None => None
           | Some (Err e, t2) => Some (Return e t2)
           | Some (Ok list, t2) =>
               Some (Continue stack (c ++ [mkNode tok list]) t2)
           end
      else Some (Continue (stack ++ [Data tok]) c t1)
  | EndTagToken =>
      match popTag stack (Data tok) with
      | Err e => Some (Return e t1)
      | Ok stack' => Some (Continue stack' c t1)
      end
  | TextToken =>
      let data := TrimSpace (Data tok) in
      if 0 <? length data
      then Some (Continue stack
                          (c ++ [mkNode (mkToken TextToken data (Attr tok)) []])
                          t1)
      else Some (Continue stack c t1)
  | CommentToken | DoctypeToken => Some (Continue stack c t1)
  end.

(** [TextInTag]'s loop from the state [stack], [c]; every trip and every
    recursive call spends one unit of fuel. *)
Fixpoint TextInTag_fuel (fuel : nat) (tagNames stack : list gostring)
         (c : list Node) (t : Tokenizer)
  : option (result (list Node) * Tokenizer) :=
  match fuel with
  | 0 => None
  | S fuel' =>
      match stack with
      | [] => Some (Ok c, t)
      | _ :: _ =>
          match loopBody (fun tag t' => TextInTag_fuel fuel' tagNames [tag] [] t')
                         tagNames stack c t with
          | None => None
          | Some (Return e t') => Some (Err e, t')
          | Some (Continue stack' c' t') =>
              TextInTag_fuel fuel' tagNames stack' c' t'
          end
      end
  end.

(** The loop with the fuel that always suffices, since every trip consumes
    a token: with it [TextInTag_fuel] has a result ([TextInTag_fuel_loop]),
    so the second branch is never taken. *)
Definition TextInTag_loop (tagNames stack : list gostring) (c : list Node)
           (t : Tokenizer) : result (list Node) * Tokenizer :=
  match TextInTag_fuel (S (length (pending t))) tagNames stack c t with
  | Some r => r
  | None => (Err (UnclosedTags stack), t)
  end.

(** [func TextInTag(t *html.Tokenizer, startTag string, tagNames ...string)]:
    [stack := []string{startTag}], [var c []Node], then the loop. *)
Definition TextInTag (t : Tokenizer) (startTag : gostring)
           (tagNames : list gostring) : result (list Node) * Tokenizer :=
  TextInTag_loop tagNames [startTag] [] t.

(** [func NextTextFilter(t *html.Tokenizer, tagNames ...string)]. *)
Definition NextTextFilter (t : Tokenizer) (tagNames : list gostring)
  : result Node * Tokenizer :=
  match NextStartTag t tagNames with
  | (Err e, t1) => (Err e, t1)
  | (Ok tok, t1) =>
      match TextInTag t1 (Data tok) tagNames with
      | (Err e, t2) => (Err e, t2)
      | (Ok list, t2) => (Ok (mkNode tok list), t2)
      end
  end.

(** One trip through the loop body of [TextInTag], the recursive call
    being [TextInTag] itself. *)
Definition step (tagNames stack : list gostring) (c : list Node)
           (t : Tokenizer) : outcome :=
  match loopBody (fun tag t' => Some (TextInTag t' tag tagNames))
                 tagNames stack c t with
  | Some o => o
  | None => Return (UnclosedTags stack) t
  end.

(** The state at the head of the [for] loop of one invocation. *)
Definition state : Type := (list gostring * list Node * Tokenizer)%type.

(** [reaches tagNames s s']: the execution of the loop from the state [s]
    arrives at the head of the loop in the state [s'], of the same
    invocation after complete trips, or of an invocation nested in it,
    entered at a start tag of [tagNames]. *)
Inductive reaches (tagNames : list gostring) : state -> state -> Prop :=
| reaches_here : forall s, reaches tagNames s s
| reaches_trip : forall stack c t stack' c' t' s,
    stack <> [] ->
    step tagNames stack c t = Continue stack' c' t' ->
    reaches tagNames (stack', c', t') s ->
    reaches tagNames (stack, c, t) s
| reaches_call : forall stack c t tok t1 s,
    stack <> [] ->
    Next t = (tok, t1) ->
    TType tok = StartTagToken ->
    hasName tagNames (Data tok) = true ->
    reaches tagNames ([Data tok], [], t1) s ->
    reaches tagNames (stack, c, t) s.

(** Every node of the tree is an element whose name is one of [tagNames],
    or a text node. *)
Fixpoint wellTagged (tagNames : list gostring) (n : Node) : bool :=
  match n with
  | mkNode tok l =>
      match TType tok with
      | StartTagToken | SelfClosingTagToken =>
          hasName tagNames (Data tok) && forallb (wellTagged tagNames) l
      | TextToken => forallb (wellTagged tagNames) l
      | _ => false
      end
  end.

(** No text node of the tree is empty or made of white space only. *)
Fixpoint noBlankText (n : Node) : bool :=
  match n with
  | mkNode tok l =>
      match TType tok with
      | TextToken => negb (forallb IsSpace (Data tok))
      | _ => true
      end && forallb noBlankText l
  end.

(** The stack of an invocation: the start tag it was called for, one of
    [tagNames] when the call comes from [NextTextFilter] or from the loop,
    below start tags that are not in [tagNames]. *)
Definition scopeStack (tagNames stack : list gostring) : Prop :=
  match stack with
  | [] => True
  | startTag :: opened =>
      hasName tagNames startTag = true
      /\ Forall (fun tag => hasName tagNames tag = false) opened
  end.

(** [inTree n tree]: [n] is [tree] or a node below it. *)
Inductive inTree (n : Node) : Node -> Prop :=
| inTree_here : inTree n n
| inTree_child : forall tok l m,
    In m l -> inTree n m -> inTree n (mkNode tok l).

(** *** What the rest of the development states the package against *)

(** The nesting check of all the tags of a scope, whatever their names,
    from the open tags [stack] on: where the scope closes, the end tag that
    does not close the innermost open tag, or the tags left open where the
    input ends or fails; each with the tokens left. *)
Inductive verdict : Type :=
| Closed (rest : list Token)
| Mismatched (last tag : gostring) (rest : list Token)
| Unclosed (stack : list gostring) (rest : list Token).

Fixpoint balance (stack : list gostring) (ts : list Token) {struct ts}
  : verdict :=
  match stack with
  | [] => Closed ts
  | _ :: _ =>
      match ts with
      | [] => Unclosed stack []
      | tok :: rest =>
          match TType tok with
          | ErrorToken => Unclosed stack rest
          | StartTagToken => balance (stack ++ [Data tok]) rest
          | EndTagToken =>
              match popTag stack (Data tok) with
              | Ok stack' => balance stack' rest
              | Err _ => Mismatched (last stack []) (Data tok) rest
              end
          | _ => balance stack rest
          end
      end
  end.

(** Of the open tags of a scope, those of the innermost invocation of
    [TextInTag]: an invocation starts at the scope's first tag and at every
    tag whose name is in the set, so these are the open tags from the last
    one on whose name is in the set, and all of them when none but the
    first is. *)
Fixpoint innermost (tagNames stack : list gostring) : list gostring :=
  match stack with
  | [] => []
  | tag :: opened =>
      if existsb (hasName tagNames) opened then innermost tagNames opened
      else tag :: opened
  end.

(** What the loop of [TextInTag] returns for a verdict of the nesting
    check: the result and the tokenizer left. *)
Definition follows (tagNames : list gostring) (v : verdict) (e : StreamError)
           (r : result (list Node) * Tokenizer) : Prop :=
  match v with
  | Closed rest => exists list, r = (Ok list, mkTokenizer rest e)
  | Mismatched last tag rest =>
      r = (Err (MismatchedClosingTag last tag), mkTokenizer rest e)
  | Unclosed stack rest =>
      r = (Err (UnclosedTags (innermost tagNames stack)), mkTokenizer rest e)
  end.

(** The tokens that matter to a call with the names [tagNames]: the tags
    of the set, and the texts that are not blank. *)
Definition kept (tagNames : list gostring) (tok : Token) : bool :=
  match TType tok with
  | StartTagToken | EndTagToken | SelfClosingTagToken =>
      hasName tagNames (Data tok)
  | TextToken => negb (forallb IsSpace (Data tok))
  | CommentToken | DoctypeToken => false
  | ErrorToken => true
  end.

Definition erase (tagNames : list gostring) (t : Tokenizer) : Tokenizer :=
  mkTokenizer (filter (kept tagNames) (pending t)) (err t).

(** The texts of a tree, in the order of its nodes. *)
Fixpoint texts (n : Node) : list gostring :=
  match n with
  | mkNode tok l =>
      match TType tok with
      | TextToken => [Data tok]
      | _ => []
      end ++ flat_map texts l
  end.

(** The texts of the tokens, trimmed, without the blank ones. *)
Definition tokenTexts (ts : list Token) : list gostring :=
  flat_map (fun tok =>
              match TType tok with
              | TextToken =>
                  if forallb IsSpace (Data tok) then []
                  else [TrimSpace (Data tok)]
              | _ => []
              end) ts.

(** The tree without the attributes of its tokens. *)
Fixpoint stripAttr (n : Node) : Node :=
  match n with
  | mkNode tok l => mkNode (mkToken (TType tok) (Data tok) []) (map stripAttr l)
  end.

(** A token that the match locator stops at: a start tag or a self-closing
    tag with a name of the set. *)
Definition isMatch (tagNames : list gostring) (tok : Token) : bool :=
  match TType tok with
  | StartTagToken | SelfClosingTagToken => hasName tagNames (Data tok)
  | _ => false
  end.

(** A token that the match locator passes: no match, and no error. *)
Definition isSkipped (tagNames : list gostring) (tok : Token) : bool :=
  negb (isMatch tagNames tok)
  && match TType tok with ErrorToken => false | _ => true end.

(** The tokens that a tree stands for: an element as its start tag, the
    tokens of its children and an end tag of its name; a self-closing tag
    or a text as its token. *)
Fixpoint flatten (n : Node) : list Token :=
  match n with
  | mkNode tok l =>
      match TType tok with
      | StartTagToken =>
          tok :: flat_map flatten l ++ [mkToken EndTagToken (Data tok) []]
      | _ => [tok]
      end
  end.

(** A token as the loop keeps it: of a text the trimmed text, of an end
    tag the name. *)
Definition normal (tok : Token) : Token :=
  match TType tok with
  | TextToken => mkToken TextToken (TrimSpace (Data tok)) (Attr tok)
  | EndTagToken => mkToken EndTagToken (Data tok) []
  | _ => tok
  end.

End htmlfilter.

(** ** Package xmlfilter *)

Module xmlfilter.

(** [xml.Name]; [RawToken] leaves the prefix in [Space]. *)
Record Name : Type := mkName { Space : gostring; Local : gostring }.

Record Attr : Type := mkAttr { AttrName : Name; Value : gostring }.

(** [xml.StartElement]. *)
Record StartElement : Type := mkStartElement
  { ElemName : Name; ElemAttr : list Attr }.

(** The dynamic types of an [xml.Token]. *)
Inductive Token : Type :=
| TokStartElement (s : StartElement)
| TokEndElement (name : Name)
| TokCharData (b : gostring)
| TokComment (b : gostring)
| TokProcInst (target inst : gostring)
| TokDirective (b : gostring).

(** What the interface value [Node.Token] holds: a token of the decoder,
    or the Go [string] that [parseList] stores for character data. *)
Inductive TokenValue : Type :=
| ValToken (t : Token)
| ValString (s : gostring).

(** [type Node struct { Token xml.Token; List []Node }]. *)
Inductive Node : Type :=
| mkNode (token : TokenValue) (children : list Node).

Definition Node_Token (n : Node) : TokenValue := let (t, _) := n in t.
Definition Node_List (n : Node) : list Node := let (_, l) := n in l.

(** The errors of the package, a constructor for each [fmt.Errorf] format
    with its arguments; [DecoderError] is the error of [d.RawToken()],
    returned as it is. *)
Inductive error : Type :=
| DecoderError (e : StreamError)
| UnclosedTags (stack : list Name)
| MismatchedClosingTag (last name : Name)
| UnexpectedClosingTag (name : Name).

Inductive result (A : Type) : Type :=
| Ok (a : A)
| Err (e : error).
Arguments Ok {A} a.
Arguments Err {A} e.

(** The decoder: the tokens it will still produce, and the error it
    returns once they are exhausted. *)
Record Decoder : Type := mkDecoder
  { pending : list Token; err : StreamError }.

(** [d.RawToken()]: a token, or the error. *)
Definition RawToken (d : Decoder) : (Token + StreamError) * Decoder :=
  match pending d with
  | [] => (inr (err d), d)
  | tok :: rest => (inl tok, mkDecoder rest (err d))
  end.

(** Go's [==] on [xml.Name]. *)
Definition Name_eqb (a b : Name) : bool :=
  gostring_eqb (Space a) (Space b) && gostring_eqb (Local a) (Local b).

Definition hasName (names : list Name) (name : Name) : bool :=
  existsb (fun v => Name_eqb v name) names.

(** The message of [fmt.Errorf("unexpected %T", n.Token)]: [%T] is the
    dynamic type of the token. *)
Definition typeName (tok : TokenValue) : gostring :=
  match tok with
  | ValToken (TokStartElement _) => str "xml.StartElement"
  | ValToken (TokEndElement _) => str "xml.EndElement"
  | ValToken (TokCharData _) => str "xml.CharData"
  | ValToken (TokComment _) => str "xml.Comment"
  | ValToken (TokProcInst _ _) => str "xml.ProcInst"
  | ValToken (TokDirective _) => str "xml.Directive"
  | ValString _ => str "string"
  end.

Definition unexpected (n : Node) : gostring :=
  str "unexpected " ++ typeName (Node_Token n).

(** [func (n Node) String() string]; [None] is the [panic].  The children
    are written with [fmt.Fprintf(b, "%s", v)], which calls [v.String()] and
    recovers its panic: a child that panics leaves [recovered (unexpected
    v)] in its place, and the parent goes on. *)
Fixpoint String (n : Node) : option gostring :=
  match n with
  | mkNode tok l =>
      match tok with
      | ValToken (TokStartElement t) =>
          (fix render (l : list Node) (b : gostring) : option gostring :=
             match l with
             | [] => Some (b ++ str "</" ++ Local (ElemName t) ++ str ">")
             | v :: l' =>
                 match String v with
                 | Some s => render l' (b ++ s)
                 | None => render l' (b ++ recovered (unexpected v))
                 end
             end) l (str "<" ++ Local (ElemName t) ++ str ">")
      | ValToken (TokCharData t) => Some t
      | ValString t => Some t
      | _ => None
      end
  end.

(** [skipUntilStartElement]: the loop over [d.RawToken()], on the pending
    tokens. *)
Fixpoint skipUntilStartElement_scan (names : list Name) (e : StreamError)
         (ts : list Token) : result StartElement * Decoder :=
  match ts with
  | [] => (Err (DecoderError e), mkDecoder [] e)
  | TokStartElement start :: rest =>
      if hasName names (ElemName start)
      then (Ok start, mkDecoder rest e)
      else skipUntilStartElement_scan names e rest
  | _ :: rest => skipUntilStartElement_scan names e rest
  end.

Definition skipUntilStartElement (d : Decoder) (names : list Name)
  : result StartElement * Decoder :=
  skipUntilStartElement_scan names (err d) (pending d).

(** [popName]. *)
Definition popName (names : list Name) (name : Name) : result (list Name) :=
  match length names with
  | 0 => Err (UnexpectedClosingTag name)
  | S n =>
      let last := nth n names (mkName [] []) in
      if Name_eqb last name then Ok (firstn n names)
      else Err (MismatchedClosingTag last name)
  end.

(** The [for _, v := range names] of the [xml.StartElement] case, from the
    names [vs] still to visit: every [v] equal to [t.Name] sets [found],
    calls [parseList] ([recurse]) and appends a node; the loop has no
    [break].  Its result is [found] and [c], or the [return nil, err]. *)
Fixpoint rangeNames
         (recurse : Decoder -> option (result (list Node) * Decoder))
         (t : StartElement) (vs : list Name) (found : bool) (c : list Node)
         (d : Decoder) : option (result (bool * list Node) * Decoder) :=
  match vs with
  | [] => Some (Ok (found, c), d)
  | v :: vs' =>
      if Name_eqb v (ElemName t)
      then match recurse d with
           | None => None
           | Some (Err e, d') => Some (Err e, d')
           | Some (Ok list, d') =>
               rangeNames recurse t vs' true
                          (c ++ [mkNode (ValToken (TokStartElement t)) list]) d'
           end
      else rangeNames recurse t vs' found c d
  end.

(** What one trip through the body of [parseList]'s [for] ends in. *)
Inductive outcome : Type :=
| Continue (stack : list Name) (c : list Node) (d : Decoder)
| Return (e : error) (d : Decoder).

(** The body of the [for len(stack) > 0] loop of [parseList].
    [recurse name d] is the call [parseList(d, names, []xml.Name{name})]. *)
Definition loopBody
           (recurse : Name -> Decoder ->
                      option (result (list Node) * Decoder))
           (names stack : list Name) (c : list Node) (d : Decoder)
  : option outcome :=
  match RawToken d with
  | (inr _, d1) => Some (Return (UnclosedTags stack) d1)
  | (inl token, d1) =>
      match token with
      | TokStartElement t =>
          match rangeNames (recurse (ElemName t)) t names false c d1 with
          | None => None
          | Some (Err e, d2) => Some (Return e d2)
          | Some (Ok (found, c'), d2) =>
              if found then Some (Continue stack c' d2)
              else Some (Continue (stack ++ [ElemName t]) c' d2)
          end
      | TokEndElement name =>
          match popName stack name with
          | Err e => Some (Return e d1)
          | Ok stack' => Some (Continue stack' c d1)
          end
      | TokCharData t =>
          let b := TrimSpace t in
          if 0 <? length b
          then Some (Continue stack (c ++ [mkNode (ValString b) []]) d1)
          else Some (Continue stack c d1)
      | _ => Some (Continue stack c d1)
      end
  end.

(** [parseList]'s loop from the state [stack], [c]. *)
Fixpoint parseList_fuel (fuel : nat) (names stack : list Name)
         (c : list Node) (d : Decoder)
  : option (result (list Node) * Decoder) :=
  match fuel with
  | 0 => None
  | S fuel' =>
      match stack with
      | [] => Some (Ok c, d)
      | _ :: _ =>
          match loopBody (fun name d' => parseList_fuel fuel' names [name] [] d')
                         names stack c d with
          | None => None
          | Some (Return e d') => Some (Err e, d')
          | Some (Continue stack' c' d') =>
              parseList_fuel fuel' names stack' c' d'
          end
      end
  end.

(** The loop with the fuel that always suffices, since every trip consumes
    a token: with it [parseList_fuel] has a result ([parseList_fuel_loop]),
    so the second branch is never taken. *)
Definition parseList_loop (names stack : list Name) (c : list Node)
           (d : Decoder) : result (list Node) * Decoder :=
  match parseList_fuel (S (length (pending d))) names stack c d with
  | Some r => r
  | None => (Err (UnclosedTags stack), d)
  end.

(** [func parseList(d *xml.Decoder, names, stack []xml.Name)]: [var c
    []Node], then the loop. *)
Definition parseList (d : Decoder) (names stack : list Name)
  : result (list Node) * Decoder :=
  parseList_loop names stack [] d.

(** [func NextNames(d *xml.Decoder, names ...xml.Name)]. *)
Definition NextNames (d : Decoder) (names : list Name)
  : result Node * Decoder :=
  match skipUntilStartElement d names with
  | (Err e, d1) => (Err e, d1)
  | (Ok t, d1) =>
      match parseList d1 names [ElemName t] with
      | (Err e, d2) => (Err e, d2)
      | (Ok list, d2) => (Ok (mkNode (ValToken (TokStartElement t)) list), d2)
      end
  end.

(** One trip through the loop body of [parseList], the recursive call
    being [parseList] itself. *)
Definition step (names stack : list Name) (c : list Node) (d : Decoder)
  : outcome :=
  match loopBody (fun name d' => Some (parseList d' names [name]))
                 names stack c d with
  | Some o => o
  | None => Return (UnclosedTags stack) d
  end.

(** The state at the head of the [for] loop of one invocation. *)
Definition state : Type := (list Name * list Node * Decoder)%type.

(** [reaches names s s']: the execution of the loop from the state [s]
    arrives at the head of the loop in the state [s'], of the same
    invocation after complete trips, or of a nested invocation: the
    [range] loop has visited the names [vs1], meets [v == t.Name] and
    calls [parseList]. *)
Inductive reaches (names : list Name) : state -> state -> Prop :=
| reaches_here : forall s, reaches names s s
| reaches_trip : forall stack c d stack' c' d' s,
    stack <> [] ->
    step names stack c d = Continue stack' c' d' ->
    reaches names (stack', c', d') s ->
    reaches names (stack, c, d) s
| reaches_call : forall stack c d t d1 vs1 v vs2 found c2 d2 s,
    stack <> [] ->
    RawToken d = (inl (TokStartElement t), d1) ->
    names = vs1 ++ v :: vs2 ->
    Name_eqb v (ElemName t) = true ->
    rangeNames (fun d' => Some (parseList d' names [ElemName t]))
               t vs1 false c d1 = Some (Ok (found, c2), d2) ->
    reaches names ([ElemName t], [], d2) s ->
    reaches names (stack, c, d) s.

(** Every node of the tree is an element whose name is one of [names], or
    a text node. *)
Fixpoint wellTagged (names : list Name) (n : Node) : bool :=
  match n with
  | mkNode tok l =>
      match tok with
      | ValToken (TokStartElement t) =>
          hasName names (ElemName t) && forallb (wellTagged names) l
      | ValString _ => forallb (wellTagged names) l
      | _ => false
      end
  end.

(** No text node of the tree is empty or made of white space only. *)
Fixpoint noBlankText (n : Node) : bool :=
  match n with
  | mkNode tok l =>
      match tok with
      | ValString s => negb (forallb IsSpace s)
      | _ => true
      end && forallb noBlankText l
  end.

(** The stack of an invocation: the name it was called for, one of
    [names] when the call comes from [NextNames] or from the loop, below
    names that are not in [names]. *)
Definition scopeStack (names stack : list Name) : Prop :=
  match stack with
  | [] => True
  | start :: opened =>
      hasName names start = true
      /\ Forall (fun name => hasName names name = false) opened
  end.

(** [inTree n tree]: [n] is [tree] or a node below it. *)
Inductive inTree (n : Node) : Node -> Prop :=
| inTree_here : inTree n n
| inTree_child : forall tok l m,
    In m l -> inTree n m -> inTree n (mkNode tok l).

(** *** What the rest of the development states the package against *)

(** [func (n Node) String() string] of the earlier revision of the package
    (the unnamed source file): it has no case for [xml.CharData], and
    panics on it as on the other tokens. *)
Fixpoint String0 (n : Node) : option gostring :=
  match n with
  | mkNode tok l =>
      match tok with
      | ValToken (TokStartElement t) =>
          (fix render (l : list Node) (b : gostring) : option gostring :=
             match l with
             | [] => Some (b ++ str "</" ++ Local (ElemName t) ++ str ">")
             | v :: l' =>
                 match String0 v with
                 | Some s => render l' (b ++ s)
                 | None => render l' (b ++ recovered (unexpected v))
                 end
             end) l (str "<" ++ Local (ElemName t) ++ str ">")
      | ValString t => Some t
      | _ => None
      end
  end.

(** The nesting check of all the elements of a scope, whatever their
    names, from the open names [stack] on: where the scope closes, the end
    element that does not close the innermost open element, or the names
    left open at the end of the input. *)
Inductive verdict : Type :=
| Closed (rest : list Token)
| Mismatched (last name : Name) (rest : list Token)
| Unclosed (stack : list Name).

(** Of the open names of a scope, those of the innermost invocation of
    [parseList]: an invocation starts at the scope's first name and at
    every name of the set, so these are the open names from the last one on
    that is in the set, and all of them when none but the first is. *)
Fixpoint innermost (names stack : list Name) : list Name :=
  match stack with
  | [] => []
  | name :: opened =>
      if existsb (hasName names) opened then innermost names opened
      else name :: opened
  end.

Fixpoint balance (stack : list Name) (ts : list Token) {struct ts} : verdict :=
  match stack with
  | [] => Closed ts
  | _ :: _ =>
      match ts with
      | [] => Unclosed stack
      | TokStartElement t :: rest => balance (stack ++ [ElemName t]) rest
      | TokEndElement name :: rest =>
          match popName stack name with
          | Ok stack' => balance stack' rest
          | Err _ => Mismatched (last stack (mkName [] [])) name rest
          end
      | _ :: rest => balance stack rest
      end
  end.

(** What the loop of [parseList] returns for a verdict of the nesting
    check: the result and the decoder left, which is exhausted when the
    scope is not closed. *)
Definition follows (names : list Name) (v : verdict) (e : StreamError)
           (r : result (list Node) * Decoder) : Prop :=
  match v with
  | Closed rest => exists list, r = (Ok list, mkDecoder rest e)
  | Mismatched last name rest =>
      r = (Err (MismatchedClosingTag last name), mkDecoder rest e)
  | Unclosed stack =>
      r = (Err (UnclosedTags (innermost names stack)), mkDecoder [] e)
  end.

(** The tokens that matter to a call with the names [names]: the elements
    of the set, and the character data that is not blank. *)
Definition kept (names : list Name) (tok : Token) : bool :=
  match tok with
  | TokStartElement t => hasName names (ElemName t)
  | TokEndElement name => hasName names name
  | TokCharData b => negb (forallb IsSpace b)
  | _ => false
  end.

Definition erase (names : list Name) (d : Decoder) : Decoder :=
  mkDecoder (filter (kept names) (pending d)) (err d).

(** The texts of a tree, in the order of its nodes. *)
Fixpoint texts (n : Node) : list gostring :=
  match n with
  | mkNode tok l =>
      match tok with
      | ValString s => [s]
      | _ => []
      end ++ flat_map texts l
  end.

(** The character data of the tokens, trimmed, without the blank ones. *)
Definition tokenTexts (ts : list Token) : list gostring :=
  flat_map (fun tok =>
              match tok with
              | TokCharData b =>
                  if forallb IsSpace b then [] else [TrimSpace b]
              | _ => []
              end) ts.

(** The tree without the attributes and the name spaces of its elements. *)
Fixpoint stripAttr (n : Node) : Node :=
  match n with
  | mkNode tok l =>
      mkNode match tok with
             | ValToken (TokStartElement t) =>
                 ValToken (TokStartElement
                             (mkStartElement (mkName [] (Local (ElemName t))) []))
             | _ => tok
             end
             (map stripAttr l)
  end.

(** A token that the match locator stops at: a start element with a name of
    the set. *)
Definition isMatch (names : list Name) (tok : Token) : bool :=
  match tok with
  | TokStartElement t => hasName names (ElemName t)
  | _ => false
  end.

(** The tokens that a tree stands for: an element as its start element,
    the tokens of its children and the end element of its name; a string
    as character data. *)
Fixpoint flatten (n : Node) : list Token :=
  match n with
  | mkNode tok l =>
      match tok with
      | ValToken (TokStartElement t) =>
          TokStartElement t :: flat_map flatten l
                          ++ [TokEndElement (ElemName t)]
      | ValToken tok' => [tok']
      | ValString s => [TokCharData s]
      end
  end.

(** A token as the loop keeps it: of character data the trimmed text. *)
Definition normal (tok : Token) : Token :=
  match tok with
  | TokCharData b => TokCharData (TrimSpace b)
  | _ => tok
  end.

End xmlfilter.

(** ** Documents of the tests and of the documentation *)

Module Documents.

(** A line break and some tabs. *)
Definition indent (tabs : nat) : gostring := 10%N :: repeat 9%N tabs.

Module H.
Import htmlfilter.
Definition attr (key val : string) : Attribute :=
  mkAttribute [] (str key) (str val).
Definition startTag (name : string) (a : list Attribute) : Token :=
  mkToken StartTagToken (str name) a.
Definition selfClosing (name : string) (a : list Attribute) : Token :=
  mkToken SelfClosingTagToken (str name) a.
Definition endTag (name : string) : Token :=
  mkToken EndTagToken (str name) [].
Definition text (s : string) : Token := mkToken TextToken (str s) [].
Definition element (tok : Token) (l : list Node) : Node := mkNode tok l.
Definition textNode (s : string) : Node := mkNode (text s) [].
Definition space (k : nat) : Token := mkToken TextToken (indent k) [].
Definition word (k : nat) (s : string) (k' : nat) : Token :=
  mkToken TextToken (indent k ++ str s ++ indent k') [].
End H.

Module X.
Import xmlfilter.
Definition name (local : string) : Name := mkName [] (str local).
Definition attr (key val : string) : Attr := mkAttr (name key) (str val).
Definition startElement (local : string) (a : list Attr) : StartElement :=
  mkStartElement (name local) a.
Definition start (local : string) (a : list Attr) : Token :=
  TokStartElement (startElement local a).
Definition endElement (local : string) : Token :=
  TokEndElement (name local).
Definition charData (s : string) : Token := TokCharData (str s).
Definition element (local : string) (a : list Attr) (l : list Node)
  : Node := mkNode (ValToken (start local a)) l.
Definition textNode (s : string) : Node := mkNode (ValString (str s)) [].
Definition space (k : nat) : Token := TokCharData (indent k).
Definition word (k : nat) (s : string) (k' : nat) : Token :=
  TokCharData (indent k ++ str s ++ indent k').
End X.

(** [<p><a name="x"/> Foo <sup><u><b> Bar </b></u></sup> <a href="y"> Baz
    </a></p>] as the tokenizer of [exp/html] reports it: [<a name="x"/>]
    is one self-closing token. *)
Definition filtering_html : list htmlfilter.Token :=
  [ H.startTag "p" []; H.selfClosing "a" [H.attr "name" "x"];
    H.text " Foo ";
    H.startTag "sup" []; H.startTag "u" []; H.startTag "b" [];
    H.text " Bar ";
    H.endTag "b"; H.endTag "u"; H.endTag "sup";
    H.text " ";
    H.startTag "a" [H.attr "href" "y"]; H.text " Baz "; H.endTag "a";
    H.endTag "p" ].

(** The same document as [Decoder.RawToken] reports it: [<a name="x"/>]
    is a start element followed by an end element. *)
Definition filtering_xml : list xmlfilter.Token :=
  [ X.start "p" []; X.start "a" [X.attr "name" "x"]; X.endElement "a";
    X.charData " Foo ";
    X.start "sup" []; X.start "u" []; X.start "b" [];
    X.charData " Bar ";
    X.endElement "b"; X.endElement "u"; X.endElement "sup";
    X.charData " ";
    X.start "a" [X.attr "href" "y"]; X.charData " Baz "; X.endElement "a";
    X.endElement "p" ].

Definition p_a_sup_html : list gostring := [str "p"; str "a"; str "sup"].
Definition p_a_sup_xml : list xmlfilter.Name :=
  [X.name "p"; X.name "a"; X.name "sup"].

(** The trees of the two packages for that document. *)
Definition filtering_tree_html : htmlfilter.Node :=
  H.element (H.startTag "p" [])
    [ H.element (H.selfClosing "a" [H.attr "name" "x"]) [];
      H.textNode "Foo";
      H.element (H.startTag "sup" []) [H.textNode "Bar"];
      H.element (H.startTag "a" [H.attr "href" "y"]) [H.textNode "Baz"] ].

Definition filtering_tree_xml : xmlfilter.Node :=
  X.element "p" []
    [ X.element "a" [X.attr "name" "x"] [];
      X.textNode "Foo";
      X.element "sup" [] [X.textNode "Bar"];
      X.element "a" [X.attr "href" "y"] [X.textNode "Baz"] ].

(** [<p><a>], the input ending there. *)
Definition unclosed_html : htmlfilter.Tokenizer :=
  htmlfilter.mkTokenizer [H.startTag "p" []; H.startTag "a" []] EOF.
Definition unclosed_xml : xmlfilter.Decoder :=
  xmlfilter.mkDecoder [X.start "p" []; X.start "a" []] EOF.

(** [<p><span>Foo</i></p>]. *)
Definition mismatched_html : htmlfilter.Tokenizer :=
  htmlfilter.mkTokenizer
    [H.startTag "p" []; H.startTag "span" []; H.text "Foo"; H.endTag "i";
     H.endTag "p"] EOF.
Definition mismatched_xml : xmlfilter.Decoder :=
  xmlfilter.mkDecoder
    [X.start "p" []; X.start "span" []; X.charData "Foo"; X.endElement "i";
     X.endElement "p"] EOF.

(** [<p>] and then a failure of the reader. *)
Definition failing_html : htmlfilter.Tokenizer :=
  htmlfilter.mkTokenizer [H.startTag "p" []] (Failure (str "read error")).
Definition failing_xml : xmlfilter.Decoder :=
  xmlfilter.mkDecoder [X.start "p" []] (Failure (str "read error")).

(** [<p><span><a>x</a></span></p>]: a tag of the set inside a tag that is
    not in the set [{p, a}]. *)
Definition nested_html : list htmlfilter.Token :=
  [H.startTag "p" []; H.startTag "span" []; H.startTag "a" []; H.text "x";
   H.endTag "a"; H.endTag "span"; H.endTag "p"].
Definition nested_xml : list xmlfilter.Token :=
  [X.start "p" []; X.start "span" []; X.start "a" []; X.charData "x";
   X.endElement "a"; X.endElement "span"; X.endElement "p"].

(** [<p><p>x</p></p>], read with the names [p, p]. *)
Definition twice_html : list htmlfilter.Token :=
  [H.startTag "p" []; H.startTag "p" []; H.text "x"; H.endTag "p";
   H.endTag "p"].
Definition twice_xml : list xmlfilter.Token :=
  [X.start "p" []; X.start "p" []; X.charData "x"; X.endElement "p";
   X.endElement "p"].

(** The documents of [TestNextTextFilter] and [TestNextNames]: the tags
    are on lines of their own. *)

Definition test_html : list htmlfilter.Token :=
  [ H.startTag "html" []; H.space 1;
    H.startTag "p" []; H.space 2;
    H.selfClosing "a" [H.attr "name" "foo"]; H.space 2;
    H.startTag "small" []; H.space 3;
    H.startTag "font" [H.attr "face" "Arial"]; H.word 4 "Foo" 4;
    H.startTag "sup" []; H.space 5;
    H.startTag "u" []; H.space 6;
    H.startTag "b" []; H.word 7 "Bar" 6;
    H.endTag "b"; H.space 5;
    H.endTag "u"; H.space 4;
    H.endTag "sup"; H.space 3;
    H.endTag "font"; H.space 2;
    H.endTag "small"; H.space 2;
    H.startTag "a" [H.attr "href" "/path/to/somewhere"]; H.space 3;
    H.startTag "i" []; H.word 4 "Baz" 3;
    H.endTag "i"; H.space 2;
    H.endTag "a"; H.space 1;
    H.endTag "p";
    htmlfilter.mkToken htmlfilter.TextToken (indent 0 ++ indent 1) [];
    H.startTag "p" []; H.space 2;
    H.startTag "span" []; H.word 3 "Ding" 2;
    H.endTag "span"; H.space 1;
    H.endTag "p";
    htmlfilter.mkToken htmlfilter.TextToken (indent 0 ++ indent 0) [];
    H.endTag "html" ].

Definition test_xml : list xmlfilter.Token :=
  [ xmlfilter.TokProcInst
      (str "xml") (str "version='1.0' encoding='utf-8' standalone='yes'");
    X.space 2;
    X.start "p" []; X.space 3;
    X.start "a" [X.attr "name" "foo"]; X.endElement "a"; X.space 3;
    X.start "small" []; X.space 4;
    X.start "font" [X.attr "face" "Arial"]; X.word 5 "Foo" 5;
    X.start "sup" []; X.space 6;
    X.start "u" []; X.space 7;
    X.start "b" []; X.word 8 "Bar" 7;
    X.endElement "b"; X.space 6;
    X.endElement "u"; X.space 5;
    X.endElement "sup"; X.space 4;
    X.endElement "font"; X.space 3;
    X.endElement "small"; X.space 3;
    X.start "a" [X.attr "href" "/path/to/somewhere"]; X.space 4;
    X.start "i" []; X.word 5 "Baz" 4;
    X.endElement "i"; X.space 3;
    X.endElement "a"; X.space 2;
    X.endElement "p";
    xmlfilter.TokCharData (indent 0 ++ indent 2);
    X.start "p" []; X.space 3;
    X.start "span" []; X.word 4 "Ding" 3;
    X.endElement "span"; X.space 2;
    X.endElement "p"; X.space 1 ].

(** The tokenizer and the decoder of the documents above, and the exhausted
    ones. *)
Definition filtering_tokenizer : htmlfilter.Tokenizer :=
  htmlfilter.mkTokenizer filtering_html EOF.
Definition filtering_decoder : xmlfilter.Decoder :=
  xmlfilter.mkDecoder filtering_xml EOF.
Definition exhausted_html : htmlfilter.Tokenizer :=
  htmlfilter.mkTokenizer [] EOF.
Definition exhausted_xml : xmlfilter.Decoder := xmlfilter.mkDecoder [] EOF.

(** [<span><a>x</a></span></p>]: what follows the [<p>] of
    [<p><span><a>x</a></span></p>]. *)
Definition nested_scope_html : htmlfilter.Tokenizer :=
  htmlfilter.mkTokenizer (tl nested_html) EOF.
Definition nested_scope_xml : xmlfilter.Decoder :=
  xmlfilter.mkDecoder (tl nested_xml) EOF.

(** [<a><b>], the input ending there: what follows [<p><span>] in
    [<p><span><a><b>]. *)
Definition unclosed_scope_html : htmlfilter.Tokenizer :=
  htmlfilter.mkTokenizer [H.startTag "a" []; H.startTag "b" []] EOF.
Definition unclosed_scope_xml : xmlfilter.Decoder :=
  xmlfilter.mkDecoder [X.start "a" []; X.start "b" []] EOF.


(** The renderings of the trees of two successive calls. *)
Definition twoCalls_html (t : htmlfilter.Tokenizer) (tagNames : list gostring)
  : list (option gostring) :=
  let (r1, t1) := htmlfilter.NextTextFilter t tagNames in
  let (r2, _) := htmlfilter.NextTextFilter t1 tagNames in
  map (fun r => match r with
                | htmlfilter.Ok n => htmlfilter.String n
                | htmlfilter.Err _ => None
                end) [r1; r2].

Definition twoCalls_xml (d : xmlfilter.Decoder) (names : list xmlfilter.Name)
  : list (option gostring) :=
  let (r1, d1) := xmlfilter.NextNames d names in
  let (r2, _) := xmlfilter.NextNames d1 names in
  map (fun r => match r with
                | xmlfilter.Ok n => xmlfilter.String n
                | xmlfilter.Err _ => None
                end) [r1; r2].

End Documents.

(** ** The token streams of one document for the two packages *)

Module Correspondence.
Import htmlfilter.

Definition toName (tag : gostring) : xmlfilter.Name := xmlfilter.mkName [] tag.

Definition toAttr (a : Attribute) : xmlfilter.Attr :=
  xmlfilter.mkAttr (xmlfilter.mkName (Namespace a) (Key a)) (Val a).

Definition toStartElement (tok : Token) : xmlfilter.StartElement :=
  xmlfilter.mkStartElement (toName (Data tok)) (map toAttr (Attr tok)).

(** What [Decoder.RawToken] reports where the tokenizer of [exp/html]
    reports [tok]: the same kind with the same name or text, and for a
    self-closing token a start element followed by its end element.  An
    [ErrorToken] is no token of the input. *)
Definition toTokens (tok : Token) : list xmlfilter.Token :=
  match TType tok with
  | ErrorToken => []
  | TextToken => [xmlfilter.TokCharData (Data tok)]
  | StartTagToken => [xmlfilter.TokStartElement (toStartElement tok)]
  | EndTagToken => [xmlfilter.TokEndElement (toName (Data tok))]
  | SelfClosingTagToken =>
      [xmlfilter.TokStartElement (toStartElement tok);
       xmlfilter.TokEndElement (toName (Data tok))]
  | CommentToken => [xmlfilter.TokComment (Data tok)]
  | DoctypeToken => [xmlfilter.TokDirective (Data tok)]
  end.

Definition toDecoder (t : Tokenizer) : xmlfilter.Decoder :=
  xmlfilter.mkDecoder (flat_map toTokens (pending t)) (err t).

(** The node of [xmlfilter] with the structure of a node of [htmlfilter]:
    an element with the same name and children, or a text. *)
Fixpoint toNode (n : Node) : xmlfilter.Node :=
  match n with
  | mkNode tok l =>
      match TType tok with
      | TextToken => xmlfilter.mkNode (xmlfilter.ValString (Data tok)) (map toNode l)
      | _ =>
          xmlfilter.mkNode
            (xmlfilter.ValToken (xmlfilter.TokStartElement (toStartElement tok)))
            (map toNode l)
      end
  end.

Definition toError (e : error) : xmlfilter.error :=
  match e with
  | TokenizerError e' => xmlfilter.DecoderError e'
  | UnclosedTags stack => xmlfilter.UnclosedTags (map toName stack)
  | MismatchedClosingTag last tag =>
      xmlfilter.MismatchedClosingTag (toName last) (toName tag)
  | UnexpectedClosingTag tag => xmlfilter.UnexpectedClosingTag (toName tag)
  end.

Definition toResult {A B : Type} (f : A -> B) (r : result A)
  : xmlfilter.result B :=
  match r with
  | Ok a => xmlfilter.Ok (f a)
  | Err e => xmlfilter.Err (toError e)
  end.

(** A result of [htmlfilter] with the tokenizer it leaves, in [xmlfilter]. *)
Definition toReturn {A B : Type} (f : A -> B) (r : result A * Tokenizer)
  : xmlfilter.result B * xmlfilter.Decoder :=
  (toResult f (fst r), toDecoder (snd r)).

End Correspondence.

(** * Properties *)

(** ** Strings *)

Lemma gostring_eqb_eq (a b : gostring) : gostring_eqb a b = true <-> a = b.
Proof.
  revert b; induction a as [|x a IH]; intros [|y b]; simpl;
    try (split; congruence).
  rewrite andb_true_iff, N.eqb_eq, IH. split.
  - intros [-> ->]; reflexivity.
  - intros E; injection E; auto.
Qed.

Lemma gostring_eqb_refl (a : gostring) : gostring_eqb a a = true.
Proof. apply gostring_eqb_eq; reflexivity. Qed.

Lemma gostring_eqb_neq (a b : gostring) : gostring_eqb a b = false <-> a <> b.
Proof.
  rewrite <- gostring_eqb_eq. destruct (gostring_eqb a b); split; congruence.
Qed.

Lemma TrimLeftSpace_blank (s : gostring) :
  TrimLeftSpace s = [] <-> forallb IsSpace s = true.
Proof.
  induction s as [|r s IH]; simpl; [tauto|].
  destruct (IsSpace r); simpl; [exact IH | split; discriminate].
Qed.

Lemma TrimLeftSpace_split (s : gostring) :
  exists l, s = l ++ TrimLeftSpace s /\ forallb IsSpace l = true.
Proof.
  induction s as [|r s [l [E Hl]]]; simpl.
  - exists []; auto.
  - destruct (IsSpace r) eqn:Hr.
    + exists (r :: l); simpl; rewrite Hr, Hl, <- E; auto.
    + exists []; auto.
Qed.

Lemma TrimLeftSpace_head (s : gostring) (r : rune) (s' : gostring) :
  TrimLeftSpace s = r :: s' -> IsSpace r = false.
Proof.
  induction s as [|x s IH]; simpl; [discriminate|].
  destruct (IsSpace x) eqn:Hx; [exact IH|].
  intros E; injection E as -> _; exact Hx.
Qed.

Lemma forallb_rev (A : Type) (f : A -> bool) (l : list A) :
  forallb f (rev l) = forallb f l.
Proof.
  induction l as [|x l IH]; simpl; [reflexivity|].
  rewrite forallb_app, IH; simpl. rewrite andb_true_r, andb_comm; reflexivity.
Qed.

Lemma TrimRightSpace_blank (s : gostring) :
  TrimRightSpace s = [] <-> forallb IsSpace s = true.
Proof.
  unfold TrimRightSpace. rewrite <- (forallb_rev _ IsSpace s), <- TrimLeftSpace_blank.
  split; intros E.
  - apply (f_equal (@rev rune)) in E; rewrite rev_involutive in E; exact E.
  - rewrite E; reflexivity.
Qed.

Lemma TrimRightSpace_split (s : gostring) :
  exists r, s = TrimRightSpace s ++ r /\ forallb IsSpace r = true.
Proof.
  unfold TrimRightSpace.
  destruct (TrimLeftSpace_split (rev s)) as [l [E Hl]].
  exists (rev l). rewrite forallb_rev. split; [|exact Hl].
  rewrite <- rev_app_distr, <- E, rev_involutive; reflexivity.
Qed.

Lemma TrimRightSpace_head (s : gostring) (x : rune) :
  IsSpace x = false -> exists s', TrimRightSpace (x :: s) = x :: s'.
Proof.
  intros Hx. destruct (TrimRightSpace_split (x :: s)) as [r [E Hr]].
  destruct (TrimRightSpace (x :: s)) as [|y s'] eqn:T.
  - simpl in E; subst r; simpl in Hr; rewrite Hx in Hr; discriminate.
  - injection E as -> _; eauto.
Qed.

(** [TrimSpace] yields the empty string exactly on the strings made of white
    space only (the empty one among them). *)
Lemma TrimSpace_blank (s : gostring) :
  TrimSpace s = [] <-> forallb IsSpace s = true.
Proof.
  unfold TrimSpace. rewrite TrimRightSpace_blank.
  destruct (TrimLeftSpace s) as [|x s'] eqn:T.
  - rewrite <- (TrimLeftSpace_blank s), T; simpl; tauto.
  - pose proof (TrimLeftSpace_head _ _ _ T) as Hx. split; intros H.
    + simpl in H; rewrite Hx in H; discriminate.
    + apply TrimLeftSpace_blank in H; congruence.
Qed.

(** [TrimSpace s] is [s] without a prefix and a suffix of white space. *)
Lemma TrimSpace_split (s : gostring) :
  exists l r, s = l ++ TrimSpace s ++ r
              /\ forallb IsSpace l = true /\ forallb IsSpace r = true.
Proof.
  destruct (TrimLeftSpace_split s) as [l [El Hl]].
  destruct (TrimRightSpace_split (TrimLeftSpace s)) as [r [Er Hr]].
  exists l, r; unfold TrimSpace; rewrite <- Er; auto.
Qed.

(** A non-empty [TrimSpace s] starts and ends with a rune that is not white
    space. *)
Lemma TrimSpace_ends (s : gostring) :
  TrimSpace s <> [] ->
  (exists x s', TrimSpace s = x :: s' /\ IsSpace x = false)
  /\ (exists s' y, TrimSpace s = s' ++ [y] /\ IsSpace y = false).
Proof.
  intros Hne. split.
  - unfold TrimSpace in *. destruct (TrimLeftSpace s) as [|x s'] eqn:T.
    + exfalso; apply Hne; reflexivity.
    + pose proof (TrimLeftSpace_head _ _ _ T) as Hx.
      destruct (TrimRightSpace_head s' x Hx) as [s'' E]; eauto.
  - unfold TrimSpace, TrimRightSpace in *.
    destruct (TrimLeftSpace (rev (TrimLeftSpace s))) as [|y u] eqn:T.
    + exfalso; apply Hne; reflexivity.
    + exists (rev u), y; split; [reflexivity | exact (TrimLeftSpace_head _ _ _ T)].
Qed.

Lemma TrimSpace_not_blank (s : gostring) :
  TrimSpace s <> [] -> forallb IsSpace (TrimSpace s) = false.
Proof.
  intros H. destruct (TrimSpace_ends s H) as [[x [s' [E Hx]]] _].
  rewrite E; simpl; rewrite Hx; reflexivity.
Qed.

Lemma length_pos_nonempty (A : Type) (l : list A) :
  (0 <? length l) = true <-> l <> [].
Proof.
  destruct l; simpl; split; intros H; try reflexivity; try discriminate.
  exfalso; apply H; reflexivity.
Qed.

Lemma Forall_forallb (A : Type) (f : A -> bool) (l : list A) :
  Forall (fun x => f x = true) l <-> forallb f l = true.
Proof.
  rewrite forallb_forall, Forall_forall; tauto.
Qed.

(** ** htmlfilter: fuel and the equations of the loop *)

Module HtmlFacts.
Import htmlfilter.

Lemma Next_length (t : Tokenizer) (tok : Token) (t1 : Tokenizer) :
  Next t = (tok, t1) ->
  (pending t = [] /\ TType tok = ErrorToken /\ t1 = t)
  \/ length (pending t) = S (length (pending t1)).
Proof.
  unfold Next. destruct (pending t) as [|x rest] eqn:E; intros H;
    injection H as <- <-.
  - left; auto.
  - right; reflexivity.
Qed.

Lemma html_loopBody_mono rec1 rec2 tagNames stack c t o :
  (forall tag t' r, rec1 tag t' = Some r -> rec2 tag t' = Some r) ->
  loopBody rec1 tagNames stack c t = Some o ->
  loopBody rec2 tagNames stack c t = Some o.
Proof.
  intros Hrec. unfold loopBody. destruct (Next t) as [tok t1].
  destruct (TType tok); auto.
  destruct (hasName tagNames (Data tok)); auto.
  destruct (rec1 (Data tok) t1) as [r|] eqn:E; [|discriminate].
  rewrite (Hrec _ _ _ E); auto.
Qed.

Lemma TextInTag_fuel_mono fuel :
  forall tagNames stack c t r,
    TextInTag_fuel fuel tagNames stack c t = Some r ->
    forall fuel', fuel <= fuel' ->
                  TextInTag_fuel fuel' tagNames stack c t = Some r.
Proof.
  induction fuel as [|f IH]; intros tagNames stack c t r H fuel' Hle;
    [discriminate|].
  destruct fuel' as [|f']; [lia|].
  simpl in H |- *. destruct stack as [|x stack]; [exact H|].
  destruct (loopBody _ tagNames (x :: stack) c t) as [o|] eqn:E in H;
    [|discriminate].
  rewrite (html_loopBody_mono _ (fun tag t' => TextInTag_fuel f' tagNames [tag] [] t')
                         _ _ _ _ _ (fun tag t' r0 H0 => IH _ _ _ _ _ H0 f' ltac:(lia)) E).
  destruct o; [apply IH with (fuel' := f') in H; [exact H | lia] | exact H].
Qed.

(** With more fuel than pending tokens the loop has a result, and it does
    not lengthen the input. *)
Lemma TextInTag_fuel_enough fuel :
  forall tagNames stack c t,
    length (pending t) < fuel ->
    exists r t', TextInTag_fuel fuel tagNames stack c t = Some (r, t')
                 /\ length (pending t') <= length (pending t).
Proof.
  induction fuel as [|f IH]; intros tagNames stack c t Hlen; [lia|].
  simpl. destruct stack as [|x stack]; [eauto|].
  unfold loopBody. destruct (Next t) as [tok t1] eqn:EN.
  destruct (Next_length _ _ _ EN) as [[Hp [Ht ->]]|Hp].
  - rewrite Ht; eauto.
  - assert (H1 : length (pending t1) < f) by lia.
    assert (K : forall stack' c',
               exists r t',
                 TextInTag_fuel f tagNames stack' c' t1 = Some (r, t')
                 /\ length (pending t') <= length (pending t)).
    { intros stack' c'. destruct (IH tagNames stack' c' t1 H1) as [r [t' [E L]]].
      exists r, t'; split; [exact E | lia]. }
    destruct (TType tok); try apply K.
    + exists (Err (UnclosedTags (x :: stack))), t1; split; [reflexivity | lia].
    + destruct (0 <? length (TrimSpace (Data tok))); apply K.
    + destruct (hasName tagNames (Data tok)); [|apply K].
      destruct (IH tagNames [Data tok] [] t1 H1) as [r [t2 [E L]]].
      rewrite E. destruct r as [list|e].
      * destruct (IH tagNames (x :: stack) (c ++ [mkNode tok list]) t2 ltac:(lia))
          as [r' [t' [E' L']]].
        exists r', t'; split; [exact E' | lia].
      * exists (Err e), t2; split; [reflexivity | lia].
    + destruct (popTag (x :: stack) (Data tok)) as [stack'|e]; [apply K|].
      exists (Err e), t1; split; [reflexivity | lia].
    + destruct (hasName tagNames (Data tok)); apply K.
Qed.

Lemma TextInTag_fuel_loop fuel tagNames stack c t :
  length (pending t) < fuel ->
  TextInTag_fuel fuel tagNames stack c t
  = Some (TextInTag_loop tagNames stack c t).
Proof.
  intros Hlen. unfold TextInTag_loop.
  destruct (TextInTag_fuel_enough (S (length (pending t))) tagNames stack c t
                                  ltac:(lia)) as [r [t' [E _]]].
  rewrite E. apply (TextInTag_fuel_mono _ _ _ _ _ _ E). lia.
Qed.

Lemma TextInTag_loop_shorter tagNames stack c t r t' :
  TextInTag_loop tagNames stack c t = (r, t') ->
  length (pending t') <= length (pending t).
Proof.
  unfold TextInTag_loop.
  destruct (TextInTag_fuel_enough (S (length (pending t))) tagNames stack c t
                                  ltac:(lia)) as [r0 [t0 [E L]]].
  rewrite E. intros H; injection H as <- <-; exact L.
Qed.

Lemma html_loopBody_step fuel tagNames stack c t :
  length (pending t) <= fuel ->
  loopBody (fun tag t' => TextInTag_fuel fuel tagNames [tag] [] t')
           tagNames stack c t
  = Some (step tagNames stack c t).
Proof.
  intros Hlen. unfold step, loopBody.
  destruct (Next t) as [tok t1] eqn:EN.
  destruct (TType tok) eqn:ET; try reflexivity;
    try (destruct (hasName tagNames (Data tok)); reflexivity).
  - destruct (0 <? length (TrimSpace (Data tok))); reflexivity.
  - destruct (hasName tagNames (Data tok)); [|reflexivity].
    destruct (Next_length _ _ _ EN) as [[_ [Ht _]]|Hp]; [congruence|].
    rewrite TextInTag_fuel_loop by lia. unfold TextInTag.
    destruct (TextInTag_loop tagNames [Data tok] [] t1) as [[list|e] t2];
      reflexivity.
  - destruct (popTag stack (Data tok)); reflexivity.
Qed.

(** A trip that continues has consumed a token. *)
Lemma html_step_shorter tagNames stack c t stack' c' t' :
  step tagNames stack c t = Continue stack' c' t' ->
  length (pending t') < length (pending t).
Proof.
  unfold step, loopBody. destruct (Next t) as [tok t1] eqn:EN.
  destruct (Next_length _ _ _ EN) as [[_ [Ht _]]|Hp].
  - rewrite Ht; discriminate.
  - destruct (TType tok); try discriminate;
      try (intros H; injection H as <- <- <-; lia).
    + destruct (0 <? length (TrimSpace (Data tok)));
        intros H; injection H as <- <- <-; lia.
    + destruct (hasName tagNames (Data tok));
        [|intros H; injection H as <- <- <-; lia].
      destruct (TextInTag t1 (Data tok) tagNames) as [[list|e] t2] eqn:E;
        [|discriminate].
      apply TextInTag_loop_shorter in E.
      intros H; injection H as <- <- <-; lia.
    + destruct (popTag stack (Data tok)); [|discriminate].
      intros H; injection H as <- <- <-; lia.
    + destruct (hasName tagNames (Data tok));
        intros H; injection H as <- <- <-; lia.
Qed.

(** The loop of [TextInTag], unfolded once: it returns [c] when the stack
    is empty, and otherwise makes one trip through its body. *)
Lemma TextInTag_loop_eq tagNames stack c t :
  TextInTag_loop tagNames stack c t
  = match stack with
    | [] => (Ok c, t)
    | _ :: _ =>
        match step tagNames stack c t with
        | Continue stack' c' t' => TextInTag_loop tagNames stack' c' t'
        | Return e t' => (Err e, t')
        end
    end.
Proof.
  unfold TextInTag_loop at 1. simpl.
  destruct stack as [|x stack]; [reflexivity|].
  rewrite html_loopBody_step by lia.
  destruct (step tagNames (x :: stack) c t) as [stack' c' t'|e t'] eqn:E;
    [|reflexivity].
  apply html_step_shorter in E.
  rewrite TextInTag_fuel_loop by lia. reflexivity.
Qed.

End HtmlFacts.

(** ** xmlfilter: fuel and the equations of the loop *)

Module XmlFacts.
Import xmlfilter.

Lemma Name_eqb_eq (a b : Name) : Name_eqb a b = true <-> a = b.
Proof.
  unfold Name_eqb. rewrite andb_true_iff, !gostring_eqb_eq.
  destruct a as [sa la], b as [sb lb]; simpl. split.
  - intros [-> ->]; reflexivity.
  - intros E; injection E; auto.
Qed.

Lemma Name_eqb_refl (a : Name) : Name_eqb a a = true.
Proof. apply Name_eqb_eq; reflexivity. Qed.

Lemma Name_eqb_neq (a b : Name) : Name_eqb a b = false <-> a <> b.
Proof.
  rewrite <- Name_eqb_eq. destruct (Name_eqb a b); split; congruence.
Qed.

Lemma RawToken_length (d : Decoder) x (d1 : Decoder) :
  RawToken d = (x, d1) ->
  (pending d = [] /\ x = inr (err d) /\ d1 = d)
  \/ (exists tok, x = inl tok)
     /\ length (pending d) = S (length (pending d1)).
Proof.
  unfold RawToken. destruct (pending d) as [|tok rest] eqn:E; intros H;
    injection H as <- <-.
  - left; auto.
  - right; split; [eauto | reflexivity].
Qed.

Lemma rangeNames_mono rec1 rec2 t :
  (forall d r, rec1 d = Some r -> rec2 d = Some r) ->
  forall vs found c d o,
    rangeNames rec1 t vs found c d = Some o ->
    rangeNames rec2 t vs found c d = Some o.
Proof.
  intros Hrec. induction vs as [|v vs IH]; intros found c d o; simpl; auto.
  destruct (Name_eqb v (ElemName t)); auto.
  destruct (rec1 d) as [r|] eqn:E; [|discriminate].
  rewrite (Hrec _ _ E). destruct r as [[list|e] d']; auto.
Qed.

Lemma xml_loopBody_mono rec1 rec2 names stack c d o :
  (forall name d' r, rec1 name d' = Some r -> rec2 name d' = Some r) ->
  loopBody rec1 names stack c d = Some o ->
  loopBody rec2 names stack c d = Some o.
Proof.
  intros Hrec. unfold loopBody. destruct (RawToken d) as [[token|e] d1]; auto.
  destruct token as [t| | | | |]; auto.
  destruct (rangeNames (rec1 (ElemName t)) t names false c d1) as [r|] eqn:E;
    [|discriminate].
  rewrite (rangeNames_mono _ (rec2 (ElemName t)) t (Hrec (ElemName t)) _ _ _ _ _ E).
  auto.
Qed.

Lemma parseList_fuel_mono fuel :
  forall names stack c d r,
    parseList_fuel fuel names stack c d = Some r ->
    forall fuel', fuel <= fuel' ->
                  parseList_fuel fuel' names stack c d = Some r.
Proof.
  induction fuel as [|f IH]; intros names stack c d r H fuel' Hle;
    [discriminate|].
  destruct fuel' as [|f']; [lia|].
  simpl in H |- *. destruct stack as [|x stack]; [exact H|].
  destruct (loopBody _ names (x :: stack) c d) as [o|] eqn:E in H;
    [|discriminate].
  rewrite (xml_loopBody_mono _ (fun name d' => parseList_fuel f' names [name] [] d')
                         _ _ _ _ _ (fun name d' r0 H0 => IH _ _ _ _ _ H0 f' ltac:(lia)) E).
  destruct o; [apply IH with (fuel' := f') in H; [exact H | lia] | exact H].
Qed.

Lemma rangeNames_enough rec t n :
  (forall d, length (pending d) <= n ->
             exists r d', rec d = Some (r, d')
                          /\ length (pending d') <= length (pending d)) ->
  forall vs found c d,
    length (pending d) <= n ->
    exists r d', rangeNames rec t vs found c d = Some (r, d')
                 /\ length (pending d') <= length (pending d).
Proof.
  intros Hrec. induction vs as [|v vs IH]; intros found c d Hlen; simpl.
  - eauto.
  - destruct (Name_eqb v (ElemName t)); [|apply IH; exact Hlen].
    destruct (Hrec d Hlen) as [r [d' [E L]]]. rewrite E.
    destruct r as [list|e].
    + destruct (IH true (c ++ [mkNode (ValToken (TokStartElement t)) list]) d'
                   ltac:(lia)) as [r' [d'' [E' L']]].
      exists r', d''; split; [exact E' | lia].
    + eauto.
Qed.

(** With more fuel than pending tokens the loop has a result, and it does
    not lengthen the input. *)
Lemma parseList_fuel_enough fuel :
  forall names stack c d,
    length (pending d) < fuel ->
    exists r d', parseList_fuel fuel names stack c d = Some (r, d')
                 /\ length (pending d') <= length (pending d).
Proof.
  induction fuel as [|f IH]; intros names stack c d Hlen; [lia|].
  simpl. destruct stack as [|x stack]; [eauto|].
  unfold loopBody. destruct (RawToken d) as [tk d1] eqn:EN.
  destruct (RawToken_length _ _ _ EN) as [[Hp [-> ->]]|[[tok ->] Hp]].
  - eauto.
  - assert (H1 : length (pending d1) < f) by lia.
    assert (K : forall stack' c',
               exists r d',
                 parseList_fuel f names stack' c' d1 = Some (r, d')
                 /\ length (pending d') <= length (pending d)).
    { intros stack' c'. destruct (IH names stack' c' d1 H1) as [r [d' [E L]]].
      exists r, d'; split; [exact E | lia]. }
    destruct tok as [t|name|b| | |]; try apply K.
    + destruct (rangeNames_enough
                  (fun d' => parseList_fuel f names [ElemName t] [] d') t
                  (length (pending d1))
                  (fun d0 H0 => IH names [ElemName t] [] d0 ltac:(lia))
                  names false c d1 (le_n _)) as [r [d2 [E L]]].
      rewrite E. destruct r as [[found c']|e].
      * destruct found;
          [destruct (IH names (x :: stack) c' d2 ltac:(lia)) as [r' [d' [E' L']]]
          |destruct (IH names ((x :: stack) ++ [ElemName t]) c' d2 ltac:(lia))
            as [r' [d' [E' L']]]];
          exists r', d'; (split; [exact E' | lia]).
      * exists (Err e), d2; split; [reflexivity | lia].
    + destruct (popName (x :: stack) name) as [stack'|e]; [apply K|].
      exists (Err e), d1; split; [reflexivity | lia].
    + destruct (0 <? length (TrimSpace b)); apply K.
Qed.

Lemma parseList_fuel_loop fuel names stack c d :
  length (pending d) < fuel ->
  parseList_fuel fuel names stack c d
  = Some (parseList_loop names stack c d).
Proof.
  intros Hlen. unfold parseList_loop.
  destruct (parseList_fuel_enough (S (length (pending d))) names stack c d
                                  ltac:(lia)) as [r [d' [E _]]].
  rewrite E. apply (parseList_fuel_mono _ _ _ _ _ _ E). lia.
Qed.

Lemma parseList_loop_shorter names stack c d r d' :
  parseList_loop names stack c d = (r, d') ->
  length (pending d') <= length (pending d).
Proof.
  unfold parseList_loop.
  destruct (parseList_fuel_enough (S (length (pending d))) names stack c d
                                  ltac:(lia)) as [r0 [d0 [E L]]].
  rewrite E. intros H; injection H as <- <-; exact L.
Qed.

(** The [range] loop, the recursive call being [parseList] itself, does
    not lengthen the input. *)
Lemma rangeNames_shorter names name t :
  forall vs found c d r d',
    rangeNames (fun d0 => Some (parseList d0 names [name])) t vs found c d
    = Some (r, d') ->
    length (pending d') <= length (pending d).
Proof.
  induction vs as [|v vs IH]; intros found c d r d'; simpl.
  - intros H; injection H as <- <-; lia.
  - destruct (Name_eqb v (ElemName t)); [|apply IH].
    destruct (parseList d names [name]) as [[list|e] d1] eqn:E;
      apply parseList_loop_shorter in E.
    + intros H; apply IH in H; lia.
    + intros H; injection H as <- <-; exact E.
Qed.

Lemma rangeNames_fuel fuel names name t :
  forall vs found c d,
    length (pending d) < fuel ->
    rangeNames (fun d0 => parseList_fuel fuel names [name] [] d0) t vs found c d
    = rangeNames (fun d0 => Some (parseList d0 names [name])) t vs found c d.
Proof.
  induction vs as [|v vs IH]; intros found c d Hlen; simpl; [reflexivity|].
  destruct (Name_eqb v (ElemName t)); [|apply IH; exact Hlen].
  rewrite parseList_fuel_loop by exact Hlen. unfold parseList.
  destruct (parseList_loop names [name] [] d) as [[list|e] d1] eqn:E;
    [|reflexivity].
  apply parseList_loop_shorter in E. apply IH; lia.
Qed.

Lemma rangeNames_total g t :
  forall vs found c d,
    rangeNames (fun d0 => Some (g d0)) t vs found c d <> None.
Proof.
  induction vs as [|v vs IH]; intros found c d; simpl; [discriminate|].
  destruct (Name_eqb v (ElemName t)); [|apply IH].
  destruct (g d) as [[list|e] d1]; [apply IH | discriminate].
Qed.

Lemma xml_loopBody_step fuel names stack c d :
  length (pending d) <= fuel ->
  loopBody (fun name d' => parseList_fuel fuel names [name] [] d')
           names stack c d
  = Some (step names stack c d).
Proof.
  intros Hlen. unfold step, loopBody.
  destruct (RawToken d) as [tk d1] eqn:EN.
  destruct (RawToken_length _ _ _ EN) as [[Hp [-> ->]]|[[tok ->] Hp]];
    [reflexivity|].
  destruct tok as [t|name|b| | |]; try reflexivity.
  - rewrite rangeNames_fuel by lia.
    destruct (rangeNames _ t names false c d1) as [[[[found c']|e] d2]|] eqn:E;
      try reflexivity.
    + destruct found; reflexivity.
    + exfalso; exact (rangeNames_total _ _ _ _ _ _ E).
  - destruct (popName stack name); reflexivity.
  - destruct (0 <? length (TrimSpace b)); reflexivity.
Qed.

(** A trip that continues has consumed a token. *)
Lemma xml_step_shorter names stack c d stack' c' d' :
  step names stack c d = Continue stack' c' d' ->
  length (pending d') < length (pending d).
Proof.
  unfold step, loopBody. destruct (RawToken d) as [tk d1] eqn:EN.
  destruct (RawToken_length _ _ _ EN) as [[Hp [-> ->]]|[[tok ->] Hp]];
    [discriminate|].
  destruct tok as [t|name|b| | |];
    try (intros H; injection H as <- <- <-; lia).
  - destruct (rangeNames _ t names false c d1) as [[[[found c2]|e] d2]|] eqn:E;
      try discriminate.
    apply rangeNames_shorter in E.
    destruct found; intros H; injection H as <- <- <-; lia.
  - destruct (popName stack name); [|discriminate].
    intros H; injection H as <- <- <-; lia.
  - destruct (0 <? length (TrimSpace b));
      intros H; injection H as <- <- <-; lia.
Qed.

(** The loop of [parseList], unfolded once. *)
Lemma parseList_loop_eq names stack c d :
  parseList_loop names stack c d
  = match stack with
    | [] => (Ok c, d)
    | _ :: _ =>
        match step names stack c d with
        | Continue stack' c' d' => parseList_loop names stack' c' d'
        | Return e d' => (Err e, d')
        end
    end.
Proof.
  unfold parseList_loop at 1. simpl.
  destruct stack as [|x stack]; [reflexivity|].
  rewrite xml_loopBody_step by lia.
  destruct (step names (x :: stack) c d) as [stack' c' d'|e d'] eqn:E;
    [|reflexivity].
  apply xml_step_shorter in E.
  rewrite parseList_fuel_loop by lia. reflexivity.
Qed.

End XmlFacts.

(** ** htmlfilter: the trips of the loop, token by token *)

Module HtmlSteps.
Import htmlfilter HtmlFacts.

Section OneTrip.
Variables (tagNames stack : list gostring) (c : list Node).
Variables (t t1 : Tokenizer) (tok : Token).
Hypothesis scanned : Next t = (tok, t1).

Lemma step_ErrorToken :
  TType tok = ErrorToken ->
  step tagNames stack c t = Return (UnclosedTags stack) t1.
Proof. intros E; unfold step, loopBody; rewrite scanned, E; reflexivity. Qed.

Lemma step_SelfClosingTagToken :
  TType tok = SelfClosingTagToken ->
  step tagNames stack c t
  = if hasName tagNames (Data tok)
    then Continue stack (c ++ [mkNode tok []]) t1
    else Continue stack c t1.
Proof.
  intros E; unfold step, loopBody; rewrite scanned, E.
  destruct (hasName tagNames (Data tok)); reflexivity.
Qed.

Lemma step_StartTagToken :
  TType tok = StartTagToken ->
  step tagNames stack c t
  = if hasName tagNames (Data tok)
    then match TextInTag t1 (Data tok) tagNames with
         | (Ok list, t2) => Continue stack (c ++ [mkNode tok list]) t2
         | (Err e, t2) => Return e t2
         end
    else Continue (stack ++ [Data tok]) c t1.
Proof.
  intros E; unfold step, loopBody; rewrite scanned, E.
  destruct (hasName tagNames (Data tok)); [|reflexivity].
  destruct (TextInTag t1 (Data tok) tagNames) as [[list|e] t2]; reflexivity.
Qed.

Lemma step_EndTagToken :
  TType tok = EndTagToken ->
  step tagNames stack c t
  = match popTag stack (Data tok) with
    | Ok stack' => Continue stack' c t1
    | Err e => Return e t1
    end.
Proof.
  intros E; unfold step, loopBody; rewrite scanned, E.
  destruct (popTag stack (Data tok)); reflexivity.
Qed.

Lemma step_TextToken :
  TType tok = TextToken ->
  step tagNames stack c t
  = if forallb IsSpace (Data tok)
    then Continue stack c t1
    else Continue stack
                  (c ++ [mkNode (mkToken TextToken (TrimSpace (Data tok))
                                         (Attr tok)) []]) t1.
Proof.
  intros E; unfold step, loopBody; rewrite scanned, E.
  destruct (forallb IsSpace (Data tok)) eqn:B.
  - apply TrimSpace_blank in B; rewrite B; reflexivity.
  - destruct (0 <? length (TrimSpace (Data tok))) eqn:L; [reflexivity|].
    assert (TrimSpace (Data tok) = []) as K
        by (destruct (TrimSpace (Data tok)); [reflexivity | discriminate]).
    apply TrimSpace_blank in K; congruence.
Qed.

Lemma html_step_other :
  TType tok = CommentToken \/ TType tok = DoctypeToken ->
  step tagNames stack c t = Continue stack c t1.
Proof.
  intros [E|E]; unfold step, loopBody; rewrite scanned, E; reflexivity.
Qed.
End OneTrip.

(** [popTag] on a stack whose top is [x]. *)
Lemma popTag_top (s : list gostring) (x tag : gostring) :
  popTag (s ++ [x]) tag
  = if gostring_eqb x tag then Ok s else Err (MismatchedClosingTag x tag).
Proof.
  unfold popTag. rewrite length_app, Nat.add_comm; simpl.
  rewrite nth_middle, firstn_app, Nat.sub_diag, firstn_all; simpl.
  rewrite app_nil_r; reflexivity.
Qed.

Lemma html_stack_top (stack : list gostring) :
  stack <> [] -> exists s, stack = s ++ [last stack []].
Proof.
  intros H. exists (removelast stack). apply app_removelast_last; exact H.
Qed.

Lemma popTag_UnexpectedClosingTag (stack : list gostring) (tag x : gostring) :
  popTag stack tag = Err (UnexpectedClosingTag x) -> stack = [] /\ x = tag.
Proof.
  unfold popTag. destruct stack as [|y stack]; simpl.
  - intros H; injection H as <-; auto.
  - destruct (gostring_eqb _ tag); discriminate.
Qed.

(** An error at a state that the loop reaches is the result of the loop. *)
Lemma html_reaches_error tagNames s s' :
  reaches tagNames s s' ->
  forall e t',
    (let '(stack', c', t0) := s' in TextInTag_loop tagNames stack' c' t0)
    = (Err e, t') ->
    (let '(stack, c, t) := s in TextInTag_loop tagNames stack c t)
    = (Err e, t').
Proof.
  induction 1 as [s|stack c t stack' c' t' s Hne Hstep _ IH
                  |stack c t tok t1 s Hne HN HT Hin _ IH]; intros e t2 Herr.
  - exact Herr.
  - specialize (IH e t2 Herr). simpl in IH.
    rewrite TextInTag_loop_eq, Hstep.
    destruct stack; [congruence | exact IH].
  - specialize (IH e t2 Herr). simpl in IH.
    rewrite TextInTag_loop_eq, (step_StartTagToken _ _ _ _ _ _ HN HT), Hin.
    unfold TextInTag. rewrite IH.
    destruct stack; [congruence | reflexivity].
Qed.

Lemma html_firstn_scopeStack tagNames stack n :
  scopeStack tagNames stack -> scopeStack tagNames (firstn n stack).
Proof.
  destruct stack as [|x stack]; destruct n; simpl; auto.
  intros [Hx Ho]; split; [exact Hx|].
  rewrite <- (firstn_skipn n stack) in Ho.
  apply Forall_app in Ho; tauto.
Qed.

Lemma popTag_scopeStack tagNames stack tag stack' :
  scopeStack tagNames stack ->
  popTag stack tag = Ok stack' -> scopeStack tagNames stack'.
Proof.
  unfold popTag. destruct (length stack) as [|n]; [discriminate|].
  destruct (gostring_eqb _ tag); [|discriminate].
  intros Hs H; injection H as <-. apply html_firstn_scopeStack; exact Hs.
Qed.

Lemma html_scopeStack_step tagNames stack c t stack' c' t' :
  stack <> [] ->
  scopeStack tagNames stack ->
  step tagNames stack c t = Continue stack' c' t' ->
  scopeStack tagNames stack'.
Proof.
  intros Hne Hs. destruct (Next t) as [tok t1] eqn:HN.
  destruct (TType tok) eqn:HT.
  - rewrite (step_ErrorToken _ _ _ _ _ _ HN HT); discriminate.
  - rewrite (step_TextToken _ _ _ _ _ _ HN HT).
    destruct (forallb IsSpace (Data tok)); intros H; injection H as <- _ _;
      exact Hs.
  - rewrite (step_StartTagToken _ _ _ _ _ _ HN HT).
    destruct (hasName tagNames (Data tok)) eqn:Hin.
    + destruct (TextInTag t1 (Data tok) tagNames) as [[list|e] t2];
        [|discriminate].
      intros H; injection H as <- _ _; exact Hs.
    + intros H; injection H as <- _ _.
      destruct stack as [|x stack]; [congruence|]. simpl in *.
      destruct Hs as [Hx Ho]; split; [exact Hx|].
      apply Forall_app; split; [exact Ho|].
      constructor; [exact Hin | constructor].
  - rewrite (step_EndTagToken _ _ _ _ _ _ HN HT).
    destruct (popTag stack (Data tok)) as [s|e] eqn:P; [|discriminate].
    intros H; injection H as <- _ _. exact (popTag_scopeStack _ _ _ _ Hs P).
  - rewrite (step_SelfClosingTagToken _ _ _ _ _ _ HN HT).
    destruct (hasName tagNames (Data tok)); intros H; injection H as <- _ _;
      exact Hs.
  - rewrite (html_step_other _ _ _ _ _ _ HN (or_introl HT)).
    intros H; injection H as <- _ _; exact Hs.
  - rewrite (html_step_other _ _ _ _ _ _ HN (or_intror HT)).
    intros H; injection H as <- _ _; exact Hs.
Qed.

Lemma html_scopeStack_reaches tagNames s s' :
  reaches tagNames s s' ->
  scopeStack tagNames (fst (fst s)) -> scopeStack tagNames (fst (fst s')).
Proof.
  induction 1 as [s|stack c t stack' c' t' s Hne Hstep _ IH
                  |stack c t tok t1 s Hne HN HT Hin _ IH]; simpl in *.
  - auto.
  - intros Hs; apply IH. exact (html_scopeStack_step _ _ _ _ _ _ _ Hne Hs Hstep).
  - intros _; apply IH. split; [exact Hin | constructor].
Qed.

(** The errors that the loop itself makes: no [TokenizerError], and no
    [UnexpectedClosingTag], since the loop pops only while its stack is
    not empty. *)
Lemma TextInTag_fuel_errors fuel :
  forall tagNames stack c t e t',
    TextInTag_fuel fuel tagNames stack c t = Some (Err e, t') ->
    (exists s, s <> [] /\ e = UnclosedTags s)
    \/ (exists last tag, last <> tag /\ e = MismatchedClosingTag last tag).
Proof.
  induction fuel as [|f IH]; intros tagNames stack c t e t'; [discriminate|].
  simpl. destruct stack as [|x stack]; [discriminate|].
  unfold loopBody. destruct (Next t) as [tok t1].
  destruct (TType tok); try apply IH.
  - intros H; injection H as <- _. left; exists (x :: stack); split;
      [discriminate | reflexivity].
  - destruct (0 <? length (TrimSpace (Data tok))); apply IH.
  - destruct (hasName tagNames (Data tok)); [|apply IH].
    destruct (TextInTag_fuel f tagNames [Data tok] [] t1)
      as [[[list|e0] t2]|] eqn:E; try discriminate.
    + apply IH.
    + intros H; injection H as <- _. exact (IH _ _ _ _ _ _ E).
  - destruct (html_stack_top (x :: stack) ltac:(discriminate)) as [s Es].
    set (top := last (x :: stack) []) in *.
    rewrite Es, popTag_top.
    destruct (gostring_eqb top (Data tok)) eqn:B; [apply IH|].
    intros H; injection H as <- _. right.
    apply gostring_eqb_neq in B. eauto.
  - destruct (hasName tagNames (Data tok)); apply IH.
Qed.

Lemma TextInTag_loop_errors tagNames stack c t e t' :
  TextInTag_loop tagNames stack c t = (Err e, t') ->
  (exists s, s <> [] /\ e = UnclosedTags s)
  \/ (exists last tag, last <> tag /\ e = MismatchedClosingTag last tag).
Proof.
  intros H. apply (TextInTag_fuel_errors (S (length (pending t)))
                                         tagNames stack c t e t').
  rewrite TextInTag_fuel_loop by lia. rewrite H; reflexivity.
Qed.

(** ** htmlfilter: what the nodes of a result satisfy *)

Section NodeInvariant.
Variable tagNames : list gostring.
Variable Q : Node -> Prop.
Hypothesis Q_selfclosing : forall tok,
    TType tok = SelfClosingTagToken ->
    hasName tagNames (Data tok) = true -> Q (mkNode tok []).
Hypothesis Q_start : forall tok list,
    TType tok = StartTagToken ->
    hasName tagNames (Data tok) = true ->
    Forall Q list -> Q (mkNode tok list).
Hypothesis Q_text : forall tok,
    TType tok = TextToken ->
    TrimSpace (Data tok) <> [] ->
    Q (mkNode (mkToken TextToken (TrimSpace (Data tok)) (Attr tok)) []).

Lemma TextInTag_fuel_Forall fuel :
  forall stack c t list t',
    Forall Q c ->
    TextInTag_fuel fuel tagNames stack c t = Some (Ok list, t') ->
    Forall Q list.
Proof.
  induction fuel as [|f IH]; intros stack c t list t' Hc; [discriminate|].
  simpl. destruct stack as [|x stack].
  { intros H; injection H as <- _; exact Hc. }
  unfold loopBody. destruct (Next t) as [tok t1].
  assert (Hsnoc : forall n, Q n -> Forall Q (c ++ [n])).
  { intros n Hn; apply Forall_app; split; [exact Hc | constructor; auto]. }
  destruct (TType tok) eqn:HT; try (apply IH; exact Hc).
  - discriminate.
  - destruct (0 <? length (TrimSpace (Data tok))) eqn:L;
      [|apply IH; exact Hc].
    apply IH, Hsnoc, Q_text; [exact HT|].
    apply length_pos_nonempty; exact L.
  - destruct (hasName tagNames (Data tok)) eqn:Hin; [|apply IH; exact Hc].
    destruct (TextInTag_fuel f tagNames [Data tok] [] t1)
      as [[[l|e0] t2]|] eqn:E; try discriminate.
    apply IH, Hsnoc, Q_start; auto.
    exact (IH _ _ _ _ _ (Forall_nil Q) E).
  - destruct (popTag (x :: stack) (Data tok)); [|discriminate].
    apply IH; exact Hc.
  - destruct (hasName tagNames (Data tok)) eqn:Hin; [|apply IH; exact Hc].
    apply IH, Hsnoc, Q_selfclosing; auto.
Qed.

Lemma TextInTag_Forall t startTag list t' :
  TextInTag t startTag tagNames = (Ok list, t') -> Forall Q list.
Proof.
  intros H.
  apply (TextInTag_fuel_Forall (S (length (pending t))) [startTag] [] t
                               list t' (Forall_nil Q)).
  rewrite TextInTag_fuel_loop by lia. unfold TextInTag in H.
  rewrite H; reflexivity.
Qed.
End NodeInvariant.

Lemma NextStartTag_scan_found tagNames e ts tok t1 :
  NextStartTag_scan tagNames e ts = (Ok tok, t1) ->
  (TType tok = StartTagToken \/ TType tok = SelfClosingTagToken)
  /\ hasName tagNames (Data tok) = true.
Proof.
  induction ts as [|x ts IH]; simpl; [discriminate|].
  destruct (TType x) eqn:HT; try exact IH; try discriminate;
    (destruct (hasName tagNames (Data x)) eqn:Hin; [|exact IH]);
    intros H; injection H as <- _; auto.
Qed.

Lemma NextStartTag_scan_error tagNames e ts x t1 :
  NextStartTag_scan tagNames e ts = (Err x, t1) -> x = TokenizerError e.
Proof.
  induction ts as [|y ts IH]; simpl.
  - intros H; injection H as <- _; reflexivity.
  - destruct (TType y); try exact IH;
      try (intros H; injection H as <- _; reflexivity);
      (destruct (hasName tagNames (Data y)); [discriminate | exact IH]).
Qed.

(** An error at a state that [NextTextFilter] reaches in its builder is
    the result of [NextTextFilter]. *)
Lemma NextTextFilter_error t tagNames tok0 t0 stack c t' e t2 :
  NextStartTag t tagNames = (Ok tok0, t0) ->
  reaches tagNames ([Data tok0], [], t0) (stack, c, t') ->
  TextInTag_loop tagNames stack c t' = (Err e, t2) ->
  NextTextFilter t tagNames = (Err e, t2).
Proof.
  intros HS HR HE. unfold NextTextFilter, TextInTag. rewrite HS.
  rewrite (html_reaches_error _ _ _ HR e t2 HE). reflexivity.
Qed.

Lemma TextInTag_loop_exhausted tagNames stack c t :
  stack <> [] ->
  TType (fst (Next t)) = ErrorToken ->
  TextInTag_loop tagNames stack c t
  = (Err (UnclosedTags stack), snd (Next t)).
Proof.
  intros Hne HT. rewrite TextInTag_loop_eq.
  destruct (Next t) as [tok t1] eqn:HN. simpl in *.
  rewrite (step_ErrorToken _ _ _ _ _ _ HN HT).
  destruct stack; [congruence | reflexivity].
Qed.

Lemma popTag_mismatch (stack : list gostring) (tag : gostring) :
  stack <> [] ->
  last stack [] <> tag ->
  popTag stack tag = Err (MismatchedClosingTag (last stack []) tag).
Proof.
  intros Hne Hdiff. destruct (html_stack_top stack Hne) as [s Es].
  remember (last stack []) as top. rewrite Es, popTag_top.
  apply gostring_eqb_neq in Hdiff. rewrite Hdiff; reflexivity.
Qed.

Lemma TextInTag_loop_mismatch tagNames stack c t tok t1 :
  stack <> [] ->
  Next t = (tok, t1) ->
  TType tok = EndTagToken ->
  last stack [] <> Data tok ->
  TextInTag_loop tagNames stack c t
  = (Err (MismatchedClosingTag (last stack []) (Data tok)), t1).
Proof.
  intros Hne HN HT Hdiff. rewrite TextInTag_loop_eq.
  rewrite (step_EndTagToken _ _ _ _ _ _ HN HT).
  rewrite (popTag_mismatch _ _ Hne Hdiff).
  destruct stack; [congruence | reflexivity].
Qed.

(** [NextTextFilter] returns the tokenizer's error only from
    [NextStartTag]. *)
Lemma NextTextFilter_TokenizerError t tagNames e :
  fst (NextTextFilter t tagNames) = Err (TokenizerError e) ->
  fst (NextStartTag t tagNames) = Err (TokenizerError e) /\ e = err t.
Proof.
  unfold NextTextFilter.
  destruct (NextStartTag t tagNames) as [[tok0|e0] t0] eqn:HS.
  - unfold TextInTag.
    destruct (TextInTag_loop tagNames [Data tok0] [] t0)
      as [[list|e1] t2] eqn:HL; simpl; [discriminate|].
    apply TextInTag_loop_errors in HL.
    destruct HL as [[s [_ ->]]|[a [b [_ ->]]]]; discriminate.
  - unfold NextStartTag in HS. apply NextStartTag_scan_error in HS.
    subst e0; simpl. intros H; injection H as <-; auto.
Qed.

(** The trees of [NextTextFilter]. *)
Lemma NextTextFilter_wellTagged t tagNames n t' :
  NextTextFilter t tagNames = (Ok n, t') -> wellTagged tagNames n = true.
Proof.
  unfold NextTextFilter.
  destruct (NextStartTag t tagNames) as [[tok0|e0] t0] eqn:HS; [|discriminate].
  destruct (TextInTag t0 (Data tok0) tagNames) as [[list|e1] t2] eqn:HL;
    [|discriminate].
  intros H; injection H as <- _.
  unfold NextStartTag in HS. apply NextStartTag_scan_found in HS.
  destruct HS as [HT Hin].
  apply (TextInTag_Forall tagNames (fun n => wellTagged tagNames n = true)) in HL.
  - apply Forall_forallb in HL. simpl.
    destruct HT as [-> | ->]; rewrite Hin, HL; reflexivity.
  - intros tok HT' Hin'; simpl; rewrite HT', Hin'; reflexivity.
  - intros tok l HT' Hin' Hl; simpl; rewrite HT', Hin'.
    apply Forall_forallb in Hl; rewrite Hl; reflexivity.
  - intros tok _ _; reflexivity.
Qed.

Lemma NextTextFilter_noBlankText t tagNames n t' :
  NextTextFilter t tagNames = (Ok n, t') -> noBlankText n = true.
Proof.
  unfold NextTextFilter.
  destruct (NextStartTag t tagNames) as [[tok0|e0] t0] eqn:HS; [|discriminate].
  destruct (TextInTag t0 (Data tok0) tagNames) as [[list|e1] t2] eqn:HL;
    [|discriminate].
  intros H; injection H as <- _.
  unfold NextStartTag in HS. apply NextStartTag_scan_found in HS.
  destruct HS as [HT Hin].
  apply (TextInTag_Forall tagNames (fun n => noBlankText n = true)) in HL.
  - apply Forall_forallb in HL. simpl.
    destruct HT as [-> | ->]; rewrite HL; reflexivity.
  - intros tok HT' _; simpl; rewrite HT'; reflexivity.
  - intros tok l HT' _ Hl; simpl; rewrite HT'.
    apply Forall_forallb in Hl; rewrite Hl; reflexivity.
  - intros tok _ Hne; simpl. rewrite (TrimSpace_not_blank _ Hne); reflexivity.
Qed.

Lemma TextInTag_loop_not_unexpected tagNames stack c t x :
  fst (TextInTag_loop tagNames stack c t) <> Err (UnexpectedClosingTag x).
Proof.
  destruct (TextInTag_loop tagNames stack c t) as [[list|e] t'] eqn:HL; simpl;
    [discriminate|].
  apply TextInTag_loop_errors in HL.
  destruct HL as [[s [_ ->]]|[a [b [_ ->]]]]; discriminate.
Qed.

Lemma NextTextFilter_not_unexpected t tagNames x :
  fst (NextTextFilter t tagNames) <> Err (UnexpectedClosingTag x).
Proof.
  unfold NextTextFilter.
  destruct (NextStartTag t tagNames) as [[tok0|e0] t0] eqn:HS.
  - unfold TextInTag.
    destruct (TextInTag_loop tagNames [Data tok0] [] t0)
      as [[list|e1] t2] eqn:HL; simpl; [discriminate|].
    apply TextInTag_loop_errors in HL.
    destruct HL as [[s [_ ->]]|[a [b [_ ->]]]]; discriminate.
  - unfold NextStartTag in HS. apply NextStartTag_scan_error in HS.
    subst e0; simpl; discriminate.
Qed.

(** The loop on a tokenizer whose next token is known. *)
Section LoopOnToken.
Variables (tagNames stack : list gostring) (c : list Node).
Variables (tok : Token) (rest : list Token) (e : StreamError).
Hypothesis open : stack <> [].

Lemma TextInTag_loop_step t :
  TextInTag_loop tagNames stack c t
  = match step tagNames stack c t with
    | Continue stack' c' t' => TextInTag_loop tagNames stack' c' t'
    | Return e' t' => (Err e', t')
    end.
Proof.
  rewrite TextInTag_loop_eq. destruct stack; [congruence | reflexivity].
Qed.

Lemma TextInTag_loop_TextToken :
  TType tok = TextToken ->
  TextInTag_loop tagNames stack c (mkTokenizer (tok :: rest) e)
  = TextInTag_loop
      tagNames stack
      (if forallb IsSpace (Data tok) then c
       else c ++ [mkNode (mkToken TextToken (TrimSpace (Data tok)) (Attr tok))
                         []])
      (mkTokenizer rest e).
Proof.
  intros HT. rewrite TextInTag_loop_step.
  rewrite (step_TextToken tagNames stack c (mkTokenizer (tok :: rest) e)
             (mkTokenizer rest e) tok eq_refl HT).
  destruct (forallb IsSpace (Data tok)); reflexivity.
Qed.

Lemma TextInTag_loop_StartTagToken :
  TType tok = StartTagToken ->
  TextInTag_loop tagNames stack c (mkTokenizer (tok :: rest) e)
  = if hasName tagNames (Data tok)
    then match TextInTag_loop tagNames [Data tok] [] (mkTokenizer rest e) with
         | (Ok list, t2) =>
             TextInTag_loop tagNames stack (c ++ [mkNode tok list]) t2
         | (Err e', t2) => (Err e', t2)
         end
    else TextInTag_loop tagNames (stack ++ [Data tok]) c (mkTokenizer rest e).
Proof.
  intros HT. rewrite TextInTag_loop_step.
  rewrite (step_StartTagToken tagNames stack c (mkTokenizer (tok :: rest) e)
             (mkTokenizer rest e) tok eq_refl HT).
  unfold TextInTag.
  destruct (hasName tagNames (Data tok)); [|reflexivity].
  destruct (TextInTag_loop tagNames [Data tok] [] (mkTokenizer rest e))
    as [[list|e'] t2]; reflexivity.
Qed.

Lemma TextInTag_loop_EndTagToken :
  TType tok = EndTagToken ->
  TextInTag_loop tagNames stack c (mkTokenizer (tok :: rest) e)
  = match popTag stack (Data tok) with
    | Ok stack' => TextInTag_loop tagNames stack' c (mkTokenizer rest e)
    | Err e' => (Err e', mkTokenizer rest e)
    end.
Proof.
  intros HT. rewrite TextInTag_loop_step.
  rewrite (step_EndTagToken tagNames stack c (mkTokenizer (tok :: rest) e)
             (mkTokenizer rest e) tok eq_refl HT).
  destruct (popTag stack (Data tok)); reflexivity.
Qed.

Lemma TextInTag_loop_SelfClosingTagToken :
  TType tok = SelfClosingTagToken ->
  TextInTag_loop tagNames stack c (mkTokenizer (tok :: rest) e)
  = TextInTag_loop
      tagNames stack
      (if hasName tagNames (Data tok) then c ++ [mkNode tok []] else c)
      (mkTokenizer rest e).
Proof.
  intros HT. rewrite TextInTag_loop_step.
  rewrite (step_SelfClosingTagToken tagNames stack c (mkTokenizer (tok :: rest) e)
             (mkTokenizer rest e) tok eq_refl HT).
  destruct (hasName tagNames (Data tok)); reflexivity.
Qed.

Lemma TextInTag_loop_other :
  TType tok = CommentToken \/ TType tok = DoctypeToken ->
  TextInTag_loop tagNames stack c (mkTokenizer (tok :: rest) e)
  = TextInTag_loop tagNames stack c (mkTokenizer rest e).
Proof.
  intros HT. rewrite TextInTag_loop_step.
  rewrite (html_step_other tagNames stack c (mkTokenizer (tok :: rest) e)
             (mkTokenizer rest e) tok eq_refl HT).
  reflexivity.
Qed.
End LoopOnToken.

(** ** htmlfilter: the nodes that the loop appends stay in its result *)

Lemma TextInTag_fuel_prefix fuel :
  forall tagNames stack c t list t',
    TextInTag_fuel fuel tagNames stack c t = Some (Ok list, t') ->
    exists more, list = c ++ more.
Proof.
  induction fuel as [|f IH]; intros tagNames stack c t list t'; [discriminate|].
  simpl. destruct stack as [|x stack].
  { intros H; injection H as <- _. exists []; rewrite app_nil_r; reflexivity. }
  unfold loopBody. destruct (Next t) as [tok t1].
  assert (K : forall stack' n,
             TextInTag_fuel f tagNames stack' (c ++ [n]) t1 = Some (Ok list, t') ->
             exists more, list = c ++ more).
  { intros stack' n H. destruct (IH _ _ _ _ _ _ H) as [more ->].
    exists (n :: more). rewrite <- app_assoc; reflexivity. }
  destruct (TType tok); try apply IH.
  - discriminate.
  - destruct (0 <? length (TrimSpace (Data tok))); [apply K | apply IH].
  - destruct (hasName tagNames (Data tok)); [|apply IH].
    destruct (TextInTag_fuel f tagNames [Data tok] [] t1)
      as [[[l|e0] t2]|]; try discriminate.
    intros H. destruct (IH _ _ _ _ _ _ H) as [more ->].
    exists (mkNode tok l :: more). rewrite <- app_assoc; reflexivity.
  - destruct (popTag (x :: stack) (Data tok)); [apply IH | discriminate].
  - destruct (hasName tagNames (Data tok)); [apply K | apply IH].
Qed.

Lemma TextInTag_loop_prefix tagNames stack c t list t' :
  TextInTag_loop tagNames stack c t = (Ok list, t') ->
  exists more, list = c ++ more.
Proof.
  intros H.
  apply (TextInTag_fuel_prefix (S (length (pending t))) tagNames stack c t list t').
  rewrite TextInTag_fuel_loop by lia. rewrite H; reflexivity.
Qed.

(** When the loop succeeds, so does the loop from every state it reaches,
    and the nodes of that state's result are in the trees of the result. *)
Lemma html_reaches_inTree tagNames s s' :
  reaches tagNames s s' ->
  forall list0 t0',
    (let '(stack, c, t) := s in TextInTag_loop tagNames stack c t)
    = (Ok list0, t0') ->
    exists list t',
      (let '(stack', c', t1) := s' in TextInTag_loop tagNames stack' c' t1)
      = (Ok list, t')
      /\ forall n, In n list -> exists m, In m list0 /\ inTree n m.
Proof.
  induction 1 as [s|stack c t stack' c' t' s Hne Hstep _ IH
                  |stack c t tok t1 s Hne HN HT Hin _ IH]; intros list0 t0' H0.
  - exists list0, t0'. split; [exact H0|].
    intros n Hn; exists n; split; [exact Hn | constructor].
  - apply IH with (t0' := t0'). simpl.
    rewrite TextInTag_loop_eq, Hstep in H0.
    destruct stack; [congruence | exact H0].
  - rewrite TextInTag_loop_eq, (step_StartTagToken _ _ _ _ _ _ HN HT), Hin in H0.
    unfold TextInTag in H0. destruct stack as [|x stack]; [congruence|].
    destruct (TextInTag_loop tagNames [Data tok] [] t1) as [[l|e1] t2] eqn:HL;
      [|discriminate].
    destruct (IH l t2 eq_refl) as [list [t' [Hs Hsub]]].
    exists list, t'. split; [exact Hs|].
    apply TextInTag_loop_prefix in H0. destruct H0 as [more ->].
    intros n Hn. destruct (Hsub n Hn) as [m [Hm Hnm]].
    exists (mkNode tok l). split.
    + apply in_or_app; left. apply in_or_app; right; left; reflexivity.
    + exact (inTree_child n tok l m Hm Hnm).
Qed.

(** A start tag of the set that the builder meets, whatever its stack
    holds, is in the tree of a call that succeeds, with the nodes of the
    recursive call below it. *)
Lemma NextTextFilter_keeps_match t tagNames tok0 t0 stack c t' tok t1 root t2 :
  NextStartTag t tagNames = (Ok tok0, t0) ->
  reaches tagNames ([Data tok0], [], t0) (stack, c, t') ->
  stack <> [] ->
  Next t' = (tok, t1) ->
  TType tok = StartTagToken ->
  hasName tagNames (Data tok) = true ->
  NextTextFilter t tagNames = (Ok root, t2) ->
  exists list m,
    fst (TextInTag t1 (Data tok) tagNames) = Ok list
    /\ In m (Node_List root) /\ inTree (mkNode tok list) m.
Proof.
  intros HS HR Hne HN HT Hin Hroot.
  unfold NextTextFilter in Hroot. rewrite HS in Hroot. unfold TextInTag in *.
  destruct (TextInTag_loop tagNames [Data tok0] [] t0) as [[l0|e0] t3] eqn:HL;
    [|discriminate].
  injection Hroot as <- _. simpl.
  destruct (html_reaches_inTree _ _ _ HR l0 t3 HL) as [l [t4 [Hs Hsub]]].
  simpl in Hs.
  rewrite TextInTag_loop_eq, (step_StartTagToken _ _ _ _ _ _ HN HT), Hin in Hs.
  unfold TextInTag in Hs. destruct stack as [|x stack]; [congruence|].
  destruct (TextInTag_loop tagNames [Data tok] [] t1) as [[list|e1] t5];
    [|discriminate].
  apply TextInTag_loop_prefix in Hs. destruct Hs as [more ->].
  destruct (Hsub (mkNode tok list)) as [m [Hm Hnm]].
  - apply in_or_app; left. apply in_or_app; right; left; reflexivity.
  - exists list, m. auto.
Qed.

End HtmlSteps.

(** ** xmlfilter: the trips of the loop, token by token *)

Module XmlSteps.
Import xmlfilter XmlFacts.

(** *** The [range] loop over the names *)

Lemma rangeNames_nomatch rec t :
  forall vs found c d,
    hasName vs (ElemName t) = false ->
    rangeNames rec t vs found c d = Some (Ok (found, c), d).
Proof.
  induction vs as [|v vs IH]; intros found c d; simpl; [reflexivity|].
  destruct (Name_eqb v (ElemName t)); simpl; [discriminate | apply IH].
Qed.

Lemma rangeNames_app rec t :
  forall vs1 vs2 found c d,
    rangeNames rec t (vs1 ++ vs2) found c d
    = match rangeNames rec t vs1 found c d with
      | Some (Ok (found', c'), d') => rangeNames rec t vs2 found' c' d'
      | Some (Err e, d') => Some (Err e, d')
      | None => None
      end.
Proof.
  induction vs1 as [|v vs1 IH]; intros vs2 found c d; simpl; [reflexivity|].
  destruct (Name_eqb v (ElemName t)); [|apply IH].
  destruct (rec d) as [[[list|e] d']|]; try reflexivity. apply IH.
Qed.

Lemma hasName_first names name :
  hasName names name = true ->
  exists vs1 v vs2, names = vs1 ++ v :: vs2
                    /\ hasName vs1 name = false /\ v = name.
Proof.
  induction names as [|x names IH]; simpl; [discriminate|].
  destruct (Name_eqb x name) eqn:E; simpl.
  - intros _. exists [], x, names. apply Name_eqb_eq in E; auto.
  - intros H. destruct (IH H) as [vs1 [v [vs2 [-> [H1 ->]]]]].
    exists (x :: vs1), name, vs2; simpl; rewrite E; auto.
Qed.

Lemma hasName_In names name : hasName names name = true <-> In name names.
Proof.
  unfold hasName. rewrite existsb_exists. split.
  - intros [v [Hv E]]. apply Name_eqb_eq in E; subst; exact Hv.
  - intros H; exists name; split; [exact H | apply Name_eqb_refl].
Qed.

Lemma hasName_false_In names name :
  hasName names name = false <-> ~ In name names.
Proof.
  rewrite <- hasName_In. destruct (hasName names name); split; congruence.
Qed.

(** A name that occurs once: the [range] loop makes one recursive call. *)
Lemma rangeNames_once rec t names c d :
  NoDup names ->
  hasName names (ElemName t) = true ->
  rangeNames rec t names false c d
  = match rec d with
    | Some (Ok list, d') =>
        Some (Ok (true, c ++ [mkNode (ValToken (TokStartElement t)) list]), d')
    | Some (Err e, d') => Some (Err e, d')
    | None => None
    end.
Proof.
  intros Hnd Hin.
  destruct (hasName_first _ _ Hin) as [vs1 [v [vs2 [-> [H1 ->]]]]].
  rewrite rangeNames_app, (rangeNames_nomatch rec t vs1 false c d H1). simpl.
  rewrite Name_eqb_refl.
  destruct (rec d) as [[[list|e] d']|]; try reflexivity.
  apply rangeNames_nomatch, hasName_false_In.
  apply NoDup_remove_2 in Hnd. intros K; apply Hnd, in_or_app; auto.
Qed.

Section OneTrip.
Variables (names stack : list Name) (c : list Node).
Variables (d d1 : Decoder).

Lemma step_error e :
  RawToken d = (inr e, d1) ->
  step names stack c d = Return (UnclosedTags stack) d1.
Proof. intros E; unfold step, loopBody; rewrite E; reflexivity. Qed.

Lemma step_StartElement t :
  RawToken d = (inl (TokStartElement t), d1) ->
  step names stack c d
  = match rangeNames (fun d' => Some (parseList d' names [ElemName t]))
                     t names false c d1 with
    | Some (Ok (true, c'), d2) => Continue stack c' d2
    | Some (Ok (false, c'), d2) => Continue (stack ++ [ElemName t]) c' d2
    | Some (Err e, d2) => Return e d2
    | None => Return (UnclosedTags stack) d
    end.
Proof.
  intros E; unfold step, loopBody; rewrite E.
  destruct (rangeNames _ t names false c d1) as [[[[[|] c']|e] d2]|];
    reflexivity.
Qed.

Lemma step_StartElement_other t :
  RawToken d = (inl (TokStartElement t), d1) ->
  hasName names (ElemName t) = false ->
  step names stack c d = Continue (stack ++ [ElemName t]) c d1.
Proof.
  intros E Hin. rewrite (step_StartElement t E), rangeNames_nomatch by exact Hin.
  reflexivity.
Qed.

Lemma step_StartElement_once t :
  RawToken d = (inl (TokStartElement t), d1) ->
  NoDup names ->
  hasName names (ElemName t) = true ->
  step names stack c d
  = match parseList d1 names [ElemName t] with
    | (Ok list, d2) =>
        Continue stack (c ++ [mkNode (ValToken (TokStartElement t)) list]) d2
    | (Err e, d2) => Return e d2
    end.
Proof.
  intros E Hnd Hin.
  rewrite (step_StartElement t E), rangeNames_once by assumption.
  destruct (parseList d1 names [ElemName t]) as [[list|e] d2]; reflexivity.
Qed.

Lemma step_EndElement name :
  RawToken d = (inl (TokEndElement name), d1) ->
  step names stack c d
  = match popName stack name with
    | Ok stack' => Continue stack' c d1
    | Err e => Return e d1
    end.
Proof.
  intros E; unfold step, loopBody; rewrite E.
  destruct (popName stack name); reflexivity.
Qed.

Lemma step_CharData b :
  RawToken d = (inl (TokCharData b), d1) ->
  step names stack c d
  = if forallb IsSpace b
    then Continue stack c d1
    else Continue stack (c ++ [mkNode (ValString (TrimSpace b)) []]) d1.
Proof.
  intros E; unfold step, loopBody; rewrite E.
  destruct (forallb IsSpace b) eqn:B.
  - apply TrimSpace_blank in B; rewrite B; reflexivity.
  - destruct (0 <? length (TrimSpace b)) eqn:L; [reflexivity|].
    assert (TrimSpace b = []) as K
        by (destruct (TrimSpace b); [reflexivity | discriminate]).
    apply TrimSpace_blank in K; congruence.
Qed.

Lemma xml_step_other tok :
  RawToken d = (inl tok, d1) ->
  match tok with
  | TokComment _ | TokProcInst _ _ | TokDirective _ => True
  | _ => False
  end ->
  step names stack c d = Continue stack c d1.
Proof.
  intros E K; unfold step, loopBody; rewrite E.
  destruct tok; try contradiction; reflexivity.
Qed.
End OneTrip.

(** [popName] on a stack whose top is [x]. *)
Lemma popName_top (s : list Name) (x name : Name) :
  popName (s ++ [x]) name
  = if Name_eqb x name then Ok s else Err (MismatchedClosingTag x name).
Proof.
  unfold popName. rewrite length_app, Nat.add_comm; simpl.
  rewrite nth_middle, firstn_app, Nat.sub_diag, firstn_all; simpl.
  rewrite app_nil_r; reflexivity.
Qed.

Lemma xml_stack_top (stack : list Name) :
  stack <> [] -> exists s, stack = s ++ [last stack (mkName [] [])].
Proof.
  intros H. exists (removelast stack). apply app_removelast_last; exact H.
Qed.

Lemma popName_UnexpectedClosingTag (stack : list Name) (name x : Name) :
  popName stack name = Err (UnexpectedClosingTag x) -> stack = [] /\ x = name.
Proof.
  unfold popName. destruct stack as [|y stack]; simpl.
  - intros H; injection H as <-; auto.
  - destruct (Name_eqb _ name); discriminate.
Qed.

(** An error at a state that the loop reaches is the result of the loop. *)
Lemma xml_reaches_error names s s' :
  reaches names s s' ->
  forall e d',
    (let '(stack', c', d0) := s' in parseList_loop names stack' c' d0)
    = (Err e, d') ->
    (let '(stack, c, d) := s in parseList_loop names stack c d)
    = (Err e, d').
Proof.
  induction 1 as [s|stack c d stack' c' d' s Hne Hstep _ IH
                  |stack c d t d1 vs1 v vs2 found c2 d2 s Hne HN Hn Hv Hr _ IH];
    intros e d3 Herr.
  - exact Herr.
  - specialize (IH e d3 Herr). simpl in IH.
    rewrite parseList_loop_eq, Hstep.
    destruct stack; [congruence | exact IH].
  - specialize (IH e d3 Herr). simpl in IH.
    rewrite parseList_loop_eq, (step_StartElement _ _ _ _ _ _ HN).
    set (recurse := fun d' => Some (parseList d' names [ElemName t])) in *.
    replace (rangeNames recurse t names false c d1)
      with (rangeNames recurse t (vs1 ++ v :: vs2) false c d1)
      by (rewrite <- Hn; reflexivity).
    rewrite rangeNames_app, Hr. simpl. rewrite Hv.
    unfold recurse.
    unfold parseList. rewrite IH.
    destruct stack; [congruence | reflexivity].
Qed.

Lemma xml_firstn_scopeStack names stack n :
  scopeStack names stack -> scopeStack names (firstn n stack).
Proof.
  destruct stack as [|x stack]; destruct n; simpl; auto.
  intros [Hx Ho]; split; [exact Hx|].
  rewrite <- (firstn_skipn n stack) in Ho.
  apply Forall_app in Ho; tauto.
Qed.

Lemma popName_scopeStack names stack name stack' :
  scopeStack names stack ->
  popName stack name = Ok stack' -> scopeStack names stack'.
Proof.
  unfold popName. destruct (length stack) as [|n]; [discriminate|].
  destruct (Name_eqb _ name); [|discriminate].
  intros Hs H; injection H as <-. apply xml_firstn_scopeStack; exact Hs.
Qed.

Lemma rangeNames_found recurse t :
  forall vs found c d found' c' d',
    rangeNames recurse t vs found c d = Some (Ok (found', c'), d') ->
    found' = found || hasName vs (ElemName t).
Proof.
  induction vs as [|v vs IH]; intros found c d found' c' d'; simpl.
  - intros H; injection H as <- _ _. rewrite orb_false_r; reflexivity.
  - destruct (Name_eqb v (ElemName t)); simpl.
    + destruct (recurse d) as [[[list|e] d1]|]; try discriminate.
      intros H; apply IH in H. rewrite H, orb_true_r; reflexivity.
    + apply IH.
Qed.

Lemma xml_scopeStack_step names stack c d stack' c' d' :
  stack <> [] ->
  scopeStack names stack ->
  step names stack c d = Continue stack' c' d' ->
  scopeStack names stack'.
Proof.
  intros Hne Hs. destruct (RawToken d) as [[tok|e] d1] eqn:HN.
  - destruct tok as [t|name|b|b|target inst|b].
    + rewrite (step_StartElement _ _ _ _ _ _ HN).
      destruct (rangeNames _ t names false c d1)
        as [[[[found c2]|e] d2]|] eqn:E; try discriminate.
      pose proof E as Hf. apply rangeNames_found in Hf. simpl in Hf.
      destruct found; intros H; injection H as <- _ _; [exact Hs|].
      destruct stack as [|x stack]; [congruence|]. simpl in *.
      destruct Hs as [Hx Ho]; split; [exact Hx|].
      apply Forall_app; split; [exact Ho|].
      constructor; [symmetry; exact Hf | constructor].
    + rewrite (step_EndElement _ _ _ _ _ _ HN).
      destruct (popName stack name) as [s|e] eqn:P; [|discriminate].
      intros H; injection H as <- _ _. exact (popName_scopeStack _ _ _ _ Hs P).
    + rewrite (step_CharData _ _ _ _ _ _ HN).
      destruct (forallb IsSpace b); intros H; injection H as <- _ _; exact Hs.
    + rewrite (xml_step_other _ _ _ _ _ _ HN I).
      intros H; injection H as <- _ _; exact Hs.
    + rewrite (xml_step_other _ _ _ _ _ _ HN I).
      intros H; injection H as <- _ _; exact Hs.
    + rewrite (xml_step_other _ _ _ _ _ _ HN I).
      intros H; injection H as <- _ _; exact Hs.
  - rewrite (step_error _ _ _ _ _ _ HN); discriminate.
Qed.

Lemma xml_scopeStack_reaches names s s' :
  reaches names s s' ->
  scopeStack names (fst (fst s)) -> scopeStack names (fst (fst s')).
Proof.
  induction 1 as [s|stack c d stack' c' d' s Hne Hstep _ IH
                  |stack c d t d1 vs1 v vs2 found c2 d2 s Hne HN Hn Hv Hr _ IH];
    simpl in *.
  - auto.
  - intros Hs; apply IH. exact (xml_scopeStack_step _ _ _ _ _ _ _ Hne Hs Hstep).
  - intros _; apply IH. split; [|constructor].
    apply hasName_In. apply Name_eqb_eq in Hv; subst v names.
    apply in_or_app; right; left; reflexivity.
Qed.

(** The errors that the loop itself makes: no [DecoderError], and no
    [UnexpectedClosingTag], since the loop pops only while its stack is
    not empty. *)
Lemma rangeNames_errors (P : error -> Prop) recurse t :
  (forall d e d', recurse d = Some (Err e, d') -> P e) ->
  forall vs found c d e d',
    rangeNames recurse t vs found c d = Some (Err e, d') -> P e.
Proof.
  intros Hrec. induction vs as [|v vs IH]; intros found c d e d'; simpl;
    [discriminate|].
  destruct (Name_eqb v (ElemName t)); [|apply IH].
  destruct (recurse d) as [[[list|e0] d1]|] eqn:E; try discriminate.
  - apply IH.
  - intros H; injection H as <- _. exact (Hrec _ _ _ E).
Qed.

Lemma parseList_fuel_errors fuel :
  forall names stack c d e d',
    parseList_fuel fuel names stack c d = Some (Err e, d') ->
    (exists s, s <> [] /\ e = UnclosedTags s)
    \/ (exists last name, last <> name /\ e = MismatchedClosingTag last name).
Proof.
  induction fuel as [|f IH]; intros names stack c d e d'; [discriminate|].
  simpl. destruct stack as [|x stack]; [discriminate|].
  unfold loopBody. destruct (RawToken d) as [[tok|e0] d1].
  - destruct tok as [t|name|b|b|target inst|b]; try apply IH.
    + destruct (rangeNames _ t names false c d1)
        as [[[[found c2]|e1] d2]|] eqn:E; try discriminate.
      * destruct found; apply IH.
      * intros H; injection H as <- _.
        apply (rangeNames_errors _ _ _ (fun d0 e0 d3 => IH _ _ _ _ e0 d3)
                                 _ _ _ _ _ _ E).
    + destruct (xml_stack_top (x :: stack) ltac:(discriminate)) as [s Es].
      set (top := last (x :: stack) (mkName [] [])) in *.
      rewrite Es, popName_top.
      destruct (Name_eqb top name) eqn:B; [apply IH|].
      intros H; injection H as <- _. right.
      apply Name_eqb_neq in B. eauto.
    + destruct (0 <? length (TrimSpace b)); apply IH.
  - intros H; injection H as <- _. left; exists (x :: stack); split;
      [discriminate | reflexivity].
Qed.

Lemma parseList_loop_errors names stack c d e d' :
  parseList_loop names stack c d = (Err e, d') ->
  (exists s, s <> [] /\ e = UnclosedTags s)
  \/ (exists last name, last <> name /\ e = MismatchedClosingTag last name).
Proof.
  intros H. apply (parseList_fuel_errors (S (length (pending d)))
                                         names stack c d e d').
  rewrite parseList_fuel_loop by lia. rewrite H; reflexivity.
Qed.

(** ** xmlfilter: what the nodes of a result satisfy *)

Section NodeInvariant.
Variable names : list Name.
Variable Q : Node -> Prop.
Hypothesis Q_start : forall t list,
    hasName names (ElemName t) = true ->
    Forall Q list -> Q (mkNode (ValToken (TokStartElement t)) list).
Hypothesis Q_text : forall b,
    TrimSpace b <> [] -> Q (mkNode (ValString (TrimSpace b)) []).

Lemma rangeNames_Forall recurse t :
  hasName names (ElemName t) = true ->
  (forall d list d', recurse d = Some (Ok list, d') -> Forall Q list) ->
  forall vs found c d found' c' d',
    Forall Q c ->
    rangeNames recurse t vs found c d = Some (Ok (found', c'), d') ->
    Forall Q c'.
Proof.
  intros Hin Hrec.
  induction vs as [|v vs IH]; intros found c d found' c' d' Hc; simpl.
  - intros H; injection H as _ <- _; exact Hc.
  - destruct (Name_eqb v (ElemName t)); [|apply IH; exact Hc].
    destruct (recurse d) as [[[list|e] d1]|] eqn:E; try discriminate.
    apply IH, Forall_app; split; [exact Hc|].
    constructor; [|constructor]. apply Q_start; [exact Hin|].
    exact (Hrec _ _ _ E).
Qed.

Lemma parseList_fuel_Forall fuel :
  forall stack c d list d',
    Forall Q c ->
    parseList_fuel fuel names stack c d = Some (Ok list, d') ->
    Forall Q list.
Proof.
  induction fuel as [|f IH]; intros stack c d list d' Hc; [discriminate|].
  simpl. destruct stack as [|x stack].
  { intros H; injection H as <- _; exact Hc. }
  unfold loopBody. destruct (RawToken d) as [[tok|e0] d1]; [|discriminate].
  destruct tok as [t|name|b|b|target inst|b]; try (apply IH; exact Hc).
  - destruct (hasName names (ElemName t)) eqn:Hin.
    + destruct (rangeNames _ t names false c d1)
        as [[[[found c2]|e1] d2]|] eqn:E; try discriminate.
      assert (Forall Q c2) as Hc2.
      { apply (rangeNames_Forall _ t Hin
                 (fun d0 l d3 => IH [ElemName t] [] d0 l d3 (Forall_nil Q))
                 _ _ _ _ _ _ _ Hc E). }
      destruct found; apply IH; exact Hc2.
    + rewrite rangeNames_nomatch by exact Hin. apply IH; exact Hc.
  - destruct (popName (x :: stack) name); [|discriminate].
    apply IH; exact Hc.
  - destruct (0 <? length (TrimSpace b)) eqn:L; [|apply IH; exact Hc].
    apply IH, Forall_app; split; [exact Hc|].
    constructor; [|constructor]. apply Q_text.
    apply length_pos_nonempty; exact L.
Qed.

Lemma parseList_Forall d stack list d' :
  parseList d names stack = (Ok list, d') -> Forall Q list.
Proof.
  intros H.
  apply (parseList_fuel_Forall (S (length (pending d))) stack [] d
                               list d' (Forall_nil Q)).
  rewrite parseList_fuel_loop by lia. unfold parseList in H.
  rewrite H; reflexivity.
Qed.
End NodeInvariant.

Lemma skipUntilStartElement_scan_found names e ts t d1 :
  skipUntilStartElement_scan names e ts = (Ok t, d1) ->
  hasName names (ElemName t) = true.
Proof.
  induction ts as [|x ts IH]; simpl; [discriminate|].
  destruct x as [s| | | | |]; try exact IH.
  destruct (hasName names (ElemName s)) eqn:Hin; [|exact IH].
  intros H; injection H as <- _; exact Hin.
Qed.

Lemma skipUntilStartElement_scan_error names e ts x d1 :
  skipUntilStartElement_scan names e ts = (Err x, d1) -> x = DecoderError e.
Proof.
  induction ts as [|y ts IH]; simpl.
  - intros H; injection H as <- _; reflexivity.
  - destruct y as [s| | | | |]; try exact IH.
    destruct (hasName names (ElemName s)); [discriminate | exact IH].
Qed.

(** An error at a state that [NextNames] reaches in its builder is the
    result of [NextNames]. *)
Lemma NextNames_error d names t0 d0 stack c d' e d2 :
  skipUntilStartElement d names = (Ok t0, d0) ->
  reaches names ([ElemName t0], [], d0) (stack, c, d') ->
  parseList_loop names stack c d' = (Err e, d2) ->
  NextNames d names = (Err e, d2).
Proof.
  intros HS HR HE. unfold NextNames, parseList. rewrite HS.
  rewrite (xml_reaches_error _ _ _ HR e d2 HE). reflexivity.
Qed.

Lemma parseList_loop_exhausted names stack c d e d1 :
  stack <> [] ->
  RawToken d = (inr e, d1) ->
  parseList_loop names stack c d = (Err (UnclosedTags stack), d1).
Proof.
  intros Hne HN. rewrite parseList_loop_eq.
  rewrite (step_error _ _ _ _ _ _ HN).
  destruct stack; [congruence | reflexivity].
Qed.

Lemma popName_mismatch (stack : list Name) (name : Name) :
  stack <> [] ->
  last stack (mkName [] []) <> name ->
  popName stack name
  = Err (MismatchedClosingTag (last stack (mkName [] [])) name).
Proof.
  intros Hne Hdiff. destruct (xml_stack_top stack Hne) as [s Es].
  remember (last stack (mkName [] [])) as top. rewrite Es, popName_top.
  apply Name_eqb_neq in Hdiff. rewrite Hdiff; reflexivity.
Qed.

Lemma parseList_loop_mismatch names stack c d name d1 :
  stack <> [] ->
  RawToken d = (inl (TokEndElement name), d1) ->
  last stack (mkName [] []) <> name ->
  parseList_loop names stack c d
  = (Err (MismatchedClosingTag (last stack (mkName [] [])) name), d1).
Proof.
  intros Hne HN Hdiff. rewrite parseList_loop_eq.
  rewrite (step_EndElement _ _ _ _ _ _ HN).
  rewrite (popName_mismatch _ _ Hne Hdiff).
  destruct stack; [congruence | reflexivity].
Qed.

(** [NextNames] returns the decoder's error only from
    [skipUntilStartElement]. *)
Lemma NextNames_DecoderError d names e :
  fst (NextNames d names) = Err (DecoderError e) ->
  fst (skipUntilStartElement d names) = Err (DecoderError e) /\ e = err d.
Proof.
  unfold NextNames.
  destruct (skipUntilStartElement d names) as [[t0|e0] d0] eqn:HS.
  - unfold parseList.
    destruct (parseList_loop names [ElemName t0] [] d0)
      as [[list|e1] d2] eqn:HL; simpl; [discriminate|].
    apply parseList_loop_errors in HL.
    destruct HL as [[s [_ ->]]|[a [b [_ ->]]]]; discriminate.
  - unfold skipUntilStartElement in HS.
    apply skipUntilStartElement_scan_error in HS.
    subst e0; simpl. intros H; injection H as <-; auto.
Qed.

(** The trees of [NextNames]. *)
Lemma NextNames_wellTagged d names n d' :
  NextNames d names = (Ok n, d') -> wellTagged names n = true.
Proof.
  unfold NextNames.
  destruct (skipUntilStartElement d names) as [[t0|e0] d0] eqn:HS;
    [|discriminate].
  destruct (parseList d0 names [ElemName t0]) as [[list|e1] d2] eqn:HL;
    [|discriminate].
  intros H; injection H as <- _.
  unfold skipUntilStartElement in HS.
  apply skipUntilStartElement_scan_found in HS.
  apply (parseList_Forall names (fun n => wellTagged names n = true)) in HL.
  - apply Forall_forallb in HL. simpl. rewrite HS, HL; reflexivity.
  - intros t l Hin Hl; simpl; rewrite Hin.
    apply Forall_forallb in Hl; rewrite Hl; reflexivity.
  - intros b _; reflexivity.
Qed.

Lemma NextNames_noBlankText d names n d' :
  NextNames d names = (Ok n, d') -> noBlankText n = true.
Proof.
  unfold NextNames.
  destruct (skipUntilStartElement d names) as [[t0|e0] d0] eqn:HS;
    [|discriminate].
  destruct (parseList d0 names [ElemName t0]) as [[list|e1] d2] eqn:HL;
    [|discriminate].
  intros H; injection H as <- _.
  apply (parseList_Forall names (fun n => noBlankText n = true)) in HL.
  - apply Forall_forallb in HL. simpl. exact HL.
  - intros t l _ Hl; simpl. apply Forall_forallb in Hl; exact Hl.
  - intros b Hne; simpl. rewrite (TrimSpace_not_blank _ Hne); reflexivity.
Qed.

Lemma parseList_loop_not_unexpected names stack c d x :
  fst (parseList_loop names stack c d) <> Err (UnexpectedClosingTag x).
Proof.
  destruct (parseList_loop names stack c d) as [[list|e] d'] eqn:HL; simpl;
    [discriminate|].
  apply parseList_loop_errors in HL.
  destruct HL as [[s [_ ->]]|[a [b [_ ->]]]]; discriminate.
Qed.

Lemma NextNames_not_unexpected d names x :
  fst (NextNames d names) <> Err (UnexpectedClosingTag x).
Proof.
  unfold NextNames.
  destruct (skipUntilStartElement d names) as [[t0|e0] d0] eqn:HS.
  - unfold parseList.
    destruct (parseList_loop names [ElemName t0] [] d0)
      as [[list|e1] d2] eqn:HL; simpl; [discriminate|].
    apply parseList_loop_errors in HL.
    destruct HL as [[s [_ ->]]|[a [b [_ ->]]]]; discriminate.
  - unfold skipUntilStartElement in HS.
    apply skipUntilStartElement_scan_error in HS.
    subst e0; simpl; discriminate.
Qed.

(** The loop on a decoder whose next token is known. *)
Section LoopOnToken.
Variables (names stack : list Name) (c : list Node).
Variables (rest : list Token) (e : StreamError).
Hypothesis open : stack <> [].

Lemma parseList_loop_step d :
  parseList_loop names stack c d
  = match step names stack c d with
    | Continue stack' c' d' => parseList_loop names stack' c' d'
    | Return e' d' => (Err e', d')
    end.
Proof.
  rewrite parseList_loop_eq. destruct stack; [congruence | reflexivity].
Qed.

Lemma parseList_loop_CharData b :
  parseList_loop names stack c (mkDecoder (TokCharData b :: rest) e)
  = parseList_loop
      names stack
      (if forallb IsSpace b then c
       else c ++ [mkNode (ValString (TrimSpace b)) []])
      (mkDecoder rest e).
Proof.
  rewrite parseList_loop_step.
  rewrite (step_CharData names stack c (mkDecoder (TokCharData b :: rest) e)
             (mkDecoder rest e) b eq_refl).
  destruct (forallb IsSpace b); reflexivity.
Qed.

Lemma parseList_loop_StartElement_other t :
  hasName names (ElemName t) = false ->
  parseList_loop names stack c (mkDecoder (TokStartElement t :: rest) e)
  = parseList_loop names (stack ++ [ElemName t]) c (mkDecoder rest e).
Proof.
  intros Hin. rewrite parseList_loop_step.
  rewrite (step_StartElement_other
             names stack c (mkDecoder (TokStartElement t :: rest) e)
             (mkDecoder rest e) t eq_refl Hin).
  reflexivity.
Qed.

Lemma parseList_loop_StartElement_once t :
  NoDup names ->
  hasName names (ElemName t) = true ->
  parseList_loop names stack c (mkDecoder (TokStartElement t :: rest) e)
  = match parseList_loop names [ElemName t] [] (mkDecoder rest e) with
    | (Ok list, d2) =>
        parseList_loop names stack
                       (c ++ [mkNode (ValToken (TokStartElement t)) list]) d2
    | (Err e', d2) => (Err e', d2)
    end.
Proof.
  intros Hnd Hin. rewrite parseList_loop_step.
  rewrite (step_StartElement_once
             names stack c (mkDecoder (TokStartElement t :: rest) e)
             (mkDecoder rest e) t eq_refl Hnd Hin).
  unfold parseList.
  destruct (parseList_loop names [ElemName t] [] (mkDecoder rest e))
    as [[list|e'] d2]; reflexivity.
Qed.

Lemma parseList_loop_EndElement name :
  parseList_loop names stack c (mkDecoder (TokEndElement name :: rest) e)
  = match popName stack name with
    | Ok stack' => parseList_loop names stack' c (mkDecoder rest e)
    | Err e' => (Err e', mkDecoder rest e)
    end.
Proof.
  rewrite parseList_loop_step.
  rewrite (step_EndElement
             names stack c (mkDecoder (TokEndElement name :: rest) e)
             (mkDecoder rest e) name eq_refl).
  destruct (popName stack name); reflexivity.
Qed.

Lemma parseList_loop_other tok :
  match tok with
  | TokComment _ | TokProcInst _ _ | TokDirective _ => True
  | _ => False
  end ->
  parseList_loop names stack c (mkDecoder (tok :: rest) e)
  = parseList_loop names stack c (mkDecoder rest e).
Proof.
  intros K. rewrite parseList_loop_step.
  rewrite (xml_step_other names stack c (mkDecoder (tok :: rest) e)
             (mkDecoder rest e) tok eq_refl K).
  reflexivity.
Qed.
End LoopOnToken.

(** ** xmlfilter: the nodes that the loop appends stay in its result *)

Lemma rangeNames_prefix recurse t :
  forall vs found c d found' c' d',
    rangeNames recurse t vs found c d = Some (Ok (found', c'), d') ->
    exists more, c' = c ++ more.
Proof.
  induction vs as [|v vs IH]; intros found c d found' c' d'; simpl.
  - intros H; injection H as _ <- _. exists []; rewrite app_nil_r; reflexivity.
  - destruct (Name_eqb v (ElemName t)); [|apply IH].
    destruct (recurse d) as [[[list|e] d1]|]; try discriminate.
    intros H. destruct (IH _ _ _ _ _ _ H) as [more ->].
    exists (mkNode (ValToken (TokStartElement t)) list :: more).
    rewrite <- app_assoc; reflexivity.
Qed.

Lemma parseList_fuel_prefix fuel :
  forall names stack c d list d',
    parseList_fuel fuel names stack c d = Some (Ok list, d') ->
    exists more, list = c ++ more.
Proof.
  induction fuel as [|f IH]; intros names stack c d list d'; [discriminate|].
  simpl. destruct stack as [|x stack].
  { intros H; injection H as <- _. exists []; rewrite app_nil_r; reflexivity. }
  unfold loopBody. destruct (RawToken d) as [[tok|e0] d1]; [|discriminate].
  destruct tok as [t|name|b|b|target inst|b]; try apply IH.
  - destruct (rangeNames _ t names false c d1)
      as [[[[found c2]|e1] d2]|] eqn:E; try discriminate.
    apply rangeNames_prefix in E. destruct E as [more1 ->].
    intros H.
    assert (exists more, list = (c ++ more1) ++ more) as [more ->]
        by (destruct found; exact (IH _ _ _ _ _ _ H)).
    exists (more1 ++ more). rewrite app_assoc; reflexivity.
  - destruct (popName (x :: stack) name); [apply IH | discriminate].
  - destruct (0 <? length (TrimSpace b)); [|apply IH].
    intros H. destruct (IH _ _ _ _ _ _ H) as [more ->].
    exists (mkNode (ValString (TrimSpace b)) [] :: more).
    rewrite <- app_assoc; reflexivity.
Qed.

Lemma parseList_loop_prefix names stack c d list d' :
  parseList_loop names stack c d = (Ok list, d') ->
  exists more, list = c ++ more.
Proof.
  intros H.
  apply (parseList_fuel_prefix (S (length (pending d))) names stack c d list d').
  rewrite parseList_fuel_loop by lia. rewrite H; reflexivity.
Qed.

(** The trip of the loop at a start element of [names], when the [range]
    loop has visited [vs1] and meets [v == t.Name]: the trip continues only
    if the recursive call succeeds, and then with the node of that call
    among the nodes. *)
Lemma step_StartElement_call names stack c d t d1 vs1 v vs2 found c2 d2 :
  RawToken d = (inl (TokStartElement t), d1) ->
  names = vs1 ++ v :: vs2 ->
  Name_eqb v (ElemName t) = true ->
  rangeNames (fun d' => Some (parseList d' names [ElemName t]))
             t vs1 false c d1 = Some (Ok (found, c2), d2) ->
  forall stack' c' d',
    step names stack c d = Continue stack' c' d' ->
    exists list d3 more1 more2,
      parseList_loop names [ElemName t] [] d2 = (Ok list, d3)
      /\ c' = c ++ more1 ++ mkNode (ValToken (TokStartElement t)) list :: more2.
Proof.
  intros HN Hn Hv Hr stack' c' d'.
  rewrite (step_StartElement _ _ _ _ _ _ HN).
  replace (rangeNames (fun d' => Some (parseList d' names [ElemName t]))
                      t names false c d1)
    with (rangeNames (fun d' => Some (parseList d' names [ElemName t]))
                     t (vs1 ++ v :: vs2) false c d1)
    by (rewrite <- Hn; reflexivity).
  rewrite rangeNames_app, Hr. cbn [rangeNames]. rewrite Hv.
  change (parseList d2 names [ElemName t])
    with (parseList_loop names [ElemName t] [] d2).
  destruct (parseList_loop names [ElemName t] [] d2) as [[l|e1] d3];
    [|discriminate].
  apply rangeNames_prefix in Hr. destruct Hr as [more1 ->].
  match goal with
  | |- context [rangeNames ?r t vs2 true ?cc d3] =>
      destruct (rangeNames r t vs2 true cc d3)
        as [[[[found' c3]|e2] d4]|] eqn:E; try discriminate
  end.
  apply rangeNames_prefix in E. destruct E as [more2 ->].
  intros H. exists l, d3, more1, more2. split; [reflexivity|].
  destruct found'; injection H as _ <- _;
    rewrite <- !app_assoc; reflexivity.
Qed.

(** When the loop succeeds, so does the loop from every state it reaches,
    and the nodes of that state's result are in the trees of the result. *)
Lemma xml_reaches_inTree names s s' :
  reaches names s s' ->
  forall list0 d0',
    (let '(stack, c, d) := s in parseList_loop names stack c d)
    = (Ok list0, d0') ->
    exists list d',
      (let '(stack', c', d1) := s' in parseList_loop names stack' c' d1)
      = (Ok list, d')
      /\ forall n, In n list -> exists m, In m list0 /\ inTree n m.
Proof.
  induction 1 as [s|stack c d stack' c' d' s Hne Hstep _ IH
                  |stack c d t d1 vs1 v vs2 found c2 d2 s Hne HN Hn Hv Hr _ IH];
    intros list0 d0' H0.
  - exists list0, d0'. split; [exact H0|].
    intros n Hn; exists n; split; [exact Hn | constructor].
  - apply IH with (d0' := d0'). simpl.
    rewrite parseList_loop_eq, Hstep in H0.
    destruct stack; [congruence | exact H0].
  - rewrite parseList_loop_eq in H0. destruct stack as [|x stack]; [congruence|].
    destruct (step names (x :: stack) c d) as [stack' c' d'|e1 d'] eqn:Hstep;
      [|discriminate].
    destruct (step_StartElement_call _ _ _ _ _ _ _ _ _ _ _ _ HN Hn Hv Hr
                                     _ _ _ Hstep)
      as [l [d3 [more1 [more2 [HL ->]]]]].
    destruct (IH l d3 HL) as [list [d4 [Hs Hsub]]].
    exists list, d4. split; [exact Hs|].
    apply parseList_loop_prefix in H0. destruct H0 as [more ->].
    intros n Hn'. destruct (Hsub n Hn') as [m [Hm Hnm]].
    exists (mkNode (ValToken (TokStartElement t)) l). split.
    + apply in_or_app; left. apply in_or_app; right.
      apply in_or_app; right; left; reflexivity.
    + exact (inTree_child n _ l m Hm Hnm).
Qed.

(** A start element of the set that the builder meets, whatever its stack
    holds, is in the tree of a call that succeeds, with the nodes of the
    recursive call below it. *)
Lemma NextNames_keeps_match d names t0 d0 stack c d' t d1 root d2 :
  skipUntilStartElement d names = (Ok t0, d0) ->
  reaches names ([ElemName t0], [], d0) (stack, c, d') ->
  stack <> [] ->
  RawToken d' = (inl (TokStartElement t), d1) ->
  hasName names (ElemName t) = true ->
  NextNames d names = (Ok root, d2) ->
  exists list m,
    fst (parseList d1 names [ElemName t]) = Ok list
    /\ In m (Node_List root)
    /\ inTree (mkNode (ValToken (TokStartElement t)) list) m.
Proof.
  intros HS HR Hne HN Hin Hroot.
  unfold NextNames in Hroot. rewrite HS in Hroot. unfold parseList in *.
  destruct (parseList_loop names [ElemName t0] [] d0) as [[l0|e0] d3] eqn:HL;
    [|discriminate].
  injection Hroot as <- _. simpl.
  destruct (xml_reaches_inTree _ _ _ HR l0 d3 HL) as [l [d4 [Hs Hsub]]].
  simpl in Hs. rewrite parseList_loop_eq in Hs.
  destruct stack as [|x stack]; [congruence|].
  destruct (step names (x :: stack) c d') as [stack' c' d5|e1 d5] eqn:Hstep;
    [|discriminate].
  destruct (hasName_first _ _ Hin) as [vs1 [v [vs2 [Hn [H1 ->]]]]].
  destruct (step_StartElement_call
              names (x :: stack) c d' t d1 vs1 (ElemName t) vs2 false c d1
              HN Hn (Name_eqb_refl _)
              (rangeNames_nomatch _ t vs1 false c d1 H1) _ _ _ Hstep)
    as [list [d6 [more1 [more2 [HL' ->]]]]].
  apply parseList_loop_prefix in Hs. destruct Hs as [more ->].
  destruct (Hsub (mkNode (ValToken (TokStartElement t)) list)) as [m [Hm Hnm]].
  - apply in_or_app; left. apply in_or_app; right.
    apply in_or_app; right; left; reflexivity.
  - exists list, m. rewrite HL'. auto.
Qed.

End XmlSteps.

(** ** The two packages on one document *)

Module Agreement.
Import htmlfilter Correspondence.

Lemma TextInTag_fuel_suffix fuel :
  forall tagNames stack c t r t',
    TextInTag_fuel fuel tagNames stack c t = Some (r, t') ->
    exists consumed, pending t = consumed ++ pending t'.
Proof.
  induction fuel as [|f IH]; intros tagNames stack c t r t'; [discriminate|].
  simpl. destruct stack as [|x stack].
  { intros H; injection H as _ <-. exists []; reflexivity. }
  unfold loopBody, Next.
  destruct (pending t) as [|tok rest] eqn:Hp; simpl.
  { intros H; injection H as _ <-. exists []; rewrite Hp; reflexivity. }
  assert (K : forall stack' c',
             TextInTag_fuel f tagNames stack' c' (mkTokenizer rest (err t))
             = Some (r, t') ->
             exists consumed, tok :: rest = consumed ++ pending t').
  { intros stack' c' H. destruct (IH _ _ _ _ _ _ H) as [pre E].
    exists (tok :: pre); simpl in *; rewrite E; reflexivity. }
  destruct (TType tok); try apply K.
  - intros H; injection H as _ <-. exists [tok]; reflexivity.
  - destruct (0 <? length (TrimSpace (Data tok))); apply K.
  - destruct (hasName tagNames (Data tok)); [|apply K].
    destruct (TextInTag_fuel f tagNames [Data tok] [] (mkTokenizer rest (err t)))
      as [[[l|e0] t2]|] eqn:E; try discriminate.
    + intros H. destruct (IH _ _ _ _ _ _ E) as [pre1 E1].
      destruct (IH _ _ _ _ _ _ H) as [pre2 E2].
      exists (tok :: pre1 ++ pre2). simpl in *.
      rewrite E1, E2, app_assoc; reflexivity.
    + intros H; injection H as _ <-. destruct (IH _ _ _ _ _ _ E) as [pre1 E1].
      exists (tok :: pre1); simpl in *; rewrite E1; reflexivity.
  - destruct (popTag (x :: stack) (Data tok)); [apply K|].
    intros H; injection H as _ <-. exists [tok]; reflexivity.
  - destruct (hasName tagNames (Data tok)); apply K.
Qed.

Lemma TextInTag_loop_Forall_pending (P : Token -> Prop) tagNames stack c t :
  Forall P (pending t) ->
  Forall P (pending (snd (TextInTag_loop tagNames stack c t))).
Proof.
  intros H.
  pose proof (HtmlFacts.TextInTag_fuel_loop (S (length (pending t)))
                                            tagNames stack c t (le_n _)) as E.
  destruct (TextInTag_loop tagNames stack c t) as [r t'].
  apply TextInTag_fuel_suffix in E. destruct E as [pre E].
  rewrite E in H. apply Forall_app in H. exact (proj2 H).
Qed.

Lemma Name_eqb_toName (a b : gostring) :
  xmlfilter.Name_eqb (toName a) (toName b) = gostring_eqb a b.
Proof. reflexivity. Qed.

Lemma hasName_toName (names : list gostring) (tag : gostring) :
  xmlfilter.hasName (map toName names) (toName tag) = hasName names tag.
Proof.
  unfold xmlfilter.hasName, hasName.
  induction names as [|v names IH]; simpl; [reflexivity|].
  rewrite IH, Name_eqb_toName; reflexivity.
Qed.

Lemma NoDup_toName (names : list gostring) :
  NoDup names -> NoDup (map toName names).
Proof.
  induction 1 as [|x l Hx _ IH]; simpl; constructor; [|exact IH].
  rewrite in_map_iff. intros [y [E Hy]]. injection E as ->. contradiction.
Qed.

Lemma popName_toName (stack : list gostring) (tag : gostring) :
  xmlfilter.popName (map toName stack) (toName tag)
  = toResult (map toName) (popTag stack tag).
Proof.
  unfold xmlfilter.popName, popTag. rewrite length_map.
  destruct (length stack) as [|n]; [reflexivity|].
  change (xmlfilter.mkName [] []) with (toName []).
  rewrite map_nth, Name_eqb_toName.
  destruct (gostring_eqb (nth n stack []) tag); simpl; [|reflexivity].
  rewrite firstn_map; reflexivity.
Qed.


Section SameNames.
Variable tagNames : list gostring.
Hypothesis tagNames_NoDup : NoDup tagNames.

(** The loop of [parseList] on the decoder's tokens does what the loop of
    [TextInTag] does on the tokenizer's. *)
Lemma loop_agree (n : nat) :
  forall hs e stack c,
    length hs <= n ->
    Forall (fun tok => TType tok <> ErrorToken) hs ->
    xmlfilter.parseList_loop (map toName tagNames) (map toName stack)
                             (map toNode c) (toDecoder (mkTokenizer hs e))
    = toReturn (map toNode) (TextInTag_loop tagNames stack c (mkTokenizer hs e)).
Proof.
  induction n as [|n IH]; intros hs e stack c Hlen Hne.
  - destruct hs; [|simpl in Hlen; lia].
    rewrite XmlFacts.parseList_loop_eq, HtmlFacts.TextInTag_loop_eq.
    destruct stack; reflexivity.
  - destruct stack as [|x stack].
    { rewrite XmlFacts.parseList_loop_eq, HtmlFacts.TextInTag_loop_eq.
      reflexivity. }
    destruct hs as [|tok rest].
    { rewrite XmlFacts.parseList_loop_eq, HtmlFacts.TextInTag_loop_eq.
      reflexivity. }
    simpl in Hlen. apply Forall_cons_iff in Hne. destruct Hne as [Htok Hrest].
    assert (Hlen1 : length rest <= n) by lia.
    assert (Hopen : x :: stack <> []) by discriminate.
    assert (Hopen' : map toName (x :: stack) <> []) by discriminate.
    remember (x :: stack) as st eqn:Est. clear Est x stack.
    assert (Hin' : xmlfilter.hasName (map toName tagNames)
                                     (xmlfilter.ElemName (toStartElement tok))
                   = hasName tagNames (Data tok))
      by apply hasName_toName.
    assert (Hnd : NoDup (map toName tagNames))
      by (apply NoDup_toName; exact tagNames_NoDup).
    unfold toDecoder. simpl pending. simpl err. simpl flat_map.
    unfold toTokens at 1.
    destruct (TType tok) eqn:HT; simpl app.
    + congruence.
    + (* text *)
      rewrite (XmlSteps.parseList_loop_CharData _ _ _ _ _ Hopen').
      rewrite (HtmlSteps.TextInTag_loop_TextToken _ _ _ _ _ _ Hopen HT).
      destruct (forallb IsSpace (Data tok)).
      * exact (IH rest e st c Hlen1 Hrest).
      * rewrite <- (IH rest e st _ Hlen1 Hrest), map_app. reflexivity.
    + (* start tag *)
      rewrite (HtmlSteps.TextInTag_loop_StartTagToken _ _ _ _ _ _ Hopen HT).
      destruct (hasName tagNames (Data tok)) eqn:Hin.
      * rewrite (XmlSteps.parseList_loop_StartElement_once
                   _ _ _ _ _ Hopen' _ Hnd Hin').
        replace (xmlfilter.parseList_loop
                   (map toName tagNames)
                   [xmlfilter.ElemName (toStartElement tok)] []
                   (xmlfilter.mkDecoder (flat_map toTokens rest) e))
          with (toReturn (map toNode)
                         (TextInTag_loop tagNames [Data tok] []
                                         (mkTokenizer rest e)))
          by (symmetry; exact (IH rest e [Data tok] [] Hlen1 Hrest)).
        pose proof (TextInTag_loop_Forall_pending
                      (fun tok => TType tok <> ErrorToken)
                      tagNames [Data tok] [] (mkTokenizer rest e) Hrest) as Hne2.
        destruct (TextInTag_loop tagNames [Data tok] [] (mkTokenizer rest e))
          as [[l|e1] [hs2 e2]] eqn:HL; unfold toReturn at 1; simpl fst; simpl snd;
          simpl toResult; [|reflexivity].
        apply HtmlFacts.TextInTag_loop_shorter in HL. simpl in HL, Hne2.
        rewrite <- (IH hs2 e2 st _ ltac:(lia) Hne2), map_app. simpl.
        rewrite HT. reflexivity.
      * rewrite (XmlSteps.parseList_loop_StartElement_other
                   _ _ _ _ _ Hopen' _ Hin').
        rewrite <- (IH rest e _ c Hlen1 Hrest), map_app. reflexivity.
    + (* end tag *)
      rewrite (XmlSteps.parseList_loop_EndElement _ _ _ _ _ Hopen').
      rewrite (HtmlSteps.TextInTag_loop_EndTagToken _ _ _ _ _ _ Hopen HT).
      rewrite popName_toName.
      destruct (popTag st (Data tok)) as [st'|e1]; simpl; [|reflexivity].
      exact (IH rest e st' c Hlen1 Hrest).
    + (* self-closing tag: a start element and its end element *)
      rewrite (HtmlSteps.TextInTag_loop_SelfClosingTagToken _ _ _ _ _ _ Hopen HT).
      destruct (hasName tagNames (Data tok)) eqn:Hin.
      * rewrite (XmlSteps.parseList_loop_StartElement_once
                   _ _ _ _ _ Hopen' _ Hnd Hin').
        rewrite (XmlSteps.parseList_loop_EndElement
                   (map toName tagNames)
                   [xmlfilter.ElemName (toStartElement tok)] []
                   (flat_map toTokens rest) e ltac:(discriminate)).
        change [xmlfilter.ElemName (toStartElement tok)]
          with ([] ++ [toName (Data tok)]).
        rewrite XmlSteps.popName_top, Name_eqb_toName, gostring_eqb_refl.
        rewrite (XmlFacts.parseList_loop_eq (map toName tagNames) []).
        rewrite <- (IH rest e st _ Hlen1 Hrest), map_app. simpl.
        rewrite HT. reflexivity.
      * rewrite (XmlSteps.parseList_loop_StartElement_other
                   _ _ _ _ _ Hopen' _ Hin').
        rewrite (XmlSteps.parseList_loop_EndElement
                   (map toName tagNames)
                   (map toName st ++ [xmlfilter.ElemName (toStartElement tok)])
                   (map toNode c) (flat_map toTokens rest) e).
        -- change (xmlfilter.ElemName (toStartElement tok))
             with (toName (Data tok)).
           rewrite XmlSteps.popName_top, Name_eqb_toName, gostring_eqb_refl.
           exact (IH rest e st c Hlen1 Hrest).
        -- intros K; apply app_eq_nil in K; destruct K; discriminate.
    + (* comment *)
      rewrite (XmlSteps.parseList_loop_other
                 _ _ _ _ _ Hopen' (xmlfilter.TokComment (Data tok)) I).
      rewrite (HtmlSteps.TextInTag_loop_other _ _ _ _ _ _ Hopen (or_introl HT)).
      exact (IH rest e st c Hlen1 Hrest).
    + (* doctype *)
      rewrite (XmlSteps.parseList_loop_other
                 _ _ _ _ _ Hopen' (xmlfilter.TokDirective (Data tok)) I).
      rewrite (HtmlSteps.TextInTag_loop_other _ _ _ _ _ _ Hopen (or_intror HT)).
      exact (IH rest e st c Hlen1 Hrest).
Qed.


Lemma NextStartTag_scan_Forall_pending (P : Token -> Prop) e hs :
  Forall P hs ->
  Forall P (pending (snd (NextStartTag_scan tagNames e hs))).
Proof.
  induction 1 as [|tok rest Htok Hrest IH]; simpl; [constructor|].
  destruct (TType tok); try exact IH; try exact Hrest;
    (destruct (hasName tagNames (Data tok)); [exact Hrest | exact IH]).
Qed.

(** The match locators: they find the same start tag; where
    [NextStartTag] finds a self-closing token, [skipUntilStartElement]
    leaves the end element of that token in the input. *)
Lemma locator_agree e hs :
  Forall (fun tok => TType tok <> ErrorToken) hs ->
  xmlfilter.skipUntilStartElement_scan (map toName tagNames) e
                                       (flat_map toTokens hs)
  = match NextStartTag_scan tagNames e hs with
    | (Ok tok, t1) =>
        (xmlfilter.Ok (toStartElement tok),
         match TType tok with
         | SelfClosingTagToken =>
             xmlfilter.mkDecoder
               (xmlfilter.TokEndElement (toName (Data tok))
                                        :: flat_map toTokens (pending t1))
               (err t1)
         | _ => toDecoder t1
         end)
    | (Err e', t1) => (xmlfilter.Err (toError e'), toDecoder t1)
    end.
Proof.
  induction 1 as [|tok rest Htok Hrest IH]; [reflexivity|].
  cbn [flat_map NextStartTag_scan].
  assert (Hin' : xmlfilter.hasName (map toName tagNames)
                                   (xmlfilter.ElemName (toStartElement tok))
                 = hasName tagNames (Data tok))
    by apply hasName_toName.
  unfold toTokens at 1.
  destruct (TType tok) eqn:HT;
    cbn [app xmlfilter.skipUntilStartElement_scan];
    try exact IH; try congruence;
    rewrite Hin'; (destruct (hasName tagNames (Data tok)); [|exact IH]);
    rewrite HT; reflexivity.
Qed.

(** With names without duplicates, [NextNames] on the decoder's tokens
    returns what [NextTextFilter] returns on the tokenizer's: the same tree
    or the same error, and the same input left; provided that the match
    that [NextStartTag] finds is a start tag and not a self-closing one. *)
Lemma packages_agree t :
  Forall (fun tok => TType tok <> ErrorToken) (pending t) ->
  (forall tok t1, NextStartTag t tagNames = (Ok tok, t1) ->
                  TType tok = StartTagToken) ->
  xmlfilter.NextNames (toDecoder t) (map toName tagNames)
  = toReturn toNode (NextTextFilter t tagNames).
Proof.
  intros Hne Hroot.
  unfold xmlfilter.NextNames, xmlfilter.skipUntilStartElement, NextTextFilter.
  unfold NextStartTag in *. simpl.
  rewrite (locator_agree (err t) (pending t) Hne).
  pose proof (NextStartTag_scan_Forall_pending _ (err t) (pending t) Hne) as Hne1.
  destruct (NextStartTag_scan tagNames (err t) (pending t))
    as [[tok|e'] [hs1 e1]] eqn:HS; [|reflexivity].
  rewrite (Hroot tok _ eq_refl). unfold xmlfilter.parseList, TextInTag.
  simpl in Hne1.
  change [xmlfilter.ElemName (toStartElement tok)] with (map toName [Data tok]).
  change (@nil xmlfilter.Node) with (map toNode []).
  rewrite (loop_agree (length hs1) hs1 e1 [Data tok] [] (le_n _) Hne1).
  destruct (TextInTag_loop tagNames [Data tok] [] (mkTokenizer hs1 e1))
    as [[l|e2] t2]; unfold toReturn; simpl; [|reflexivity].
  rewrite (Hroot tok _ eq_refl). reflexivity.
Qed.

End SameNames.
End Agreement.

(** ** The tests of the repository *)

(** [TestNextTextFilter]. *)
Lemma html_TestNextTextFilter :
  Documents.twoCalls_html
    (htmlfilter.mkTokenizer Documents.test_html EOF) Documents.p_a_sup_html
  = [Some (str "<p><a/>Foo<sup>Bar</sup><a>Baz</a></p>");
     Some (str "<p>Ding</p>")].
Proof. vm_compute; reflexivity. Qed.

(** [TestNextNames]. *)
Lemma xml_TestNextNames :
  Documents.twoCalls_xml
    (xmlfilter.mkDecoder Documents.test_xml EOF) Documents.p_a_sup_xml
  = [Some (str "<p><a></a>Foo<sup>Bar</sup><a>Baz</a></p>");
     Some (str "<p>Ding</p>")].
Proof. vm_compute; reflexivity. Qed.

(** A self-closing token that [NextStartTag] itself finds becomes the root,
    and [NextTextFilter] calls [TextInTag] for it as for a start tag: for
    [<a/>] alone and the name [a] the call waits for [</a>] and fails. *)
Lemma html_self_closing_root :
  fst (htmlfilter.NextTextFilter
         (htmlfilter.mkTokenizer [Documents.H.selfClosing "a" []] EOF)
         [str "a"])
  = htmlfilter.Err (htmlfilter.UnclosedTags [str "a"]).
Proof. vm_compute; reflexivity. Qed.

(** A list is split in one way before a given tail. *)
Lemma split_unique {A : Type} (i1 i2 : list A) (c1 c2 : A) (r : list A) :
  i1 ++ c1 :: r = i2 ++ c2 :: r -> i1 = i2 /\ c1 = c2.
Proof.
  intros H.
  assert (H' : (i1 ++ [c1]) ++ r = (i2 ++ [c2]) ++ r)
    by (rewrite <- !app_assoc; exact H).
  apply app_inv_tail in H'. apply app_inj_tail in H'. exact H'.
Qed.

(** [String] on an element with a comment below it: [fmt] recovers the
    panic of the child and writes it in the child's place. *)
Lemma html_String_recovers :
  htmlfilter.String
    (htmlfilter.mkNode
       (Documents.H.startTag "p" [])
       [htmlfilter.mkNode
          (htmlfilter.mkToken htmlfilter.CommentToken (str "c") []) [];
        Documents.H.textNode "x"])
  = Some (str "<p>%!s(PANIC=String method: unexpected html.Token)x</p>").
Proof. vm_compute; reflexivity. Qed.

Lemma xml_String_recovers :
  xmlfilter.String
    (Documents.X.element
       "p" []
       [xmlfilter.mkNode (xmlfilter.ValToken (xmlfilter.TokComment (str "c")))
                         [];
        Documents.X.textNode "x"])
  = Some (str "<p>%!s(PANIC=String method: unexpected xml.Comment)x</p>").
Proof. vm_compute; reflexivity. Qed.

(** ** htmlfilter: the builder and the nesting of all tags *)

Module HtmlScope.
Import htmlfilter HtmlFacts HtmlSteps.

Lemma popTag_error tags tag e :
  tags <> [] ->
  popTag tags tag = Err e -> e = MismatchedClosingTag (last tags []) tag.
Proof.
  intros Hne. destruct (html_stack_top tags Hne) as [s Es].
  remember (last tags []) as top. rewrite Es, popTag_top.
  destruct (gostring_eqb top tag); [discriminate|].
  intros H; injection H as <-; reflexivity.
Qed.

(** [popTag] succeeds exactly on the stack that ends with the tag. *)
Lemma popTag_Ok tags tag s :
  popTag tags tag = Ok s <-> tags = s ++ [tag].
Proof.
  split.
  - destruct tags as [|x tags]; [discriminate|].
    destruct (html_stack_top (x :: tags) ltac:(discriminate)) as [s' Es].
    remember (last (x :: tags) []) as top. rewrite Es, popTag_top.
    destruct (gostring_eqb top tag) eqn:B; [|discriminate].
    apply gostring_eqb_eq in B. intros H; injection H as <-. congruence.
  - intros ->. rewrite popTag_top, gostring_eqb_refl. reflexivity.
Qed.

(** The check below open tags [outer] that it does not look at. *)
Lemma html_balance_frame outer ts :
  forall inner,
    inner <> [] ->
    balance (outer ++ inner) ts
    = match balance inner ts with
      | Closed rest => balance outer rest
      | Mismatched last tag rest => Mismatched last tag rest
      | Unclosed inner' rest => Unclosed (outer ++ inner') rest
      end.
Proof.
  induction ts as [|tok rest IH]; intros inner Hne.
  - destruct inner as [|x inner]; [congruence|].
    simpl. destruct (outer ++ x :: inner) eqn:E; [|reflexivity].
    apply app_eq_nil in E; destruct E; discriminate.
  - destruct (html_stack_top inner Hne) as [s Es].
    assert (Hne' : outer ++ inner <> [])
      by (intros K; apply app_eq_nil in K; tauto).
    destruct inner as [|x inner]; [congruence|].
    destruct (outer ++ x :: inner) as [|y l] eqn:E; [congruence|].
    rewrite <- E. cbn [balance]. rewrite E at 1.
    destruct (TType tok); try (apply IH; discriminate); try reflexivity.
    + rewrite <- app_assoc. apply IH.
      intros K; apply app_eq_nil in K; destruct K; discriminate.
    + remember (last (x :: inner) []) as top.
      assert (Hl : last (outer ++ x :: inner) [] = top).
      { rewrite Es, app_assoc, last_last; reflexivity. }
      rewrite Hl. rewrite Es at 1 2. rewrite app_assoc, !popTag_top.
      destruct (gostring_eqb top (Data tok)); [|reflexivity].
      destruct s as [|z s].
      * rewrite app_nil_r. destruct rest; destruct outer; reflexivity.
      * apply IH; discriminate.
Qed.

(** The first open tag stays open as long as the scope is. *)
Lemma html_balance_head ts :
  forall x s st rest,
    balance (x :: s) ts = Unclosed st rest -> exists s', st = x :: s'.
Proof.
  induction ts as [|tok ts IH]; intros x s st rest; cbn [balance].
  - intros H; injection H as <- _. eauto.
  - destruct (TType tok); try apply IH.
    + intros H; injection H as <- _. eauto.
    + destruct (popTag (x :: s) (Data tok)) as [stack'|e1] eqn:P;
        [|discriminate].
      apply popTag_Ok in P. destruct stack' as [|y stack'].
      * destruct ts; discriminate.
      * injection P as <- _. apply IH.
Qed.

Lemma html_innermost_scope tagNames x opened :
  Forall (fun tag => hasName tagNames tag = false) opened ->
  innermost tagNames (x :: opened) = x :: opened.
Proof.
  intros Ho. cbn [innermost].
  replace (existsb (hasName tagNames) opened) with false; [reflexivity|].
  symmetry. induction Ho as [|y o Hy _ IH]; simpl; [reflexivity|].
  rewrite Hy, IH. reflexivity.
Qed.

Lemma html_innermost_app tagNames outer x s :
  hasName tagNames x = true ->
  innermost tagNames (outer ++ x :: s) = innermost tagNames (x :: s).
Proof.
  intros Hx. induction outer as [|y o IH]; [reflexivity|].
  cbn [app innermost]. rewrite existsb_app. cbn [existsb].
  rewrite Hx, orb_true_r. exact IH.
Qed.

Lemma TextInTag_loop_balance tagNames (n : nat) :
  forall ts e startTag opened c,
    length ts <= n ->
    Forall (fun tag => hasName tagNames tag = false) opened ->
    follows tagNames (balance (startTag :: opened) ts) e
            (TextInTag_loop tagNames (startTag :: opened) c
                            (mkTokenizer ts e)).
Proof.
  induction n as [|n IH]; intros ts e startTag opened c Hlen Ho.
  - destruct ts; [|simpl in Hlen; lia].
    rewrite TextInTag_loop_eq. cbn [balance follows].
    rewrite (html_innermost_scope _ _ _ Ho). reflexivity.
  - destruct ts as [|tok rest].
    { rewrite TextInTag_loop_eq. cbn [balance follows].
      rewrite (html_innermost_scope _ _ _ Ho). reflexivity. }
    simpl in Hlen. assert (Hlen1 : length rest <= n) by lia.
    assert (Hopen : startTag :: opened <> []) by discriminate.
    cbn [balance].
    destruct (TType tok) eqn:HT.
    + rewrite TextInTag_loop_step by exact Hopen.
      rewrite (step_ErrorToken tagNames _ c (mkTokenizer (tok :: rest) e)
                               (mkTokenizer rest e) tok eq_refl HT).
      cbn [follows]. rewrite (html_innermost_scope _ _ _ Ho). reflexivity.
    + rewrite (TextInTag_loop_TextToken _ _ _ _ _ _ Hopen HT).
      exact (IH _ _ _ _ _ Hlen1 Ho).
    + rewrite (TextInTag_loop_StartTagToken _ _ _ _ _ _ Hopen HT).
      destruct (hasName tagNames (Data tok)) eqn:Hin.
      * rewrite html_balance_frame by discriminate.
        pose proof (IH rest e (Data tok) [] [] Hlen1 (Forall_nil _)) as Hrec.
        destruct (balance [Data tok] rest) as [rest2|last tag rest2|inner rest2]
          eqn:HB; cbn [follows] in Hrec.
        -- destruct Hrec as [list Hrec]. rewrite Hrec.
           apply TextInTag_loop_shorter in Hrec. simpl in Hrec.
           assert (Hlen2 : length rest2 <= n) by lia.
           exact (IH _ _ _ _ _ Hlen2 Ho).
        -- rewrite Hrec. reflexivity.
        -- rewrite Hrec. cbn [follows].
           destruct (html_balance_head _ _ _ _ _ HB) as [s' ->].
           rewrite (html_innermost_app _ _ _ _ Hin). reflexivity.
      * change ((startTag :: opened) ++ [Data tok])
          with (startTag :: (opened ++ [Data tok])).
        apply (IH _ _ _ _ _ Hlen1).
        apply Forall_app; split; [exact Ho | constructor; auto].
    + rewrite (TextInTag_loop_EndTagToken _ _ _ _ _ _ Hopen HT).
      destruct (popTag (startTag :: opened) (Data tok)) as [stack'|e1] eqn:P.
      * apply popTag_Ok in P. destruct stack' as [|y stack'].
        -- rewrite TextInTag_loop_eq.
           replace (balance [] rest) with (Closed rest)
             by (destruct rest; reflexivity).
           exists c. reflexivity.
        -- injection P as <- P. apply (IH _ _ _ _ _ Hlen1).
           rewrite P in Ho. apply Forall_app in Ho. exact (proj1 Ho).
      * apply popTag_error in P; [|exact Hopen]. subst e1. reflexivity.
    + rewrite (TextInTag_loop_SelfClosingTagToken _ _ _ _ _ _ Hopen HT).
      exact (IH _ _ _ _ _ Hlen1 Ho).
    + rewrite (TextInTag_loop_other _ _ _ _ _ _ Hopen (or_introl HT)).
      exact (IH _ _ _ _ _ Hlen1 Ho).
    + rewrite (TextInTag_loop_other _ _ _ _ _ _ Hopen (or_intror HT)).
      exact (IH _ _ _ _ _ Hlen1 Ho).
Qed.

Lemma erase_cons tagNames tok rest e :
  erase tagNames (mkTokenizer (tok :: rest) e)
  = mkTokenizer (if kept tagNames tok
                 then tok :: filter (kept tagNames) rest
                 else filter (kept tagNames) rest) e.
Proof. unfold erase; simpl. destruct (kept tagNames tok); reflexivity. Qed.

(** A scope that closes gives the same nodes on the input without the
    tags outside the set, the comments, the doctypes and the blank texts. *)
Lemma TextInTag_loop_erase tagNames (n : nat) :
  forall ts e startTag opened c list t',
    length ts <= n ->
    hasName tagNames startTag = true ->
    Forall (fun tag => hasName tagNames tag = false) opened ->
    TextInTag_loop tagNames (startTag :: opened) c (mkTokenizer ts e)
    = (Ok list, t') ->
    TextInTag_loop tagNames [startTag] c (erase tagNames (mkTokenizer ts e))
    = (Ok list, erase tagNames t').
Proof.
  induction n as [|n IH]; intros ts e startTag opened c list t' Hlen Hs Ho H.
  - destruct ts; [|simpl in Hlen; lia].
    rewrite TextInTag_loop_eq in H. discriminate.
  - destruct ts as [|tok rest].
    { rewrite TextInTag_loop_eq in H. discriminate. }
    simpl in Hlen. assert (Hlen1 : length rest <= n) by lia.
    assert (Hopen : startTag :: opened <> []) by discriminate.
    assert (Hopen1 : [startTag] <> []) by discriminate.
    rewrite erase_cons. unfold kept at 1.
    destruct (TType tok) eqn:HT.
    + rewrite TextInTag_loop_step in H by exact Hopen.
      rewrite (step_ErrorToken tagNames _ c (mkTokenizer (tok :: rest) e)
                               (mkTokenizer rest e) tok eq_refl HT) in H.
      discriminate.
    + rewrite (TextInTag_loop_TextToken _ _ _ _ _ _ Hopen HT) in H.
      destruct (forallb IsSpace (Data tok)) eqn:B; simpl.
      * exact (IH rest e startTag opened c list t' Hlen1 Hs Ho H).
      * rewrite (TextInTag_loop_TextToken _ _ _ _ _ _ Hopen1 HT), B.
        exact (IH rest e startTag opened _ list t' Hlen1 Hs Ho H).
    + rewrite (TextInTag_loop_StartTagToken _ _ _ _ _ _ Hopen HT) in H.
      destruct (hasName tagNames (Data tok)) eqn:Hin.
      * rewrite (TextInTag_loop_StartTagToken _ _ _ _ _ _ Hopen1 HT), Hin.
        destruct (TextInTag_loop tagNames [Data tok] [] (mkTokenizer rest e))
          as [[l|e1] [ts2 e2]] eqn:HL; [|discriminate].
        pose proof (IH rest e (Data tok) [] [] l _ Hlen1 Hin (Forall_nil _) HL)
          as HL'.
        unfold erase at 1 in HL'. simpl in HL'. rewrite HL'.
        apply TextInTag_loop_shorter in HL. simpl in HL.
        exact (IH ts2 e2 startTag opened _ list t' ltac:(lia) Hs Ho H).
      * apply (IH rest e startTag (opened ++ [Data tok]) c list t' Hlen1 Hs).
        -- apply Forall_app; split; [exact Ho | constructor; auto].
        -- exact H.
    + rewrite (TextInTag_loop_EndTagToken _ _ _ _ _ _ Hopen HT) in H.
      destruct (popTag (startTag :: opened) (Data tok)) as [stack'|e1] eqn:P;
        [|discriminate].
      apply popTag_Ok in P.
      destruct (html_stack_top (startTag :: opened) Hopen) as [s' Es].
      destruct opened as [|o opened].
      * destruct stack' as [|y [|z stack']]; try discriminate P.
        injection P as ->. rewrite Hs.
        rewrite (TextInTag_loop_EndTagToken _ _ _ _ _ _ Hopen1 HT).
        rewrite (proj2 (popTag_Ok [Data tok] (Data tok) []) eq_refl).
        rewrite TextInTag_loop_eq in H |- *. injection H as <- <-.
        reflexivity.
      * destruct stack' as [|y stack']; [destruct opened; discriminate P|].
        injection P as <- P.
        assert (Hu : hasName tagNames (Data tok) = false
                     /\ Forall (fun tag => hasName tagNames tag = false) stack').
        { rewrite P in Ho. apply Forall_app in Ho. destruct Ho as [Ho1 Ho2].
          split; [inversion Ho2; assumption | exact Ho1]. }
        destruct Hu as [Hu Ho']. rewrite Hu.
        exact (IH rest e startTag stack' c list t' Hlen1 Hs Ho' H).
    + rewrite (TextInTag_loop_SelfClosingTagToken _ _ _ _ _ _ Hopen HT) in H.
      destruct (hasName tagNames (Data tok)) eqn:Hin.
      * rewrite (TextInTag_loop_SelfClosingTagToken _ _ _ _ _ _ Hopen1 HT), Hin.
        exact (IH rest e startTag opened _ list t' Hlen1 Hs Ho H).
      * exact (IH rest e startTag opened c list t' Hlen1 Hs Ho H).
    + rewrite (TextInTag_loop_other _ _ _ _ _ _ Hopen (or_introl HT)) in H.
      exact (IH rest e startTag opened c list t' Hlen1 Hs Ho H).
    + rewrite (TextInTag_loop_other _ _ _ _ _ _ Hopen (or_intror HT)) in H.
      exact (IH rest e startTag opened c list t' Hlen1 Hs Ho H).
Qed.

(** *** The match locator *)

Lemma NextStartTag_scan_Ok tagNames e ts tok t1 :
  NextStartTag_scan tagNames e ts = (Ok tok, t1)
  <-> exists skipped,
      ts = skipped ++ tok :: pending t1
      /\ err t1 = e
      /\ isMatch tagNames tok = true
      /\ forallb (isSkipped tagNames) skipped = true.
Proof.
  split.
  - revert tok t1. induction ts as [|x ts IH]; intros tok t1; simpl;
      [discriminate|].
    assert (K : isSkipped tagNames x = true ->
                NextStartTag_scan tagNames e ts = (Ok tok, t1) ->
                exists skipped,
                  x :: ts = skipped ++ tok :: pending t1
                  /\ err t1 = e
                  /\ isMatch tagNames tok = true
                  /\ forallb (isSkipped tagNames) skipped = true).
    { intros Hx H. destruct (IH _ _ H) as [sk [-> [He [Hm Hs]]]].
      exists (x :: sk). simpl. rewrite Hx, Hs. auto. }
    unfold isSkipped, isMatch in K.
    destruct (TType x) eqn:HT; try (apply K; reflexivity); try discriminate;
      (destruct (hasName tagNames (Data x)) eqn:Hin; [|apply K; reflexivity]);
      intros H; injection H as <- <-; exists []; simpl; unfold isMatch;
        rewrite HT, Hin; auto.
  - intros [skipped [-> [He [Hm Hs]]]]. destruct t1 as [rest e1]. simpl in *.
    subst e1. induction skipped as [|x sk IH]; simpl in *.
    + unfold isMatch in Hm.
      destruct (TType tok); try discriminate; rewrite Hm; reflexivity.
    + apply andb_true_iff in Hs. destruct Hs as [Hx Hs].
      unfold isSkipped, isMatch in Hx.
      destruct (TType x); try discriminate; try exact (IH Hs);
        (destruct (hasName tagNames (Data x)); [discriminate | exact (IH Hs)]).
Qed.

(** The locator on the input without the tokens that do not matter. *)
Lemma NextStartTag_scan_erase tagNames e ts tok t1 :
  NextStartTag_scan tagNames e ts = (Ok tok, t1) ->
  NextStartTag_scan tagNames e (filter (kept tagNames) ts)
  = (Ok tok, erase tagNames t1).
Proof.
  induction ts as [|x ts IH]; simpl; [discriminate|].
  unfold kept at 1.
  destruct (TType x) eqn:HT; try discriminate.
  - destruct (forallb IsSpace (Data x)); simpl; [|rewrite HT]; exact IH.
  - destruct (hasName tagNames (Data x)) eqn:Hin; simpl.
    + rewrite HT, Hin. intros H; injection H as <- <-. reflexivity.
    + exact IH.
  - destruct (hasName tagNames (Data x)) eqn:Hin; simpl; [rewrite HT|];
      exact IH.
  - destruct (hasName tagNames (Data x)) eqn:Hin; simpl.
    + rewrite HT, Hin. intros H; injection H as <- <-. reflexivity.
    + exact IH.
  - exact IH.
  - exact IH.
Qed.

Lemma NextTextFilter_erase t tagNames n t' :
  NextTextFilter t tagNames = (Ok n, t') ->
  NextTextFilter (erase tagNames t) tagNames = (Ok n, erase tagNames t').
Proof.
  unfold NextTextFilter, NextStartTag.
  destruct (NextStartTag_scan tagNames (err t) (pending t))
    as [[tok|e0] [ts1 e1]] eqn:HS; [|discriminate].
  simpl. rewrite (NextStartTag_scan_erase _ _ _ _ _ HS).
  pose proof (proj1 (NextStartTag_scan_Ok _ _ _ _ _) HS) as [_ [_ [_ [Hm _]]]].
  assert (Hin : hasName tagNames (Data tok) = true).
  { unfold isMatch in Hm. destruct (TType tok); try discriminate; exact Hm. }
  unfold TextInTag.
  destruct (TextInTag_loop tagNames [Data tok] [] (mkTokenizer ts1 e1))
    as [[list|e2] t2] eqn:HL; [|discriminate].
  intros H; injection H as <- <-.
  rewrite (TextInTag_loop_erase tagNames (length ts1) ts1 e1 (Data tok) [] []
                                list t2 (le_n _) Hin (Forall_nil _) HL).
  reflexivity.
Qed.

(** *** What a scope that closes has consumed *)

Lemma tokenTexts_app ts1 ts2 :
  tokenTexts (ts1 ++ ts2) = tokenTexts ts1 ++ tokenTexts ts2.
Proof. unfold tokenTexts. apply flat_map_app. Qed.

Lemma tokenTexts_skip tok ts :
  TType tok <> TextToken -> tokenTexts (tok :: ts) = tokenTexts ts.
Proof.
  intros H. unfold tokenTexts; simpl.
  destruct (TType tok); try reflexivity. congruence.
Qed.

Lemma TextInTag_loop_anatomy tagNames (n : nat) :
  forall ts e startTag opened c list t',
    length ts <= n ->
    TextInTag_loop tagNames (startTag :: opened) c (mkTokenizer ts e)
    = (Ok list, t') ->
    exists inner closing,
      ts = inner ++ closing :: pending t'
      /\ err t' = e
      /\ TType closing = EndTagToken
      /\ Data closing = startTag
      /\ flat_map texts list = flat_map texts c ++ tokenTexts inner.
Proof.
  induction n as [|n IH]; intros ts e startTag opened c list t' Hlen H.
  - destruct ts; [|simpl in Hlen; lia].
    rewrite TextInTag_loop_eq in H. discriminate.
  - destruct ts as [|tok rest].
    { rewrite TextInTag_loop_eq in H. discriminate. }
    simpl in Hlen. assert (Hlen1 : length rest <= n) by lia.
    assert (Hopen : startTag :: opened <> []) by discriminate.
    assert (K : forall opened' c',
               tokenTexts [tok] = [] ->
               TextInTag_loop tagNames (startTag :: opened') c'
                              (mkTokenizer rest e) = (Ok list, t') ->
               flat_map texts c' = flat_map texts c ->
               exists inner closing,
                 tok :: rest = inner ++ closing :: pending t'
                 /\ err t' = e
                 /\ TType closing = EndTagToken
                 /\ Data closing = startTag
                 /\ flat_map texts list = flat_map texts c ++ tokenTexts inner).
    { intros opened' c' Ht H' Hc.
      destruct (IH _ _ _ _ _ _ _ Hlen1 H') as [inner [closing [-> [He [HT [HD Hx]]]]]].
      exists (tok :: inner), closing. repeat split; auto.
      change (tok :: inner) with ([tok] ++ inner).
      rewrite tokenTexts_app, Ht, Hx, Hc. reflexivity. }
    destruct (TType tok) eqn:HT.
    + rewrite TextInTag_loop_step in H by exact Hopen.
      rewrite (step_ErrorToken tagNames _ c (mkTokenizer (tok :: rest) e)
                               (mkTokenizer rest e) tok eq_refl HT) in H.
      discriminate.
    + rewrite (TextInTag_loop_TextToken _ _ _ _ _ _ Hopen HT) in H.
      destruct (forallb IsSpace (Data tok)) eqn:B.
      * apply (K opened c); auto. unfold tokenTexts; simpl. rewrite HT, B.
        reflexivity.
      * destruct (IH _ _ _ _ _ _ _ Hlen1 H)
          as [inner [closing [-> [He [HT' [HD Hx]]]]]].
        exists (tok :: inner), closing. repeat split; auto.
        change (tok :: inner) with ([tok] ++ inner).
        rewrite tokenTexts_app, Hx, flat_map_app, <- app_assoc.
        unfold tokenTexts at 2. simpl. rewrite HT, B. reflexivity.
    + rewrite (TextInTag_loop_StartTagToken _ _ _ _ _ _ Hopen HT) in H.
      destruct (hasName tagNames (Data tok)) eqn:Hin.
      * destruct (TextInTag_loop tagNames [Data tok] [] (mkTokenizer rest e))
          as [[l|e1] [ts2 e2]] eqn:HL; [|discriminate].
        destruct (IH _ _ _ _ _ _ _ Hlen1 HL)
          as [inner1 [closing1 [E1 [He1 [HT1 [HD1 Hx1]]]]]].
        simpl in E1, He1. subst e2.
        assert (Hlen2 : length ts2 <= n).
        { apply TextInTag_loop_shorter in HL; simpl in HL; lia. }
        destruct (IH _ _ _ _ _ _ _ Hlen2 H)
          as [inner2 [closing [E2 [He [HT2 [HD2 Hx2]]]]]].
        exists (tok :: inner1 ++ closing1 :: inner2), closing.
        repeat split; auto.
        -- rewrite E1, E2. simpl. rewrite <- app_assoc. reflexivity.
        -- assert (Hn : flat_map texts [mkNode tok l] = tokenTexts inner1).
           { simpl. rewrite HT, app_nil_r. exact Hx1. }
           rewrite Hx2, flat_map_app, Hn.
           rewrite (tokenTexts_skip tok) by (rewrite HT; discriminate).
           rewrite tokenTexts_app.
           rewrite (tokenTexts_skip closing1) by (rewrite HT1; discriminate).
           rewrite <- app_assoc. reflexivity.
      * apply (K (opened ++ [Data tok]) c); auto.
        unfold tokenTexts; simpl. rewrite HT. reflexivity.
    + rewrite (TextInTag_loop_EndTagToken _ _ _ _ _ _ Hopen HT) in H.
      destruct (popTag (startTag :: opened) (Data tok)) as [stack'|e1] eqn:P;
        [|discriminate].
      apply popTag_Ok in P. destruct stack' as [|y stack'].
      * rewrite TextInTag_loop_eq in H. injection H as <- <-.
        injection P as -> _. exists [], tok. simpl.
        rewrite app_nil_r. auto.
      * injection P as <- P. apply (K stack' c); auto.
        unfold tokenTexts; simpl. rewrite HT. reflexivity.
    + rewrite (TextInTag_loop_SelfClosingTagToken _ _ _ _ _ _ Hopen HT) in H.
      apply (K opened (if hasName tagNames (Data tok)
                       then c ++ [mkNode tok []] else c)); auto.
      * unfold tokenTexts; simpl. rewrite HT. reflexivity.
      * destruct (hasName tagNames (Data tok)); [|reflexivity].
        rewrite flat_map_app. simpl. rewrite HT, app_nil_r. reflexivity.
    + rewrite (TextInTag_loop_other _ _ _ _ _ _ Hopen (or_introl HT)) in H.
      apply (K opened c); auto.
      unfold tokenTexts; simpl. rewrite HT. reflexivity.
    + rewrite (TextInTag_loop_other _ _ _ _ _ _ Hopen (or_intror HT)) in H.
      apply (K opened c); auto.
      unfold tokenTexts; simpl. rewrite HT. reflexivity.
Qed.

(** *** The tree is the parse of the tokens that matter *)

Lemma TextInTag_loop_flatten tagNames (n : nat) :
  forall ts e startTag opened c list t',
    length ts <= n ->
    Forall (fun tag => hasName tagNames tag = false) opened ->
    TextInTag_loop tagNames (startTag :: opened) c (mkTokenizer ts e)
    = (Ok list, t') ->
    exists inner closing,
      ts = inner ++ closing :: pending t'
      /\ TType closing = EndTagToken
      /\ Data closing = startTag
      /\ flat_map flatten list
         = flat_map flatten c ++ map normal (filter (kept tagNames) inner).
Proof.
  induction n as [|n IH]; intros ts e startTag opened c list t' Hlen Ho H.
  - destruct ts; [|simpl in Hlen; lia].
    rewrite TextInTag_loop_eq in H. discriminate.
  - destruct ts as [|tok rest].
    { rewrite TextInTag_loop_eq in H. discriminate. }
    simpl in Hlen. assert (Hlen1 : length rest <= n) by lia.
    assert (Hopen : startTag :: opened <> []) by discriminate.
    assert (K : forall opened',
               kept tagNames tok = false ->
               Forall (fun tag => hasName tagNames tag = false) opened' ->
               TextInTag_loop tagNames (startTag :: opened') c
                              (mkTokenizer rest e) = (Ok list, t') ->
               exists inner closing,
                 tok :: rest = inner ++ closing :: pending t'
                 /\ TType closing = EndTagToken
                 /\ Data closing = startTag
                 /\ flat_map flatten list
                    = flat_map flatten c
                      ++ map normal (filter (kept tagNames) inner)).
    { intros opened' Hk Ho' H'.
      destruct (IH _ _ _ _ _ _ _ Hlen1 Ho' H')
        as [inner [closing [-> [HT [HD Hx]]]]].
      exists (tok :: inner), closing. repeat split; auto.
      cbn [filter]. rewrite Hk. exact Hx. }
    assert (A : forall node,
               kept tagNames tok = true ->
               flatten node = [normal tok] ->
               TextInTag_loop tagNames (startTag :: opened) (c ++ [node])
                              (mkTokenizer rest e) = (Ok list, t') ->
               exists inner closing,
                 tok :: rest = inner ++ closing :: pending t'
                 /\ TType closing = EndTagToken
                 /\ Data closing = startTag
                 /\ flat_map flatten list
                    = flat_map flatten c
                      ++ map normal (filter (kept tagNames) inner)).
    { intros node Hk Hn H'.
      destruct (IH _ _ _ _ _ _ _ Hlen1 Ho H')
        as [inner [closing [-> [HT [HD Hx]]]]].
      exists (tok :: inner), closing. repeat split; auto.
      cbn [filter]. rewrite Hk. cbn [map].
      rewrite Hx, flat_map_app. cbn [flat_map]. rewrite Hn, app_nil_r.
      rewrite <- app_assoc. reflexivity. }
    destruct (TType tok) eqn:HT.
    + rewrite TextInTag_loop_step in H by exact Hopen.
      rewrite (step_ErrorToken tagNames _ c (mkTokenizer (tok :: rest) e)
                               (mkTokenizer rest e) tok eq_refl HT) in H.
      discriminate.
    + rewrite (TextInTag_loop_TextToken _ _ _ _ _ _ Hopen HT) in H.
      destruct (forallb IsSpace (Data tok)) eqn:B.
      * apply (K opened); auto. unfold kept. rewrite HT, B. reflexivity.
      * refine (A _ _ _ H).
        -- unfold kept. rewrite HT, B. reflexivity.
        -- unfold normal. rewrite HT. reflexivity.
    + rewrite (TextInTag_loop_StartTagToken _ _ _ _ _ _ Hopen HT) in H.
      destruct (hasName tagNames (Data tok)) eqn:Hin.
      * destruct (TextInTag_loop tagNames [Data tok] [] (mkTokenizer rest e))
          as [[l|e1] [ts2 e2]] eqn:HL; [|discriminate].
        destruct (IH _ _ _ _ _ _ _ Hlen1 (Forall_nil _) HL)
          as [inner1 [closing1 [E1 [HT1 [HD1 Hx1]]]]].
        simpl in E1.
        assert (Hlen2 : length ts2 <= n).
        { apply TextInTag_loop_shorter in HL; simpl in HL; lia. }
        destruct (IH _ _ _ _ _ _ _ Hlen2 Ho H)
          as [inner2 [closing [E2 [HT2 [HD2 Hx2]]]]].
        exists (tok :: inner1 ++ closing1 :: inner2), closing.
        repeat split; auto.
        -- rewrite E1, E2. simpl. rewrite <- app_assoc. reflexivity.
        -- assert (Hk : kept tagNames tok = true)
             by (unfold kept; rewrite HT; exact Hin).
           assert (Hk1 : kept tagNames closing1 = true)
             by (unfold kept; rewrite HT1, HD1; exact Hin).
           assert (Hn : flatten (mkNode tok l)
                        = normal tok
                          :: map normal (filter (kept tagNames) inner1)
                          ++ [normal closing1]).
           { cbn [flatten]. rewrite HT. unfold normal at 1 3.
             rewrite HT, HT1, HD1. simpl in Hx1. rewrite Hx1. reflexivity. }
           rewrite Hx2, flat_map_app. cbn [flat_map]. rewrite Hn, app_nil_r.
           cbn [filter]. rewrite Hk, filter_app. cbn [filter]. rewrite Hk1.
           cbn [map]. rewrite map_app. cbn [map].
           rewrite <- !app_assoc. f_equal. cbn [app].
           rewrite <- app_assoc. reflexivity.
      * apply (K (opened ++ [Data tok])).
        -- unfold kept. rewrite HT. exact Hin.
        -- apply Forall_app; split; [exact Ho | constructor; auto].
        -- exact H.
    + rewrite (TextInTag_loop_EndTagToken _ _ _ _ _ _ Hopen HT) in H.
      destruct (popTag (startTag :: opened) (Data tok)) as [stack'|e1] eqn:P;
        [|discriminate].
      apply popTag_Ok in P. destruct stack' as [|y stack'].
      * rewrite TextInTag_loop_eq in H. injection H as <- <-.
        injection P as -> _. exists [], tok. simpl.
        rewrite app_nil_r. auto.
      * injection P as <- P.
        assert (Hu : hasName tagNames (Data tok) = false
                     /\ Forall (fun x => hasName tagNames x = false) stack').
        { rewrite P in Ho. apply Forall_app in Ho. destruct Ho as [Ho1 Ho2].
          split; [inversion Ho2; assumption | exact Ho1]. }
        destruct Hu as [Hu Ho'].
        apply (K stack'); auto. unfold kept. rewrite HT. exact Hu.
    + rewrite (TextInTag_loop_SelfClosingTagToken _ _ _ _ _ _ Hopen HT) in H.
      destruct (hasName tagNames (Data tok)) eqn:Hin.
      * refine (A _ _ _ H).
        -- unfold kept. rewrite HT. exact Hin.
        -- unfold normal. cbn [flatten]. rewrite HT. reflexivity.
      * apply (K opened); auto. unfold kept. rewrite HT. exact Hin.
    + rewrite (TextInTag_loop_other _ _ _ _ _ _ Hopen (or_introl HT)) in H.
      apply (K opened); auto. unfold kept. rewrite HT. reflexivity.
    + rewrite (TextInTag_loop_other _ _ _ _ _ _ Hopen (or_intror HT)) in H.
      apply (K opened); auto. unfold kept. rewrite HT. reflexivity.
Qed.

(** *** The nodes of a trip are in the tree, and the texts of a tree *)

(** A node that a trip of the builder leaves among the nodes is in the tree
    of a call that succeeds. *)
Lemma NextTextFilter_keeps_appended
      t tagNames tok0 t0 stack c t' stack' c' t1 node root t2 :
  NextStartTag t tagNames = (Ok tok0, t0) ->
  reaches tagNames ([Data tok0], [], t0) (stack, c, t') ->
  stack <> [] ->
  step tagNames stack c t' = Continue stack' c' t1 ->
  In node c' ->
  NextTextFilter t tagNames = (Ok root, t2) ->
  exists m, In m (Node_List root) /\ inTree node m.
Proof.
  intros HS HR Hne Hstep Hnode Hroot.
  unfold NextTextFilter in Hroot. rewrite HS in Hroot. unfold TextInTag in *.
  destruct (TextInTag_loop tagNames [Data tok0] [] t0) as [[l0|e0] t3] eqn:HL;
    [|discriminate].
  injection Hroot as <- _. simpl.
  destruct (html_reaches_inTree _ _ _ HR l0 t3 HL) as [l [t4 [Hs Hsub]]].
  simpl in Hs. rewrite TextInTag_loop_eq, Hstep in Hs.
  destruct stack as [|x stack]; [congruence|].
  apply TextInTag_loop_prefix in Hs. destruct Hs as [more ->].
  apply Hsub. apply in_or_app; left; exact Hnode.
Qed.

(** The texts of the nodes of a call that succeeds are those of the tokens
    it has consumed. *)
Lemma TextInTag_texts t startTag tagNames list t' :
  TextInTag t startTag tagNames = (Ok list, t') ->
  exists scope,
    pending t = scope ++ pending t'
    /\ flat_map texts list = tokenTexts scope.
Proof.
  destruct t as [ts e]. unfold TextInTag. intros H.
  destruct (TextInTag_loop_anatomy tagNames (length ts) ts e startTag
                                   [] [] list t' (le_n _) H)
    as [inner [closing [E [_ [HT [_ Hx]]]]]].
  exists (inner ++ [closing]). simpl. split.
  - rewrite E, <- app_assoc. reflexivity.
  - rewrite Hx, tokenTexts_app.
    rewrite (tokenTexts_skip closing) by (rewrite HT; discriminate).
    simpl. rewrite app_nil_r. reflexivity.
Qed.

Lemma NextTextFilter_texts t tagNames n t' :
  NextTextFilter t tagNames = (Ok n, t') ->
  exists skipped scope,
    pending t = skipped ++ Node_Token n :: scope ++ pending t'
    /\ forallb (isSkipped tagNames) skipped = true
    /\ isMatch tagNames (Node_Token n) = true
    /\ texts n = tokenTexts scope.
Proof.
  unfold NextTextFilter, NextStartTag.
  destruct (NextStartTag_scan tagNames (err t) (pending t))
    as [[tok0|e0] t0] eqn:HS; [|discriminate].
  apply NextStartTag_scan_Ok in HS.
  destruct HS as [skipped [E [_ [Hm Hs]]]].
  destruct (TextInTag t0 (Data tok0) tagNames) as [[list|e1] t2] eqn:HL;
    [|discriminate].
  intros H; injection H as <- <-.
  destruct (TextInTag_texts _ _ _ _ _ HL) as [scope [E2 Hx]].
  exists skipped, scope. simpl. rewrite E, E2. repeat split; auto.
  unfold isMatch in Hm.
  destruct (TType tok0); try discriminate; exact Hx.
Qed.

(** *** Where a failed call leaves the tokenizer *)

Lemma NextStartTag_scan_failure tagNames e ts x t1 :
  Forall (fun tok => TType tok <> ErrorToken) ts ->
  NextStartTag_scan tagNames e ts = (Err x, t1) -> t1 = mkTokenizer [] e.
Proof.
  induction 1 as [|tok rest Htok _ IH]; simpl.
  - intros H; injection H as _ <-; reflexivity.
  - destruct (TType tok); try exact IH; try congruence;
      (destruct (hasName tagNames (Data tok)); [discriminate | exact IH]).
Qed.

Lemma TextInTag_loop_unclosed tagNames (n : nat) :
  forall ts e stack c s t',
    length ts <= n ->
    Forall (fun tok => TType tok <> ErrorToken) ts ->
    TextInTag_loop tagNames stack c (mkTokenizer ts e)
    = (Err (UnclosedTags s), t') ->
    t' = mkTokenizer [] e.
Proof.
  induction n as [|n IH]; intros ts e stack c s t' Hlen Hts H.
  - destruct ts; [|simpl in Hlen; lia].
    rewrite TextInTag_loop_eq in H. destruct stack; simpl in H;
      [discriminate | injection H as _ <-; reflexivity].
  - destruct stack as [|x stack].
    { rewrite TextInTag_loop_eq in H. discriminate. }
    destruct ts as [|tok rest].
    { rewrite TextInTag_loop_eq in H. simpl in H.
      injection H as _ <-; reflexivity. }
    simpl in Hlen. assert (Hlen1 : length rest <= n) by lia.
    assert (Hopen : x :: stack <> []) by discriminate.
    inversion Hts as [|? ? Htok Hrest]; subst.
    destruct (TType tok) eqn:HT.
    + congruence.
    + rewrite (TextInTag_loop_TextToken _ _ _ _ _ _ Hopen HT) in H.
      exact (IH _ _ _ _ _ _ Hlen1 Hrest H).
    + rewrite (TextInTag_loop_StartTagToken _ _ _ _ _ _ Hopen HT) in H.
      destruct (hasName tagNames (Data tok));
        [|exact (IH _ _ _ _ _ _ Hlen1 Hrest H)].
      destruct (TextInTag_loop tagNames [Data tok] [] (mkTokenizer rest e))
        as [[l|e1] [ts2 e2]] eqn:HL.
      * pose proof (Agreement.TextInTag_loop_Forall_pending
                      _ tagNames [Data tok] [] (mkTokenizer rest e) Hrest)
          as Hts2.
        pose proof (TextInTag_loop_shorter _ _ _ _ _ _ HL) as Hlen2.
        destruct (TextInTag_loop_anatomy tagNames _ _ _ _ _ _ _ _ Hlen1 HL)
          as [_ [_ [_ [He2 _]]]].
        rewrite HL in Hts2. simpl in Hts2, Hlen2, He2. subst e2.
        assert (Hlen3 : length ts2 <= n) by lia.
        exact (IH _ _ _ _ _ _ Hlen3 Hts2 H).
      * injection H as -> <-.
        exact (IH _ _ _ _ _ _ Hlen1 Hrest HL).
    + rewrite (TextInTag_loop_EndTagToken _ _ _ _ _ _ Hopen HT) in H.
      destruct (popTag (x :: stack) (Data tok)) as [stack'|e1] eqn:P.
      * exact (IH _ _ _ _ _ _ Hlen1 Hrest H).
      * apply popTag_error in P; [|exact Hopen]. subst e1. discriminate.
    + rewrite (TextInTag_loop_SelfClosingTagToken _ _ _ _ _ _ Hopen HT) in H.
      exact (IH _ _ _ _ _ _ Hlen1 Hrest H).
    + rewrite (TextInTag_loop_other _ _ _ _ _ _ Hopen (or_introl HT)) in H.
      exact (IH _ _ _ _ _ _ Hlen1 Hrest H).
    + rewrite (TextInTag_loop_other _ _ _ _ _ _ Hopen (or_intror HT)) in H.
      exact (IH _ _ _ _ _ _ Hlen1 Hrest H).
Qed.

Lemma NextTextFilter_failure t tagNames e t' :
  Forall (fun tok => TType tok <> ErrorToken) (pending t) ->
  NextTextFilter t tagNames = (Err e, t') ->
  (forall last tag, e <> MismatchedClosingTag last tag) ->
  t' = mkTokenizer [] (err t).
Proof.
  intros Hts. unfold NextTextFilter, NextStartTag.
  pose proof (Agreement.NextStartTag_scan_Forall_pending
                tagNames _ (err t) (pending t) Hts) as Hts1.
  destruct (NextStartTag_scan tagNames (err t) (pending t))
    as [[tok0|e0] [ts1 e1]] eqn:HS.
  - apply NextStartTag_scan_Ok in HS. destruct HS as [_ [_ [He1 _]]].
    simpl in He1, Hts1. subst e1. unfold TextInTag.
    destruct (TextInTag_loop tagNames [Data tok0] [] (mkTokenizer ts1 (err t)))
      as [[list|e2] t2] eqn:HL; [discriminate|].
    intros H Hm; injection H as -> ->.
    destruct (TextInTag_loop_errors _ _ _ _ _ _ HL)
      as [[s [_ ->]]|[a [b [_ ->]]]].
    + exact (TextInTag_loop_unclosed tagNames _ _ _ _ _ _ _ (le_n _) Hts1 HL).
    + exfalso; exact (Hm a b eq_refl).
  - intros H _; injection H as _ <-.
    exact (NextStartTag_scan_failure _ _ _ _ _ Hts HS).
Qed.

End HtmlScope.

(** ** xmlfilter: the builder and the nesting of all elements *)

Module XmlScope.
Import xmlfilter XmlFacts XmlSteps.

Lemma popName_error stack name e :
  stack <> [] ->
  popName stack name = Err e
  -> e = MismatchedClosingTag (last stack (mkName [] [])) name.
Proof.
  intros Hne. destruct (xml_stack_top stack Hne) as [s Es].
  remember (last stack (mkName [] [])) as top. rewrite Es, popName_top.
  destruct (Name_eqb top name); [discriminate|].
  intros H; injection H as <-; reflexivity.
Qed.

(** [popName] succeeds exactly on the stack that ends with the name. *)
Lemma popName_Ok stack name s :
  popName stack name = Ok s <-> stack = s ++ [name].
Proof.
  split.
  - destruct stack as [|x stack]; [discriminate|].
    destruct (xml_stack_top (x :: stack) ltac:(discriminate)) as [s' Es].
    remember (last (x :: stack) (mkName [] [])) as top.
    rewrite Es, popName_top.
    destruct (Name_eqb top name) eqn:B; [|discriminate].
    apply Name_eqb_eq in B. intros H; injection H as <-. congruence.
  - intros ->. rewrite popName_top, Name_eqb_refl. reflexivity.
Qed.

(** The check below open names [outer] that it does not look at. *)
Lemma xml_balance_frame outer ts :
  forall inner,
    inner <> [] ->
    balance (outer ++ inner) ts
    = match balance inner ts with
      | Closed rest => balance outer rest
      | Mismatched last name rest => Mismatched last name rest
      | Unclosed inner' => Unclosed (outer ++ inner')
      end.
Proof.
  induction ts as [|tok rest IH]; intros inner Hne.
  - destruct inner as [|x inner]; [congruence|].
    simpl. destruct (outer ++ x :: inner) eqn:E; [|reflexivity].
    apply app_eq_nil in E; destruct E; discriminate.
  - destruct (xml_stack_top inner Hne) as [s Es].
    assert (Hne' : outer ++ inner <> [])
      by (intros K; apply app_eq_nil in K; tauto).
    destruct inner as [|x inner]; [congruence|].
    destruct (outer ++ x :: inner) as [|y l] eqn:E; [congruence|].
    rewrite <- E. cbn [balance]. rewrite E at 1.
    destruct tok as [t|name|b|b|target inst|b];
      try (apply IH; discriminate).
    + rewrite <- app_assoc. apply IH.
      intros K; apply app_eq_nil in K; destruct K; discriminate.
    + remember (last (x :: inner) (mkName [] [])) as top.
      assert (Hl : last (outer ++ x :: inner) (mkName [] []) = top).
      { rewrite Es, app_assoc, last_last; reflexivity. }
      rewrite Hl. rewrite Es at 1 2. rewrite app_assoc, !popName_top.
      destruct (Name_eqb top name); [|reflexivity].
      destruct s as [|z s].
      * rewrite app_nil_r. destruct rest; destruct outer; reflexivity.
      * apply IH; discriminate.
Qed.

(** The first open name stays open as long as the scope is. *)
Lemma xml_balance_head ts :
  forall x s st,
    balance (x :: s) ts = Unclosed st -> exists s', st = x :: s'.
Proof.
  induction ts as [|tok ts IH]; intros x s st; cbn [balance].
  - intros H; injection H as <-. eauto.
  - destruct tok as [t|name|b|b|target inst|b]; try apply IH.
    + destruct (popName (x :: s) name) as [stack'|e1] eqn:P; [|discriminate].
      apply popName_Ok in P. destruct stack' as [|y stack'].
      * destruct ts; discriminate.
      * injection P as <- _. apply IH.
Qed.

Lemma xml_innermost_scope names x opened :
  Forall (fun name => hasName names name = false) opened ->
  innermost names (x :: opened) = x :: opened.
Proof.
  intros Ho. cbn [innermost].
  replace (existsb (hasName names) opened) with false; [reflexivity|].
  symmetry. induction Ho as [|y o Hy _ IH]; simpl; [reflexivity|].
  rewrite Hy, IH. reflexivity.
Qed.

Lemma xml_innermost_app names outer x s :
  hasName names x = true ->
  innermost names (outer ++ x :: s) = innermost names (x :: s).
Proof.
  intros Hx. induction outer as [|y o IH]; [reflexivity|].
  cbn [app innermost]. rewrite existsb_app. cbn [existsb].
  rewrite Hx, orb_true_r. exact IH.
Qed.

Lemma parseList_loop_balance names (n : nat) :
  NoDup names ->
  forall ts e start opened c,
    length ts <= n ->
    Forall (fun name => hasName names name = false) opened ->
    follows names (balance (start :: opened) ts) e
            (parseList_loop names (start :: opened) c (mkDecoder ts e)).
Proof.
  intros Hnd. induction n as [|n IH]; intros ts e start opened c Hlen Ho.
  - destruct ts; [|simpl in Hlen; lia].
    rewrite parseList_loop_eq. cbn [balance follows].
    rewrite (xml_innermost_scope _ _ _ Ho). reflexivity.
  - destruct ts as [|tok rest].
    { rewrite parseList_loop_eq. cbn [balance follows].
      rewrite (xml_innermost_scope _ _ _ Ho). reflexivity. }
    simpl in Hlen. assert (Hlen1 : length rest <= n) by lia.
    assert (Hopen : start :: opened <> []) by discriminate.
    cbn [balance].
    destruct tok as [t|name|b|b|target inst|b].
    + destruct (hasName names (ElemName t)) eqn:Hin.
      * rewrite (parseList_loop_StartElement_once _ _ _ _ _ Hopen _ Hnd Hin).
        rewrite xml_balance_frame by discriminate.
        pose proof (IH rest e (ElemName t) [] [] Hlen1 (Forall_nil _)) as Hrec.
        destruct (balance [ElemName t] rest) as [rest2|last name rest2|inner]
          eqn:HB; cbn [follows] in Hrec.
        -- destruct Hrec as [list Hrec]. rewrite Hrec.
           apply parseList_loop_shorter in Hrec. simpl in Hrec.
           assert (Hlen2 : length rest2 <= n) by lia.
           exact (IH _ _ _ _ _ Hlen2 Ho).
        -- rewrite Hrec. reflexivity.
        -- rewrite Hrec. cbn [follows].
           destruct (xml_balance_head _ _ _ _ HB) as [s' ->].
           rewrite (xml_innermost_app _ _ _ _ Hin). reflexivity.
      * rewrite (parseList_loop_StartElement_other _ _ _ _ _ Hopen _ Hin).
        change ((start :: opened) ++ [ElemName t])
          with (start :: (opened ++ [ElemName t])).
        apply (IH _ _ _ _ _ Hlen1).
        apply Forall_app; split; [exact Ho | constructor; auto].
    + rewrite (parseList_loop_EndElement _ _ _ _ _ Hopen).
      destruct (popName (start :: opened) name) as [stack'|e1] eqn:P.
      * apply popName_Ok in P. destruct stack' as [|y stack'].
        -- rewrite parseList_loop_eq.
           replace (balance [] rest) with (Closed rest)
             by (destruct rest; reflexivity).
           exists c. reflexivity.
        -- injection P as <- P. apply (IH _ _ _ _ _ Hlen1).
           rewrite P in Ho. apply Forall_app in Ho. exact (proj1 Ho).
      * apply popName_error in P; [|exact Hopen]. subst e1. reflexivity.
    + rewrite (parseList_loop_CharData _ _ _ _ _ Hopen).
      exact (IH _ _ _ _ _ Hlen1 Ho).
    + rewrite (parseList_loop_other _ _ _ _ _ Hopen (TokComment b) I).
      exact (IH _ _ _ _ _ Hlen1 Ho).
    + rewrite (parseList_loop_other _ _ _ _ _ Hopen (TokProcInst target inst) I).
      exact (IH _ _ _ _ _ Hlen1 Ho).
    + rewrite (parseList_loop_other _ _ _ _ _ Hopen (TokDirective b) I).
      exact (IH _ _ _ _ _ Hlen1 Ho).
Qed.

Lemma xml_erase_cons names tok rest e :
  erase names (mkDecoder (tok :: rest) e)
  = mkDecoder (if kept names tok
               then tok :: filter (kept names) rest
               else filter (kept names) rest) e.
Proof. unfold erase; simpl. destruct (kept names tok); reflexivity. Qed.

(** A scope that closes gives the same nodes on the input without the
    elements outside the set, the comments, the processing instructions,
    the directives and the blank character data. *)
Lemma parseList_loop_erase names (n : nat) :
  NoDup names ->
  forall ts e start opened c list d',
    length ts <= n ->
    hasName names start = true ->
    Forall (fun name => hasName names name = false) opened ->
    parseList_loop names (start :: opened) c (mkDecoder ts e) = (Ok list, d') ->
    parseList_loop names [start] c (erase names (mkDecoder ts e))
    = (Ok list, erase names d').
Proof.
  intros Hnd.
  induction n as [|n IH]; intros ts e start opened c list d' Hlen Hs Ho H.
  - destruct ts; [|simpl in Hlen; lia].
    rewrite parseList_loop_eq in H. discriminate.
  - destruct ts as [|tok rest].
    { rewrite parseList_loop_eq in H. discriminate. }
    simpl in Hlen. assert (Hlen1 : length rest <= n) by lia.
    assert (Hopen : start :: opened <> []) by discriminate.
    assert (Hopen1 : [start] <> []) by discriminate.
    rewrite xml_erase_cons. unfold kept at 1.
    destruct tok as [t|name|b|b|target inst|b].
    + destruct (hasName names (ElemName t)) eqn:Hin.
      * rewrite (parseList_loop_StartElement_once _ _ _ _ _ Hopen _ Hnd Hin) in H.
        rewrite (parseList_loop_StartElement_once _ _ _ _ _ Hopen1 _ Hnd Hin).
        destruct (parseList_loop names [ElemName t] [] (mkDecoder rest e))
          as [[l|e1] [ts2 e2]] eqn:HL; [|discriminate].
        pose proof (IH rest e (ElemName t) [] [] l _ Hlen1 Hin (Forall_nil _) HL)
          as HL'.
        unfold erase at 1 in HL'. simpl in HL'. rewrite HL'.
        apply parseList_loop_shorter in HL. simpl in HL.
        exact (IH ts2 e2 start opened _ list d' ltac:(lia) Hs Ho H).
      * rewrite (parseList_loop_StartElement_other _ _ _ _ _ Hopen _ Hin) in H.
        apply (IH rest e start (opened ++ [ElemName t]) c list d' Hlen1 Hs).
        -- apply Forall_app; split; [exact Ho | constructor; auto].
        -- exact H.
    + rewrite (parseList_loop_EndElement _ _ _ _ _ Hopen) in H.
      destruct (popName (start :: opened) name) as [stack'|e1] eqn:P;
        [|discriminate].
      apply popName_Ok in P.
      destruct opened as [|o opened].
      * destruct stack' as [|y [|z stack']]; try discriminate P.
        injection P as ->. rewrite Hs.
        rewrite (parseList_loop_EndElement _ _ _ _ _ Hopen1).
        rewrite (proj2 (popName_Ok [name] name []) eq_refl).
        rewrite parseList_loop_eq in H |- *. injection H as <- <-.
        reflexivity.
      * destruct stack' as [|y stack']; [destruct opened; discriminate P|].
        injection P as <- P.
        assert (Hu : hasName names name = false
                     /\ Forall (fun x => hasName names x = false) stack').
        { rewrite P in Ho. apply Forall_app in Ho. destruct Ho as [Ho1 Ho2].
          split; [inversion Ho2; assumption | exact Ho1]. }
        destruct Hu as [Hu Ho']. rewrite Hu.
        exact (IH rest e start stack' c list d' Hlen1 Hs Ho' H).
    + rewrite (parseList_loop_CharData _ _ _ _ _ Hopen) in H.
      destruct (forallb IsSpace b) eqn:B; simpl.
      * exact (IH rest e start opened c list d' Hlen1 Hs Ho H).
      * rewrite (parseList_loop_CharData _ _ _ _ _ Hopen1), B.
        exact (IH rest e start opened _ list d' Hlen1 Hs Ho H).
    + rewrite (parseList_loop_other _ _ _ _ _ Hopen (TokComment b) I) in H.
      exact (IH rest e start opened c list d' Hlen1 Hs Ho H).
    + rewrite (parseList_loop_other _ _ _ _ _ Hopen (TokProcInst target inst) I)
        in H.
      exact (IH rest e start opened c list d' Hlen1 Hs Ho H).
    + rewrite (parseList_loop_other _ _ _ _ _ Hopen (TokDirective b) I) in H.
      exact (IH rest e start opened c list d' Hlen1 Hs Ho H).
Qed.

(** *** The match locator *)

Lemma skipUntilStartElement_scan_Ok names e ts t d1 :
  skipUntilStartElement_scan names e ts = (Ok t, d1)
  <-> exists skipped,
      ts = skipped ++ TokStartElement t :: pending d1
      /\ err d1 = e
      /\ hasName names (ElemName t) = true
      /\ forallb (fun tok => negb (isMatch names tok)) skipped = true.
Proof.
  split.
  - revert t d1. induction ts as [|x ts IH]; intros t d1; simpl;
      [discriminate|].
    assert (K : isMatch names x = false ->
                skipUntilStartElement_scan names e ts = (Ok t, d1) ->
                exists skipped,
                  x :: ts = skipped ++ TokStartElement t :: pending d1
                  /\ err d1 = e
                  /\ hasName names (ElemName t) = true
                  /\ forallb (fun tok => negb (isMatch names tok)) skipped
                     = true).
    { intros Hx H. destruct (IH _ _ H) as [sk [-> [He [Hm Hs]]]].
      exists (x :: sk). simpl. rewrite Hx, Hs. auto. }
    destruct x as [s| | | | |]; try (apply K; reflexivity).
    simpl in K. destruct (hasName names (ElemName s)) eqn:Hin;
      [|apply K; reflexivity].
    intros H; injection H as <- <-. exists []; simpl. auto.
  - intros [skipped [-> [He [Hm Hs]]]]. destruct d1 as [rest e1]. simpl in *.
    subst e1. induction skipped as [|x sk IH]; simpl in *.
    + rewrite Hm; reflexivity.
    + apply andb_true_iff in Hs. destruct Hs as [Hx Hs].
      destruct x as [s| | | | |]; try exact (IH Hs).
      simpl in Hx. destruct (hasName names (ElemName s));
        [discriminate | exact (IH Hs)].
Qed.

Lemma skipUntilStartElement_scan_erase names e ts t d1 :
  skipUntilStartElement_scan names e ts = (Ok t, d1) ->
  skipUntilStartElement_scan names e (filter (kept names) ts)
  = (Ok t, erase names d1).
Proof.
  induction ts as [|x ts IH]; simpl; [discriminate|].
  destruct x as [s|name|b|b|target inst|b]; simpl; try exact IH.
  - destruct (hasName names (ElemName s)) eqn:Hin; simpl.
    + rewrite Hin. intros H; injection H as <- <-. reflexivity.
    + exact IH.
  - destruct (hasName names name); simpl; exact IH.
  - destruct (forallb IsSpace b); simpl; exact IH.
Qed.

Lemma NextNames_erase d names n d' :
  NoDup names ->
  NextNames d names = (Ok n, d') ->
  NextNames (erase names d) names = (Ok n, erase names d').
Proof.
  intros Hnd. unfold NextNames, skipUntilStartElement.
  destruct (skipUntilStartElement_scan names (err d) (pending d))
    as [[t|e0] [ts1 e1]] eqn:HS; [|discriminate].
  simpl. rewrite (skipUntilStartElement_scan_erase _ _ _ _ _ HS).
  pose proof (proj1 (skipUntilStartElement_scan_Ok _ _ _ _ _) HS)
    as [_ [_ [_ [Hin _]]]].
  unfold parseList.
  destruct (parseList_loop names [ElemName t] [] (mkDecoder ts1 e1))
    as [[list|e2] d2] eqn:HL; [|discriminate].
  intros H; injection H as <- <-.
  rewrite (parseList_loop_erase names (length ts1) Hnd ts1 e1 (ElemName t) [] []
                                list d2 (le_n _) Hin (Forall_nil _) HL).
  reflexivity.
Qed.

(** *** What a scope that closes has consumed *)

Lemma xml_tokenTexts_app ts1 ts2 :
  tokenTexts (ts1 ++ ts2) = tokenTexts ts1 ++ tokenTexts ts2.
Proof. unfold tokenTexts. apply flat_map_app. Qed.

Lemma xml_tokenTexts_skip tok ts :
  (forall b, tok <> TokCharData b) -> tokenTexts (tok :: ts) = tokenTexts ts.
Proof.
  intros H. unfold tokenTexts; simpl.
  destruct tok; try reflexivity. exfalso; exact (H b eq_refl).
Qed.

Lemma parseList_loop_anatomy names (n : nat) :
  NoDup names ->
  forall ts e start opened c list d',
    length ts <= n ->
    parseList_loop names (start :: opened) c (mkDecoder ts e) = (Ok list, d') ->
    exists inner,
      ts = inner ++ TokEndElement start :: pending d'
      /\ err d' = e
      /\ flat_map texts list = flat_map texts c ++ tokenTexts inner.
Proof.
  intros Hnd.
  induction n as [|n IH]; intros ts e start opened c list d' Hlen H.
  - destruct ts; [|simpl in Hlen; lia].
    rewrite parseList_loop_eq in H. discriminate.
  - destruct ts as [|tok rest].
    { rewrite parseList_loop_eq in H. discriminate. }
    simpl in Hlen. assert (Hlen1 : length rest <= n) by lia.
    assert (Hopen : start :: opened <> []) by discriminate.
    assert (K : forall opened',
               (forall b, tok <> TokCharData b) ->
               parseList_loop names (start :: opened') c (mkDecoder rest e)
               = (Ok list, d') ->
               exists inner,
                 tok :: rest = inner ++ TokEndElement start :: pending d'
                 /\ err d' = e
                 /\ flat_map texts list = flat_map texts c ++ tokenTexts inner).
    { intros opened' Ht H'.
      destruct (IH _ _ _ _ _ _ _ Hlen1 H') as [inner [-> [He Hx]]].
      exists (tok :: inner). repeat split; auto.
      rewrite (xml_tokenTexts_skip tok) by exact Ht. exact Hx. }
    destruct tok as [t|name|b|b|target inst|b].
    + destruct (hasName names (ElemName t)) eqn:Hin.
      * rewrite (parseList_loop_StartElement_once _ _ _ _ _ Hopen _ Hnd Hin) in H.
        destruct (parseList_loop names [ElemName t] [] (mkDecoder rest e))
          as [[l|e1] [ts2 e2]] eqn:HL; [|discriminate].
        destruct (IH _ _ _ _ _ _ _ Hlen1 HL) as [inner1 [E1 [He1 Hx1]]].
        simpl in E1, He1. subst e2.
        assert (Hlen2 : length ts2 <= n).
        { apply parseList_loop_shorter in HL; simpl in HL; lia. }
        destruct (IH _ _ _ _ _ _ _ Hlen2 H) as [inner2 [E2 [He Hx2]]].
        exists (TokStartElement t :: inner1 ++ TokEndElement (ElemName t) :: inner2).
        repeat split; auto.
        -- rewrite E1, E2. simpl. rewrite <- app_assoc. reflexivity.
        -- assert (Hn : flat_map texts [mkNode (ValToken (TokStartElement t)) l]
                        = tokenTexts inner1).
           { simpl. rewrite app_nil_r. exact Hx1. }
           rewrite Hx2, flat_map_app, Hn.
           rewrite (xml_tokenTexts_skip (TokStartElement t)) by discriminate.
           rewrite xml_tokenTexts_app.
           rewrite (xml_tokenTexts_skip (TokEndElement (ElemName t))) by discriminate.
           rewrite <- app_assoc. reflexivity.
      * rewrite (parseList_loop_StartElement_other _ _ _ _ _ Hopen _ Hin) in H.
        apply (K (opened ++ [ElemName t])); [discriminate | exact H].
    + rewrite (parseList_loop_EndElement _ _ _ _ _ Hopen) in H.
      destruct (popName (start :: opened) name) as [stack'|e1] eqn:P;
        [|discriminate].
      apply popName_Ok in P. destruct stack' as [|y stack'].
      * rewrite parseList_loop_eq in H. injection H as <- <-.
        injection P as -> _. exists []. simpl.
        rewrite app_nil_r. auto.
      * injection P as <- P. apply (K stack'); [discriminate | exact H].
    + rewrite (parseList_loop_CharData _ _ _ _ _ Hopen) in H.
      destruct (IH _ _ _ _ _ _ _ Hlen1 H) as [inner [-> [He Hx]]].
      exists (TokCharData b :: inner). repeat split; auto.
      rewrite Hx. unfold tokenTexts at 2. simpl.
      destruct (forallb IsSpace b); [reflexivity|].
      rewrite flat_map_app, <- app_assoc. reflexivity.
    + rewrite (parseList_loop_other _ _ _ _ _ Hopen (TokComment b) I) in H.
      apply (K opened); [discriminate | exact H].
    + rewrite (parseList_loop_other _ _ _ _ _ Hopen (TokProcInst target inst) I)
        in H.
      apply (K opened); [discriminate | exact H].
    + rewrite (parseList_loop_other _ _ _ _ _ Hopen (TokDirective b) I) in H.
      apply (K opened); [discriminate | exact H].
Qed.

(** *** The tree is the parse of the tokens that matter *)

Lemma parseList_loop_flatten names (n : nat) :
  NoDup names ->
  forall ts e start opened c list d',
    length ts <= n ->
    Forall (fun name => hasName names name = false) opened ->
    parseList_loop names (start :: opened) c (mkDecoder ts e) = (Ok list, d') ->
    exists inner,
      ts = inner ++ TokEndElement start :: pending d'
      /\ flat_map flatten list
         = flat_map flatten c ++ map normal (filter (kept names) inner).
Proof.
  intros Hnd.
  induction n as [|n IH]; intros ts e start opened c list d' Hlen Ho H.
  - destruct ts; [|simpl in Hlen; lia].
    rewrite parseList_loop_eq in H. discriminate.
  - destruct ts as [|tok rest].
    { rewrite parseList_loop_eq in H. discriminate. }
    simpl in Hlen. assert (Hlen1 : length rest <= n) by lia.
    assert (Hopen : start :: opened <> []) by discriminate.
    assert (K : forall opened',
               kept names tok = false ->
               Forall (fun name => hasName names name = false) opened' ->
               parseList_loop names (start :: opened') c (mkDecoder rest e)
               = (Ok list, d') ->
               exists inner,
                 tok :: rest = inner ++ TokEndElement start :: pending d'
                 /\ flat_map flatten list
                    = flat_map flatten c
                      ++ map normal (filter (kept names) inner)).
    { intros opened' Hk Ho' H'.
      destruct (IH _ _ _ _ _ _ _ Hlen1 Ho' H') as [inner [-> Hx]].
      exists (tok :: inner). split; auto.
      cbn [filter]. rewrite Hk. exact Hx. }
    destruct tok as [t|name|b|b|target inst|b].
    + destruct (hasName names (ElemName t)) eqn:Hin.
      * rewrite (parseList_loop_StartElement_once _ _ _ _ _ Hopen _ Hnd Hin) in H.
        destruct (parseList_loop names [ElemName t] [] (mkDecoder rest e))
          as [[l|e1] [ts2 e2]] eqn:HL; [|discriminate].
        destruct (IH _ _ _ _ _ _ _ Hlen1 (Forall_nil _) HL) as [inner1 [E1 Hx1]].
        simpl in E1.
        assert (Hlen2 : length ts2 <= n).
        { apply parseList_loop_shorter in HL; simpl in HL; lia. }
        destruct (IH _ _ _ _ _ _ _ Hlen2 Ho H) as [inner2 [E2 Hx2]].
        exists (TokStartElement t
                  :: inner1 ++ TokEndElement (ElemName t) :: inner2).
        split.
        -- rewrite E1, E2. simpl. rewrite <- app_assoc. reflexivity.
        -- assert (Hn : flatten (mkNode (ValToken (TokStartElement t)) l)
                        = TokStartElement t
                          :: map normal (filter (kept names) inner1)
                          ++ [TokEndElement (ElemName t)]).
           { cbn [flatten]. simpl in Hx1. rewrite Hx1. reflexivity. }
           rewrite Hx2, flat_map_app. cbn [flat_map]. rewrite Hn, app_nil_r.
           cbn [filter kept]. rewrite Hin, filter_app. cbn [filter kept].
           rewrite Hin. cbn [map normal]. rewrite map_app. cbn [map normal].
           rewrite <- !app_assoc. f_equal. cbn [app].
           rewrite <- app_assoc. reflexivity.
      * rewrite (parseList_loop_StartElement_other _ _ _ _ _ Hopen _ Hin) in H.
        apply (K (opened ++ [ElemName t])).
        -- exact Hin.
        -- apply Forall_app; split; [exact Ho | constructor; auto].
        -- exact H.
    + rewrite (parseList_loop_EndElement _ _ _ _ _ Hopen) in H.
      destruct (popName (start :: opened) name) as [stack'|e1] eqn:P;
        [|discriminate].
      apply popName_Ok in P. destruct stack' as [|y stack'].
      * rewrite parseList_loop_eq in H. injection H as <- <-.
        injection P as -> _. exists []. simpl.
        rewrite app_nil_r. auto.
      * injection P as <- P.
        assert (Hu : hasName names name = false
                     /\ Forall (fun x => hasName names x = false) stack').
        { rewrite P in Ho. apply Forall_app in Ho. destruct Ho as [Ho1 Ho2].
          split; [inversion Ho2; assumption | exact Ho1]. }
        destruct Hu as [Hu Ho'].
        apply (K stack'); auto.
    + rewrite (parseList_loop_CharData _ _ _ _ _ Hopen) in H.
      destruct (forallb IsSpace b) eqn:B.
      * apply (K opened); auto. simpl. rewrite B. reflexivity.
      * destruct (IH _ _ _ _ _ _ _ Hlen1 Ho H) as [inner [-> Hx]].
        exists (TokCharData b :: inner). split; auto.
        cbn [filter kept]. rewrite B. cbn [negb map normal].
        rewrite Hx, flat_map_app. cbn [flat_map flatten].
        rewrite app_nil_r, <- app_assoc. reflexivity.
    + rewrite (parseList_loop_other _ _ _ _ _ Hopen (TokComment b) I) in H.
      apply (K opened); auto.
    + rewrite (parseList_loop_other _ _ _ _ _ Hopen (TokProcInst target inst) I)
        in H.
      apply (K opened); auto.
    + rewrite (parseList_loop_other _ _ _ _ _ Hopen (TokDirective b) I) in H.
      apply (K opened); auto.
Qed.

(** *** The nodes of a trip are in the tree, and the texts of a tree *)

(** A node that a trip of the builder leaves among the nodes is in the tree
    of a call that succeeds. *)
Lemma NextNames_keeps_appended
      d names t0 d0 stack c d' stack' c' d1 node root d2 :
  skipUntilStartElement d names = (Ok t0, d0) ->
  reaches names ([ElemName t0], [], d0) (stack, c, d') ->
  stack <> [] ->
  step names stack c d' = Continue stack' c' d1 ->
  In node c' ->
  NextNames d names = (Ok root, d2) ->
  exists m, In m (Node_List root) /\ inTree node m.
Proof.
  intros HS HR Hne Hstep Hnode Hroot.
  unfold NextNames in Hroot. rewrite HS in Hroot. unfold parseList in *.
  destruct (parseList_loop names [ElemName t0] [] d0) as [[l0|e0] d3] eqn:HL;
    [|discriminate].
  injection Hroot as <- _. simpl.
  destruct (xml_reaches_inTree _ _ _ HR l0 d3 HL) as [l [d4 [Hs Hsub]]].
  simpl in Hs. rewrite parseList_loop_eq, Hstep in Hs.
  destruct stack as [|x stack]; [congruence|].
  apply parseList_loop_prefix in Hs. destruct Hs as [more ->].
  apply Hsub. apply in_or_app; left; exact Hnode.
Qed.

(** The strings of the nodes of a call that succeeds are those of the
    tokens it has consumed, whatever the names are. *)
Lemma rangeNames_texts recurse t :
  (forall d l d',
      recurse d = Some (Ok l, d') ->
      exists seg, pending d = seg ++ pending d'
                  /\ flat_map texts l = tokenTexts seg) ->
  forall vs found c d found' c' d',
    rangeNames recurse t vs found c d = Some (Ok (found', c'), d') ->
    exists seg, pending d = seg ++ pending d'
                /\ flat_map texts c' = flat_map texts c ++ tokenTexts seg.
Proof.
  intros Hrec. induction vs as [|v vs IH]; intros found c d found' c' d'; simpl.
  - intros H; injection H as _ <- <-. exists []. simpl.
    rewrite app_nil_r. auto.
  - destruct (Name_eqb v (ElemName t)); [|apply IH].
    destruct (recurse d) as [[[l|e0] d1]|] eqn:E; try discriminate.
    intros H. destruct (Hrec _ _ _ E) as [seg1 [E1 Hx1]].
    destruct (IH _ _ _ _ _ _ H) as [seg2 [E2 Hx2]].
    exists (seg1 ++ seg2). split.
    + rewrite E1, E2, app_assoc. reflexivity.
    + rewrite Hx2, flat_map_app, xml_tokenTexts_app. simpl.
      rewrite app_nil_r, Hx1, app_assoc. reflexivity.
Qed.

Lemma parseList_fuel_texts fuel :
  forall names stack c d list d',
    parseList_fuel fuel names stack c d = Some (Ok list, d') ->
    exists seg, pending d = seg ++ pending d'
                /\ flat_map texts list = flat_map texts c ++ tokenTexts seg.
Proof.
  induction fuel as [|f IH]; intros names stack c d list d'; [discriminate|].
  simpl. destruct stack as [|x stack].
  { intros H; injection H as <- <-. exists []. simpl.
    rewrite app_nil_r. auto. }
  unfold loopBody, RawToken. destruct d as [ts e]. simpl.
  destruct ts as [|tok rest]; [discriminate|].
  assert (K : forall stack' c',
             (forall b, tok <> TokCharData b) ->
             flat_map texts c' = flat_map texts c ->
             parseList_fuel f names stack' c' (mkDecoder rest e)
             = Some (Ok list, d') ->
             exists seg, tok :: rest = seg ++ pending d'
                         /\ flat_map texts list
                            = flat_map texts c ++ tokenTexts seg).
  { intros stack' c' Ht Hc H. destruct (IH _ _ _ _ _ _ H) as [seg [E Hx]].
    simpl in E. exists (tok :: seg). split; [rewrite E; reflexivity|].
    rewrite (xml_tokenTexts_skip tok) by exact Ht. rewrite Hx, Hc.
    reflexivity. }
  destruct tok as [t|name|b|b|target inst|b];
    try (apply K; [discriminate | reflexivity]).
  - destruct (rangeNames _ t names false c (mkDecoder rest e))
      as [[[[found c2]|e1] d2]|] eqn:E; try discriminate.
    apply (rangeNames_texts
             _ _ (fun d0 l d3 H0 =>
                    match IH names [ElemName t] [] d0 l d3 H0 with
                    | ex_intro _ seg (conj E0 Hx0) =>
                        ex_intro _ seg (conj E0 Hx0)
                    end)) in E.
    destruct E as [seg1 [E1 Hx1]]. simpl in E1.
    intros H.
    assert (exists seg, pending d2 = seg ++ pending d'
                        /\ flat_map texts list
                           = flat_map texts c2 ++ tokenTexts seg)
      as [seg2 [E2 Hx2]]
        by (destruct found; exact (IH _ _ _ _ _ _ H)).
    exists (TokStartElement t :: seg1 ++ seg2). split.
    + simpl. rewrite E1, E2, app_assoc. reflexivity.
    + rewrite (xml_tokenTexts_skip (TokStartElement t)) by discriminate.
      rewrite Hx2, Hx1, xml_tokenTexts_app, app_assoc. reflexivity.
  - destruct (popName (x :: stack) name) as [stack'|e1]; [|discriminate].
    apply K; [discriminate | reflexivity].
  - intros H.
    assert (Hb : (0 <? length (TrimSpace b)) = negb (forallb IsSpace b)).
    { destruct (forallb IsSpace b) eqn:B.
      - apply TrimSpace_blank in B. rewrite B. reflexivity.
      - destruct (TrimSpace b) eqn:T; [|reflexivity].
        apply TrimSpace_blank in T. congruence. }
    rewrite Hb in H.
    destruct (forallb IsSpace b) eqn:B; simpl in H;
      destruct (IH _ _ _ _ _ _ H) as [seg [E Hx]]; simpl in E;
      exists (TokCharData b :: seg);
      (split; [rewrite E; reflexivity|]);
      rewrite Hx; unfold tokenTexts at 2; simpl; rewrite B.
    + reflexivity.
    + rewrite flat_map_app, <- app_assoc. reflexivity.
Qed.

Lemma parseList_texts d names stack list d' :
  parseList d names stack = (Ok list, d') ->
  exists scope,
    pending d = scope ++ pending d'
    /\ flat_map texts list = tokenTexts scope.
Proof.
  intros H. unfold parseList in H.
  apply (parseList_fuel_texts (S (length (pending d))) names stack [] d).
  rewrite parseList_fuel_loop by lia. rewrite H; reflexivity.
Qed.

Lemma NextNames_texts d names n d' :
  NextNames d names = (Ok n, d') ->
  exists skipped t scope,
    Node_Token n = ValToken (TokStartElement t)
    /\ pending d = skipped ++ TokStartElement t :: scope ++ pending d'
    /\ forallb (fun tok => negb (isMatch names tok)) skipped = true
    /\ hasName names (ElemName t) = true
    /\ texts n = tokenTexts scope.
Proof.
  unfold NextNames, skipUntilStartElement.
  destruct (skipUntilStartElement_scan names (err d) (pending d))
    as [[t0|e0] d0] eqn:HS; [|discriminate].
  apply skipUntilStartElement_scan_Ok in HS.
  destruct HS as [skipped [E [_ [Hm Hs]]]].
  destruct (parseList d0 names [ElemName t0]) as [[list|e1] d2] eqn:HL;
    [|discriminate].
  intros H; injection H as <- <-.
  destruct (parseList_texts _ _ _ _ _ HL) as [scope [E2 Hx]].
  exists skipped, t0, scope. simpl. rewrite E, E2. repeat split; auto.
Qed.

(** *** Where a failed call leaves the decoder *)

Lemma skipUntilStartElement_scan_failure names e ts x d1 :
  skipUntilStartElement_scan names e ts = (Err x, d1) -> d1 = mkDecoder [] e.
Proof.
  induction ts as [|y ts IH]; simpl.
  - intros H; injection H as _ <-; reflexivity.
  - destruct y as [s| | | | |]; try exact IH.
    destruct (hasName names (ElemName s)); [discriminate | exact IH].
Qed.

Lemma rangeNames_rest recurse t :
  (forall d r d', recurse d = Some (r, d') ->
                  err d' = err d
                  /\ (forall s, r = Err (UnclosedTags s) -> pending d' = [])) ->
  forall vs found c d r d',
    rangeNames recurse t vs found c d = Some (r, d') ->
    err d' = err d
    /\ (forall s, r = Err (UnclosedTags s) -> pending d' = []).
Proof.
  intros Hrec. induction vs as [|v vs IH]; intros found c d r d'; simpl.
  - intros H; injection H as <- <-. split; [reflexivity | discriminate].
  - destruct (Name_eqb v (ElemName t)); [|apply IH].
    destruct (recurse d) as [[[list|e0] d1]|] eqn:E; try discriminate.
    + intros H. apply IH in H. destruct (Hrec _ _ _ E) as [He _].
      destruct H as [H1 H2]. split; [congruence | exact H2].
    + intros H; injection H as <- <-. destruct (Hrec _ _ _ E) as [He Hu].
      split; [exact He|]. intros s K. injection K as ->.
      exact (Hu s eq_refl).
Qed.

Lemma parseList_fuel_rest fuel :
  forall names stack c d r d',
    parseList_fuel fuel names stack c d = Some (r, d') ->
    err d' = err d
    /\ (forall s, r = Err (UnclosedTags s) -> pending d' = []).
Proof.
  induction fuel as [|f IH]; intros names stack c d r d'; [discriminate|].
  simpl. destruct stack as [|x stack].
  { intros H; injection H as <- <-. split; [reflexivity | discriminate]. }
  unfold loopBody, RawToken. destruct d as [ts e]. simpl.
  destruct ts as [|tok rest].
  { intros H; injection H as <- <-. split; reflexivity. }
  assert (K : forall stack' c',
             parseList_fuel f names stack' c' (mkDecoder rest e)
             = Some (r, d') ->
             err d' = e
             /\ (forall s, r = Err (UnclosedTags s) -> pending d' = [])).
  { intros stack' c' H. exact (IH _ _ _ _ _ _ H). }
  destruct tok as [t|name|b|b|target inst|b]; try apply K.
  - destruct (rangeNames _ t names false c (mkDecoder rest e))
      as [[[[found c2]|e1] d2]|] eqn:E; try discriminate;
      apply (rangeNames_rest _ _ (fun d0 r0 d3 => IH names [ElemName t] [] d0 r0 d3))
        in E; destruct E as [E1 E2]; simpl in E1.
    + destruct found; intros H; apply IH in H; destruct H as [H1 H2];
        (split; [congruence | exact H2]).
    + intros H; injection H as <- <-. split; [exact E1|].
      intros s Hs; injection Hs as ->. exact (E2 s eq_refl).
  - destruct (popName (x :: stack) name) as [stack'|e1] eqn:P; [apply K|].
    apply popName_error in P; [|discriminate]. subst e1.
    intros H; injection H as <- <-. split; [reflexivity | discriminate].
  - destruct (0 <? length (TrimSpace b)); apply K.
Qed.

Lemma parseList_loop_rest names stack c d r d' :
  parseList_loop names stack c d = (r, d') ->
  err d' = err d
  /\ (forall s, r = Err (UnclosedTags s) -> pending d' = []).
Proof.
  intros H. apply (parseList_fuel_rest (S (length (pending d))) names stack c).
  rewrite parseList_fuel_loop by lia. rewrite H; reflexivity.
Qed.

Lemma NextNames_failure d names e d' :
  NextNames d names = (Err e, d') ->
  (forall last name, e <> MismatchedClosingTag last name) ->
  d' = mkDecoder [] (err d).
Proof.
  unfold NextNames, skipUntilStartElement.
  destruct (skipUntilStartElement_scan names (err d) (pending d))
    as [[t0|e0] d1] eqn:HS.
  - apply skipUntilStartElement_scan_Ok in HS.
    destruct HS as [_ [_ [He1 _]]]. unfold parseList.
    destruct (parseList_loop names [ElemName t0] [] d1)
      as [[list|e2] d2] eqn:HL; [discriminate|].
    intros H Hm; injection H as -> ->.
    destruct (parseList_loop_rest _ _ _ _ _ _ HL) as [He Hu].
    destruct (parseList_loop_errors _ _ _ _ _ _ HL)
      as [[s [_ ->]]|[a [b [_ ->]]]].
    + destruct d' as [ts' e']. simpl in *. rewrite (Hu s eq_refl).
      congruence.
    + exfalso; exact (Hm a b eq_refl).
  - intros H _; injection H as _ <-.
    exact (skipUntilStartElement_scan_failure _ _ _ _ _ HS).
Qed.

End XmlScope.

(** ** The rendering of the trees *)

Module HtmlRendering.
Import htmlfilter.

Lemma html_Node_Forall_ind (P : Node -> Prop) :
  (forall tok l, Forall P l -> P (mkNode tok l)) -> forall n, P n.
Proof.
  intros H. fix IH 1. intros [tok l]. apply H.
  induction l as [|v l IHl]; constructor; [apply IH | exact IHl].
Qed.


(** [String] panics on the token of the node itself only. *)
Lemma html_String_panics n :
  String n = None
  <-> TType (Node_Token n) <> StartTagToken
      /\ TType (Node_Token n) <> SelfClosingTagToken
      /\ TType (Node_Token n) <> TextToken.
Proof.
  destruct n as [tok l]. simpl.
  destruct (TType tok); try (split; [intros _; repeat split|]; congruence);
    try (split; [discriminate | intros [H1 [H2 H3]]; congruence]).
  split; [|intros [H1 _]; congruence].
  match goal with |- _ l ?b = None -> _ => generalize b end.
  induction l as [|v l IHl]; intros b; [discriminate|].
  destruct (String v); apply IHl.
Qed.

(** [String] does not read the attributes. *)
Lemma html_String_stripAttr n : String (stripAttr n) = String n.
Proof.
  induction n as [tok l IH] using html_Node_Forall_ind.
  simpl. destruct (TType tok); try reflexivity.
  match goal with |- _ (map stripAttr l) ?b = _ => generalize b end.
  induction l as [|v l IHl]; intros b; [reflexivity|].
  inversion IH as [|? ? IHv IHl']; subst.
  simpl. rewrite IHv. destruct (String v); exact (IHl IHl' _).
Qed.

End HtmlRendering.

Module XmlRendering.
Import xmlfilter.

Lemma xml_Node_Forall_ind (P : Node -> Prop) :
  (forall tok l, Forall P l -> P (mkNode tok l)) -> forall n, P n.
Proof.
  intros H. fix IH 1. intros [tok l]. apply H.
  induction l as [|v l IHl]; constructor; [apply IH | exact IHl].
Qed.

(** On a tree of start elements and strings [String] does not panic, and
    does what it did before it had a case for [xml.CharData]. *)
Lemma xml_String_wellTagged names n :
  wellTagged names n = true ->
  String0 n = String n /\ exists s, String n = Some s.
Proof.
  induction n as [tok l IH] using xml_Node_Forall_ind.
  simpl. destruct tok as [[t|name|b|b|target inst|b]|s];
    try discriminate; eauto.
  intros H. apply andb_true_iff in H. destruct H as [_ H].
  match goal with |- _ l ?b = _ l ?b /\ _ => generalize b end.
  induction l as [|v l IHl]; intros b; [eauto|].
  simpl in H. apply andb_true_iff in H. destruct H as [Hv Hl].
  inversion IH as [|? ? IHv IHl']; subst.
  destruct (IHv Hv) as [-> [s ->]]. exact (IHl IHl' Hl _).
Qed.

(** [String] panics on the token of the node itself only. *)
Lemma xml_String_panics n :
  String n = None
  <-> match Node_Token n with
      | ValToken (TokStartElement _) | ValToken (TokCharData _)
      | ValString _ => False
      | _ => True
      end.
Proof.
  destruct n as [[[t|name|b|b|target inst|b]|s] l]; simpl;
    try (split; [intros _; exact I | reflexivity]);
    try (split; [discriminate | intros []]).
  split; [|intros []].
  match goal with |- _ l ?b = None -> _ => generalize b end.
  induction l as [|v l IHl]; intros b; [discriminate|].
  destruct (String v); apply IHl.
Qed.

Lemma xml_unexpected_stripAttr n : unexpected (stripAttr n) = unexpected n.
Proof.
  destruct n as [[[t|name|b|b|target inst|b]|s] l]; reflexivity.
Qed.

(** [String] reads neither the attributes nor the name spaces. *)
Lemma xml_String_stripAttr n : String (stripAttr n) = String n.
Proof.
  induction n as [tok l IH] using xml_Node_Forall_ind.
  simpl. destruct tok as [[t|name|b|b|target inst|b]|s]; try reflexivity.
  simpl. match goal with |- _ (map stripAttr l) ?b = _ => generalize b end.
  induction l as [|v l IHl]; intros b; [reflexivity|].
  inversion IH as [|? ? IHv IHl']; subst.
  simpl. rewrite IHv, xml_unexpected_stripAttr.
  destruct (String v); exact (IHl IHl' _).
Qed.

End XmlRendering.

(** * The claims *)

(** C1 (as amended).  For the names [p], [a], [sup] and the document
    [<p><a name="x"/> Foo <sup><u><b> Bar </b></u></sup> <a href="y"> Baz
    </a></p>], the first call succeeds in both packages: the tags [u] and
    [b] leave no node, the trimmed texts stay in document order, [a] and
    [sup] are element children.  [NextNames] renders as
    [<p><a></a>Foo<sup>Bar</sup><a>Baz</a></p>]; [NextTextFilter], whose
    tokenizer reports [<a name="x"/>] as a self-closing token, renders as
    [<p><a/>Foo<sup>Bar</sup><a>Baz</a></p>]. *)
Theorem C1_filtering_example :
  (fst (xmlfilter.NextNames
          (xmlfilter.mkDecoder Documents.filtering_xml EOF)
          Documents.p_a_sup_xml)
   = xmlfilter.Ok Documents.filtering_tree_xml
   /\ xmlfilter.String Documents.filtering_tree_xml
      = Some (str "<p><a></a>Foo<sup>Bar</sup><a>Baz</a></p>"))
  /\ (fst (htmlfilter.NextTextFilter
             (htmlfilter.mkTokenizer Documents.filtering_html EOF)
             Documents.p_a_sup_html)
      = htmlfilter.Ok Documents.filtering_tree_html
      /\ htmlfilter.String Documents.filtering_tree_html
         = Some (str "<p><a/>Foo<sup>Bar</sup><a>Baz</a></p>")).
Proof. repeat split; vm_compute; reflexivity. Qed.

(** C1 as stated fails for [NextTextFilter]: the rendering of its tree is
    not [<p><a></a>Foo<sup>Bar</sup><a>Baz</a></p>]. *)
Lemma C1_counterexample :
  fst (htmlfilter.NextTextFilter
         (htmlfilter.mkTokenizer Documents.filtering_html EOF)
         Documents.p_a_sup_html)
  = htmlfilter.Ok Documents.filtering_tree_html
  /\ htmlfilter.String Documents.filtering_tree_html
     <> Some (str "<p><a></a>Foo<sup>Bar</sup><a>Baz</a></p>").
Proof.
  split.
  - vm_compute; reflexivity.
  - vm_compute; discriminate.
Qed.

(** C2 (as amended).  A start tag whose name is not in the set is pushed on
    the stack and leaves no node.  A start tag whose name is in the set is
    recursed into and appended as an element whatever the stack holds, also
    while tags outside the set are on it: the stack is unchanged, an error
    of the recursive call is returned, and when the whole call succeeds the
    element is in the returned tree, with the nodes of the recursive call
    as its children.  (The trip of [xmlfilter]'s loop is stated for a list
    of names without duplicates.) *)
Theorem C2_start_tag_scoping :
  ((forall tagNames stack c t tok t1,
       htmlfilter.Next t = (tok, t1) ->
       htmlfilter.TType tok = htmlfilter.StartTagToken ->
       (htmlfilter.hasName tagNames (htmlfilter.Data tok) = false ->
        htmlfilter.step tagNames stack c t
        = htmlfilter.Continue (stack ++ [htmlfilter.Data tok]) c t1)
       /\ (htmlfilter.hasName tagNames (htmlfilter.Data tok) = true ->
           htmlfilter.step tagNames stack c t
           = match htmlfilter.TextInTag t1 (htmlfilter.Data tok) tagNames with
             | (htmlfilter.Ok list, t2) =>
                 htmlfilter.Continue stack (c ++ [htmlfilter.mkNode tok list]) t2
             | (htmlfilter.Err e, t2) => htmlfilter.Return e t2
             end))
   /\ (forall t tagNames tok0 t0 stack c t' tok t1 root t2,
          htmlfilter.NextStartTag t tagNames = (htmlfilter.Ok tok0, t0) ->
          htmlfilter.reaches tagNames ([htmlfilter.Data tok0], [], t0)
                             (stack, c, t') ->
          stack <> [] ->
          htmlfilter.Next t' = (tok, t1) ->
          htmlfilter.TType tok = htmlfilter.StartTagToken ->
          htmlfilter.hasName tagNames (htmlfilter.Data tok) = true ->
          htmlfilter.NextTextFilter t tagNames = (htmlfilter.Ok root, t2) ->
          exists list m,
            fst (htmlfilter.TextInTag t1 (htmlfilter.Data tok) tagNames)
            = htmlfilter.Ok list
            /\ In m (htmlfilter.Node_List root)
            /\ htmlfilter.inTree (htmlfilter.mkNode tok list) m))
  /\ ((forall names stack c d t d1,
          xmlfilter.RawToken d = (inl (xmlfilter.TokStartElement t), d1) ->
          (xmlfilter.hasName names (xmlfilter.ElemName t) = false ->
           xmlfilter.step names stack c d
           = xmlfilter.Continue (stack ++ [xmlfilter.ElemName t]) c d1)
          /\ (NoDup names ->
              xmlfilter.hasName names (xmlfilter.ElemName t) = true ->
              xmlfilter.step names stack c d
              = match xmlfilter.parseList d1 names [xmlfilter.ElemName t] with
                | (xmlfilter.Ok list, d2) =>
                    xmlfilter.Continue
                      stack
                      (c ++ [xmlfilter.mkNode
                               (xmlfilter.ValToken (xmlfilter.TokStartElement t))
                               list])
                      d2
                | (xmlfilter.Err e, d2) => xmlfilter.Return e d2
                end))
      /\ (forall d names t0 d0 stack c d' t d1 root d2,
             xmlfilter.skipUntilStartElement d names = (xmlfilter.Ok t0, d0) ->
             xmlfilter.reaches names ([xmlfilter.ElemName t0], [], d0)
                               (stack, c, d') ->
             stack <> [] ->
             xmlfilter.RawToken d' = (inl (xmlfilter.TokStartElement t), d1) ->
             xmlfilter.hasName names (xmlfilter.ElemName t) = true ->
             xmlfilter.NextNames d names = (xmlfilter.Ok root, d2) ->
             exists list m,
               fst (xmlfilter.parseList d1 names [xmlfilter.ElemName t])
               = xmlfilter.Ok list
               /\ In m (xmlfilter.Node_List root)
               /\ xmlfilter.inTree
                    (xmlfilter.mkNode
                       (xmlfilter.ValToken (xmlfilter.TokStartElement t)) list)
                    m)).
Proof.
  split; split.
  - intros tagNames stack c t tok t1 HN HT.
    pose proof (HtmlSteps.step_StartTagToken tagNames stack c t t1 tok HN HT)
      as Hstep.
    split; intros Hin; rewrite Hin in Hstep; exact Hstep.
  - exact HtmlSteps.NextTextFilter_keeps_match.
  - intros names stack c d t d1 HN. split.
    + exact (XmlSteps.step_StartElement_other names stack c d d1 t HN).
    + exact (XmlSteps.step_StartElement_once names stack c d d1 t HN).
  - exact XmlSteps.NextNames_keeps_match.
Qed.

Lemma C2_witness :
  ((htmlfilter.step [str "p"; str "a"] [str "p"] []
                    (htmlfilter.mkTokenizer (tl Documents.nested_html) EOF)
    = htmlfilter.Continue [str "p"; str "span"] []
                          (htmlfilter.mkTokenizer (tl (tl Documents.nested_html))
                                                  EOF)
    /\ htmlfilter.step [str "p"; str "a"] [str "p"; str "span"] []
                       (htmlfilter.mkTokenizer (tl (tl Documents.nested_html))
                                               EOF)
       = htmlfilter.Continue
           [str "p"; str "span"]
           [htmlfilter.mkNode (Documents.H.startTag "a" [])
                              [Documents.H.textNode "x"]]
           (htmlfilter.mkTokenizer
              [Documents.H.endTag "span"; Documents.H.endTag "p"] EOF))
   /\ exists list m,
       fst (htmlfilter.TextInTag
              (htmlfilter.mkTokenizer (tl (tl (tl Documents.nested_html))) EOF)
              (str "a") [str "p"; str "a"])
       = htmlfilter.Ok list
       /\ In m [htmlfilter.mkNode (Documents.H.startTag "a" [])
                                  [Documents.H.textNode "x"]]
       /\ htmlfilter.inTree
            (htmlfilter.mkNode (Documents.H.startTag "a" []) list) m)
  /\ ((xmlfilter.step [Documents.X.name "p"; Documents.X.name "a"]
                      [Documents.X.name "p"] []
                      (xmlfilter.mkDecoder (tl Documents.nested_xml) EOF)
       = xmlfilter.Continue [Documents.X.name "p"; Documents.X.name "span"] []
                            (xmlfilter.mkDecoder (tl (tl Documents.nested_xml))
                                                 EOF)
       /\ xmlfilter.step [Documents.X.name "p"; Documents.X.name "a"]
                         [Documents.X.name "p"; Documents.X.name "span"] []
                         (xmlfilter.mkDecoder (tl (tl Documents.nested_xml)) EOF)
          = xmlfilter.Continue
              [Documents.X.name "p"; Documents.X.name "span"]
              [Documents.X.element "a" [] [Documents.X.textNode "x"]]
              (xmlfilter.mkDecoder
                 [Documents.X.endElement "span"; Documents.X.endElement "p"]
                 EOF))
      /\ exists list m,
          fst (xmlfilter.parseList
                 (xmlfilter.mkDecoder (tl (tl (tl Documents.nested_xml))) EOF)
                 [Documents.X.name "p"; Documents.X.name "a"]
                 [Documents.X.name "a"])
          = xmlfilter.Ok list
          /\ In m [Documents.X.element "a" [] [Documents.X.textNode "x"]]
          /\ xmlfilter.inTree
               (xmlfilter.mkNode
                  (xmlfilter.ValToken (Documents.X.start "a" [])) list) m).
Proof.
  split; split; [split| |split|].
  - apply (proj1 (proj1 (proj1 C2_start_tag_scoping)
                        [str "p"; str "a"] [str "p"] []
                        (htmlfilter.mkTokenizer (tl Documents.nested_html) EOF)
                        (Documents.H.startTag "span" [])
                        (htmlfilter.mkTokenizer (tl (tl Documents.nested_html))
                                                EOF)
                        eq_refl eq_refl)).
    reflexivity.
  - apply (proj2 (proj1 (proj1 C2_start_tag_scoping)
                        [str "p"; str "a"] [str "p"; str "span"] []
                        (htmlfilter.mkTokenizer (tl (tl Documents.nested_html))
                                                EOF)
                        (Documents.H.startTag "a" [])
                        (htmlfilter.mkTokenizer
                           (tl (tl (tl Documents.nested_html))) EOF)
                        eq_refl eq_refl)).
    reflexivity.
  - apply (proj2 (proj1 C2_start_tag_scoping)
                 (htmlfilter.mkTokenizer Documents.nested_html EOF)
                 [str "p"; str "a"]
                 (Documents.H.startTag "p" [])
                 (htmlfilter.mkTokenizer (tl Documents.nested_html) EOF)
                 [str "p"; str "span"] []
                 (htmlfilter.mkTokenizer (tl (tl Documents.nested_html)) EOF)
                 (Documents.H.startTag "a" [])
                 (htmlfilter.mkTokenizer (tl (tl (tl Documents.nested_html))) EOF)
                 (htmlfilter.mkNode
                    (Documents.H.startTag "p" [])
                    [htmlfilter.mkNode (Documents.H.startTag "a" [])
                                       [Documents.H.textNode "x"]])
                 (htmlfilter.mkTokenizer [] EOF)).
    + reflexivity.
    + eapply htmlfilter.reaches_trip; [discriminate | vm_compute; reflexivity|].
      apply htmlfilter.reaches_here.
    + discriminate.
    + reflexivity.
    + reflexivity.
    + reflexivity.
    + vm_compute; reflexivity.
  - apply (proj1 (proj1 (proj2 C2_start_tag_scoping)
                        [Documents.X.name "p"; Documents.X.name "a"]
                        [Documents.X.name "p"] []
                        (xmlfilter.mkDecoder (tl Documents.nested_xml) EOF)
                        (Documents.X.startElement "span" [])
                        (xmlfilter.mkDecoder (tl (tl Documents.nested_xml)) EOF)
                        eq_refl)).
    reflexivity.
  - apply (proj2 (proj1 (proj2 C2_start_tag_scoping)
                        [Documents.X.name "p"; Documents.X.name "a"]
                        [Documents.X.name "p"; Documents.X.name "span"] []
                        (xmlfilter.mkDecoder (tl (tl Documents.nested_xml)) EOF)
                        (Documents.X.startElement "a" [])
                        (xmlfilter.mkDecoder (tl (tl (tl Documents.nested_xml)))
                                             EOF)
                        eq_refl)).
    + repeat constructor; simpl; intros H;
        repeat (destruct H as [H|H]; [discriminate|]); exact H.
    + reflexivity.
  - apply (proj2 (proj2 C2_start_tag_scoping)
                 (xmlfilter.mkDecoder Documents.nested_xml EOF)
                 [Documents.X.name "p"; Documents.X.name "a"]
                 (Documents.X.startElement "p" [])
                 (xmlfilter.mkDecoder (tl Documents.nested_xml) EOF)
                 [Documents.X.name "p"; Documents.X.name "span"] []
                 (xmlfilter.mkDecoder (tl (tl Documents.nested_xml)) EOF)
                 (Documents.X.startElement "a" [])
                 (xmlfilter.mkDecoder (tl (tl (tl Documents.nested_xml))) EOF)
                 (Documents.X.element
                    "p" [] [Documents.X.element "a" []
                                                [Documents.X.textNode "x"]])
                 (xmlfilter.mkDecoder [] EOF)).
    + reflexivity.
    + eapply xmlfilter.reaches_trip; [discriminate | vm_compute; reflexivity|].
      apply xmlfilter.reaches_here.
    + discriminate.
    + reflexivity.
    + reflexivity.
    + vm_compute; reflexivity.
Defined.

(** C2 as stated fails: in [<p><span><a>x</a></span></p>] with the names
    [p], [a], the start tag [a] comes while [span], which is not in the set,
    is on the stack; the builder recurses into it and the element [a] is in
    the returned tree. *)
Lemma C2_counterexample :
  (htmlfilter.hasName [str "p"; str "a"] (str "span") = false
   /\ htmlfilter.step [str "p"; str "a"] [str "p"; str "span"] []
                      (htmlfilter.mkTokenizer (tl (tl Documents.nested_html)) EOF)
      = htmlfilter.Continue
          [str "p"; str "span"]
          [htmlfilter.mkNode (Documents.H.startTag "a" [])
                             [Documents.H.textNode "x"]]
          (htmlfilter.mkTokenizer
             [Documents.H.endTag "span"; Documents.H.endTag "p"] EOF)
   /\ fst (htmlfilter.NextTextFilter
             (htmlfilter.mkTokenizer Documents.nested_html EOF)
             [str "p"; str "a"])
      = htmlfilter.Ok
          (htmlfilter.mkNode
             (Documents.H.startTag "p" [])
             [htmlfilter.mkNode (Documents.H.startTag "a" [])
                                [Documents.H.textNode "x"]]))
  /\ (xmlfilter.hasName [Documents.X.name "p"; Documents.X.name "a"]
                        (Documents.X.name "span") = false
      /\ xmlfilter.step [Documents.X.name "p"; Documents.X.name "a"]
                        [Documents.X.name "p"; Documents.X.name "span"] []
                        (xmlfilter.mkDecoder (tl (tl Documents.nested_xml)) EOF)
         = xmlfilter.Continue
             [Documents.X.name "p"; Documents.X.name "span"]
             [Documents.X.element "a" [] [Documents.X.textNode "x"]]
             (xmlfilter.mkDecoder
                [Documents.X.endElement "span"; Documents.X.endElement "p"] EOF)
      /\ fst (xmlfilter.NextNames
                (xmlfilter.mkDecoder Documents.nested_xml EOF)
                [Documents.X.name "p"; Documents.X.name "a"])
         = xmlfilter.Ok
             (Documents.X.element
                "p" [] [Documents.X.element "a" [] [Documents.X.textNode "x"]])).
Proof. repeat split; vm_compute; reflexivity. Qed.

(** C3 (as amended).  When the input ends while the builder is at work,
    the call fails with the unclosed-tags error whose payload is the stack
    of the innermost invocation at that point: the matched tag that
    invocation was called for, below the tags outside the set that are open
    inside it.  The matched tags of the enclosing invocations are on no
    stack and are not listed: for [<p><a>] the payload is [a] alone. *)
Theorem C3_unclosed_tags_payload :
  (forall t tagNames tok0 t0 stack c t',
      htmlfilter.NextStartTag t tagNames = (htmlfilter.Ok tok0, t0) ->
      htmlfilter.reaches tagNames ([htmlfilter.Data tok0], [], t0) (stack, c, t') ->
      stack <> [] ->
      htmlfilter.TType (fst (htmlfilter.Next t')) = htmlfilter.ErrorToken ->
      fst (htmlfilter.NextTextFilter t tagNames)
      = htmlfilter.Err (htmlfilter.UnclosedTags stack)
      /\ exists startTag opened,
          stack = startTag :: opened
          /\ htmlfilter.hasName tagNames startTag = true
          /\ Forall (fun tag => htmlfilter.hasName tagNames tag = false) opened)
  /\ (forall d names t0 d0 stack c d' e d1,
         xmlfilter.skipUntilStartElement d names = (xmlfilter.Ok t0, d0) ->
         xmlfilter.reaches names ([xmlfilter.ElemName t0], [], d0) (stack, c, d') ->
         stack <> [] ->
         xmlfilter.RawToken d' = (inr e, d1) ->
         fst (xmlfilter.NextNames d names)
         = xmlfilter.Err (xmlfilter.UnclosedTags stack)
         /\ exists start opened,
             stack = start :: opened
             /\ xmlfilter.hasName names start = true
             /\ Forall (fun name => xmlfilter.hasName names name = false) opened).
Proof.
  split.
  - intros t tagNames tok0 t0 stack c t' HS HR Hne HT. split.
    + rewrite (HtmlSteps.NextTextFilter_error _ _ _ _ _ _ _ _ _ HS HR
                 (HtmlSteps.TextInTag_loop_exhausted tagNames stack c t' Hne HT)).
      reflexivity.
    + apply HtmlSteps.html_scopeStack_reaches in HR; simpl in HR.
      * destruct stack as [|startTag opened]; [congruence|].
        exists startTag, opened; simpl in HR; tauto.
      * split; [|constructor].
        unfold htmlfilter.NextStartTag in HS.
        apply HtmlSteps.NextStartTag_scan_found in HS; tauto.
  - intros d names t0 d0 stack c d' e d1 HS HR Hne HN. split.
    + rewrite (XmlSteps.NextNames_error _ _ _ _ _ _ _ _ _ HS HR
                 (XmlSteps.parseList_loop_exhausted names stack c d' e d1 Hne HN)).
      reflexivity.
    + apply XmlSteps.xml_scopeStack_reaches in HR; simpl in HR.
      * destruct stack as [|start opened]; [congruence|].
        exists start, opened; simpl in HR; tauto.
      * split; [|constructor].
        unfold xmlfilter.skipUntilStartElement in HS.
        apply XmlSteps.skipUntilStartElement_scan_found in HS; exact HS.
Qed.

Lemma C3_witness :
  (fst (htmlfilter.NextTextFilter Documents.unclosed_html [str "p"; str "a"])
   = htmlfilter.Err (htmlfilter.UnclosedTags [str "a"])
   /\ exists startTag opened,
       [str "a"] = startTag :: opened
       /\ htmlfilter.hasName [str "p"; str "a"] startTag = true
       /\ Forall (fun tag => htmlfilter.hasName [str "p"; str "a"] tag = false)
                 opened)
  /\ (fst (xmlfilter.NextNames Documents.unclosed_xml
                               [Documents.X.name "p"; Documents.X.name "a"])
      = xmlfilter.Err (xmlfilter.UnclosedTags [Documents.X.name "a"])
      /\ exists start opened,
          [Documents.X.name "a"] = start :: opened
          /\ xmlfilter.hasName [Documents.X.name "p"; Documents.X.name "a"] start
             = true
          /\ Forall (fun name =>
                       xmlfilter.hasName
                         [Documents.X.name "p"; Documents.X.name "a"] name
                       = false) opened).
Proof.
  split.
  - apply (proj1 C3_unclosed_tags_payload
                 Documents.unclosed_html [str "p"; str "a"]
                 (Documents.H.startTag "p" [])
                 (htmlfilter.mkTokenizer [Documents.H.startTag "a" []] EOF)
                 [str "a"] [] (htmlfilter.mkTokenizer [] EOF)).
    + reflexivity.
    + apply (htmlfilter.reaches_call _ _ _ _ (Documents.H.startTag "a" [])
                                     (htmlfilter.mkTokenizer [] EOF)).
      * discriminate.
      * reflexivity.
      * reflexivity.
      * reflexivity.
      * apply htmlfilter.reaches_here.
    + discriminate.
    + reflexivity.
  - apply (proj2 C3_unclosed_tags_payload
                 Documents.unclosed_xml
                 [Documents.X.name "p"; Documents.X.name "a"]
                 (Documents.X.startElement "p" [])
                 (xmlfilter.mkDecoder [Documents.X.start "a" []] EOF)
                 [Documents.X.name "a"] [] (xmlfilter.mkDecoder [] EOF)
                 EOF (xmlfilter.mkDecoder [] EOF)).
    + reflexivity.
    + apply (xmlfilter.reaches_call _ _ _ _ (Documents.X.startElement "a" [])
                                    (xmlfilter.mkDecoder [] EOF)
                                    [Documents.X.name "p"] (Documents.X.name "a") []
                                    false [] (xmlfilter.mkDecoder [] EOF)).
      * discriminate.
      * reflexivity.
      * reflexivity.
      * reflexivity.
      * reflexivity.
      * apply xmlfilter.reaches_here.
    + discriminate.
    + reflexivity.
Defined.

(** C3 as stated fails: for [<p><a>] and the names [p], [a] the payload of
    the error is [a] alone, [p] is not in it. *)
Lemma C3_counterexample :
  (fst (htmlfilter.NextTextFilter Documents.unclosed_html [str "p"; str "a"])
   = htmlfilter.Err (htmlfilter.UnclosedTags [str "a"])
   /\ ~ In (str "p") [str "a"])
  /\ (fst (xmlfilter.NextNames Documents.unclosed_xml
                               [Documents.X.name "p"; Documents.X.name "a"])
      = xmlfilter.Err (xmlfilter.UnclosedTags [Documents.X.name "a"])
      /\ ~ In (Documents.X.name "p") [Documents.X.name "a"]).
Proof.
  repeat split; try (vm_compute; reflexivity);
    intros [H|[]]; vm_compute in H; discriminate.
Qed.

(** C4.  Whenever the builder, inside a matched scope, meets an end tag
    whose name differs from the top of its (non-empty) stack, the call
    fails with the mismatched-closing-tag error that names the top of the
    stack as expected and the end tag as actual; the result is that error,
    not a tree.  For [<p><span>Foo</i></p>] and the name [p]: expected
    [span], actual [i]. *)
Theorem C4_mismatched_closing_tag :
  (forall t tagNames tok0 t0 stack c t' tok t1,
      htmlfilter.NextStartTag t tagNames = (htmlfilter.Ok tok0, t0) ->
      htmlfilter.reaches tagNames ([htmlfilter.Data tok0], [], t0) (stack, c, t') ->
      stack <> [] ->
      htmlfilter.Next t' = (tok, t1) ->
      htmlfilter.TType tok = htmlfilter.EndTagToken ->
      last stack [] <> htmlfilter.Data tok ->
      htmlfilter.NextTextFilter t tagNames
      = (htmlfilter.Err
           (htmlfilter.MismatchedClosingTag (last stack []) (htmlfilter.Data tok)),
         t1))
  /\ (forall d names t0 d0 stack c d' name d1,
         xmlfilter.skipUntilStartElement d names = (xmlfilter.Ok t0, d0) ->
         xmlfilter.reaches names ([xmlfilter.ElemName t0], [], d0) (stack, c, d') ->
         stack <> [] ->
         xmlfilter.RawToken d' = (inl (xmlfilter.TokEndElement name), d1) ->
         last stack (xmlfilter.mkName [] []) <> name ->
         xmlfilter.NextNames d names
         = (xmlfilter.Err
              (xmlfilter.MismatchedClosingTag
                 (last stack (xmlfilter.mkName [] [])) name),
            d1)).
Proof.
  split.
  - intros t tagNames tok0 t0 stack c t' tok t1 HS HR Hne HN HT Hdiff.
    exact (HtmlSteps.NextTextFilter_error _ _ _ _ _ _ _ _ _ HS HR
             (HtmlSteps.TextInTag_loop_mismatch tagNames stack c t' tok t1
                                                Hne HN HT Hdiff)).
  - intros d names t0 d0 stack c d' name d1 HS HR Hne HN Hdiff.
    exact (XmlSteps.NextNames_error _ _ _ _ _ _ _ _ _ HS HR
             (XmlSteps.parseList_loop_mismatch names stack c d' name d1
                                               Hne HN Hdiff)).
Qed.

Lemma C4_witness :
  htmlfilter.NextTextFilter Documents.mismatched_html [str "p"]
  = (htmlfilter.Err (htmlfilter.MismatchedClosingTag (str "span") (str "i")),
     htmlfilter.mkTokenizer [Documents.H.endTag "p"] EOF)
  /\ xmlfilter.NextNames Documents.mismatched_xml [Documents.X.name "p"]
     = (xmlfilter.Err
          (xmlfilter.MismatchedClosingTag (Documents.X.name "span")
                                          (Documents.X.name "i")),
        xmlfilter.mkDecoder [Documents.X.endElement "p"] EOF).
Proof.
  split.
  - apply (proj1 C4_mismatched_closing_tag
                 Documents.mismatched_html [str "p"]
                 (Documents.H.startTag "p" [])
                 (htmlfilter.mkTokenizer
                    [Documents.H.startTag "span" []; Documents.H.text "Foo";
                     Documents.H.endTag "i"; Documents.H.endTag "p"] EOF)
                 [str "p"; str "span"] [Documents.H.textNode "Foo"]
                 (htmlfilter.mkTokenizer
                    [Documents.H.endTag "i"; Documents.H.endTag "p"] EOF)
                 (Documents.H.endTag "i")
                 (htmlfilter.mkTokenizer [Documents.H.endTag "p"] EOF)).
    + reflexivity.
    + eapply htmlfilter.reaches_trip; [discriminate | vm_compute; reflexivity|].
      eapply htmlfilter.reaches_trip; [discriminate | vm_compute; reflexivity|].
      apply htmlfilter.reaches_here.
    + discriminate.
    + reflexivity.
    + reflexivity.
    + vm_compute; discriminate.
  - apply (proj2 C4_mismatched_closing_tag
                 Documents.mismatched_xml [Documents.X.name "p"]
                 (Documents.X.startElement "p" [])
                 (xmlfilter.mkDecoder
                    [Documents.X.start "span" []; Documents.X.charData "Foo";
                     Documents.X.endElement "i"; Documents.X.endElement "p"] EOF)
                 [Documents.X.name "p"; Documents.X.name "span"]
                 [Documents.X.textNode "Foo"]
                 (xmlfilter.mkDecoder
                    [Documents.X.endElement "i"; Documents.X.endElement "p"] EOF)
                 (Documents.X.name "i")
                 (xmlfilter.mkDecoder [Documents.X.endElement "p"] EOF)).
    + reflexivity.
    + eapply xmlfilter.reaches_trip; [discriminate | vm_compute; reflexivity|].
      eapply xmlfilter.reaches_trip; [discriminate | vm_compute; reflexivity|].
      apply xmlfilter.reaches_here.
    + discriminate.
    + reflexivity.
    + vm_compute; discriminate.
Defined.

(** C5 (as amended).  An error that the tokenizer (decoder) reports while
    the match locator looks for the next start tag is returned as it is.
    An error or end of input that it reports inside the builder is not
    passed through: the call returns the unclosed-tags error with the
    current stack in its place.  So a call returns the tokenizer's error
    only from the match locator. *)
Theorem C5_tokenizer_error_passing :
  ((forall t tagNames e t',
       htmlfilter.NextStartTag t tagNames = (htmlfilter.Err e, t') ->
       htmlfilter.NextTextFilter t tagNames
       = (htmlfilter.Err (htmlfilter.TokenizerError (htmlfilter.err t)), t'))
   /\ (forall t tagNames tok0 t0 stack c t',
          htmlfilter.NextStartTag t tagNames = (htmlfilter.Ok tok0, t0) ->
          htmlfilter.reaches tagNames ([htmlfilter.Data tok0], [], t0)
                             (stack, c, t') ->
          stack <> [] ->
          htmlfilter.TType (fst (htmlfilter.Next t')) = htmlfilter.ErrorToken ->
          fst (htmlfilter.NextTextFilter t tagNames)
          = htmlfilter.Err (htmlfilter.UnclosedTags stack))
   /\ (forall t tagNames e,
          fst (htmlfilter.NextTextFilter t tagNames)
          = htmlfilter.Err (htmlfilter.TokenizerError e) ->
          fst (htmlfilter.NextStartTag t tagNames)
          = htmlfilter.Err (htmlfilter.TokenizerError e)
          /\ e = htmlfilter.err t))
  /\ ((forall d names e d',
          xmlfilter.skipUntilStartElement d names = (xmlfilter.Err e, d') ->
          xmlfilter.NextNames d names
          = (xmlfilter.Err (xmlfilter.DecoderError (xmlfilter.err d)), d'))
      /\ (forall d names t0 d0 stack c d' e d1,
             xmlfilter.skipUntilStartElement d names = (xmlfilter.Ok t0, d0) ->
             xmlfilter.reaches names ([xmlfilter.ElemName t0], [], d0)
                               (stack, c, d') ->
             stack <> [] ->
             xmlfilter.RawToken d' = (inr e, d1) ->
             fst (xmlfilter.NextNames d names)
             = xmlfilter.Err (xmlfilter.UnclosedTags stack))
      /\ (forall d names e,
             fst (xmlfilter.NextNames d names)
             = xmlfilter.Err (xmlfilter.DecoderError e) ->
             fst (xmlfilter.skipUntilStartElement d names)
             = xmlfilter.Err (xmlfilter.DecoderError e)
             /\ e = xmlfilter.err d)).
Proof.
  split; (split; [|split]).
  - intros t tagNames e t' HS. unfold htmlfilter.NextTextFilter. rewrite HS.
    unfold htmlfilter.NextStartTag in HS.
    apply HtmlSteps.NextStartTag_scan_error in HS. subst e; reflexivity.
  - intros t tagNames tok0 t0 stack c t' HS HR Hne HT.
    rewrite (HtmlSteps.NextTextFilter_error _ _ _ _ _ _ _ _ _ HS HR
               (HtmlSteps.TextInTag_loop_exhausted tagNames stack c t' Hne HT)).
    reflexivity.
  - exact HtmlSteps.NextTextFilter_TokenizerError.
  - intros d names e d' HS. unfold xmlfilter.NextNames. rewrite HS.
    unfold xmlfilter.skipUntilStartElement in HS.
    apply XmlSteps.skipUntilStartElement_scan_error in HS. subst e; reflexivity.
  - intros d names t0 d0 stack c d' e d1 HS HR Hne HN.
    rewrite (XmlSteps.NextNames_error _ _ _ _ _ _ _ _ _ HS HR
               (XmlSteps.parseList_loop_exhausted names stack c d' e d1 Hne HN)).
    reflexivity.
  - exact XmlSteps.NextNames_DecoderError.
Qed.

Lemma C5_witness :
  (htmlfilter.NextTextFilter
     (htmlfilter.mkTokenizer [Documents.H.text "x"] (Failure (str "read error")))
     [str "p"]
   = (htmlfilter.Err (htmlfilter.TokenizerError (Failure (str "read error"))),
      htmlfilter.mkTokenizer [] (Failure (str "read error")))
   /\ fst (htmlfilter.NextTextFilter Documents.failing_html [str "p"])
      = htmlfilter.Err (htmlfilter.UnclosedTags [str "p"])
   /\ (fst (htmlfilter.NextStartTag (htmlfilter.mkTokenizer [] EOF) [str "p"])
       = htmlfilter.Err (htmlfilter.TokenizerError EOF)
       /\ EOF = EOF))
  /\ (xmlfilter.NextNames
        (xmlfilter.mkDecoder [Documents.X.charData "x"]
                             (Failure (str "read error")))
        [Documents.X.name "p"]
      = (xmlfilter.Err (xmlfilter.DecoderError (Failure (str "read error"))),
         xmlfilter.mkDecoder [] (Failure (str "read error")))
      /\ fst (xmlfilter.NextNames Documents.failing_xml [Documents.X.name "p"])
         = xmlfilter.Err (xmlfilter.UnclosedTags [Documents.X.name "p"])
      /\ (fst (xmlfilter.skipUntilStartElement (xmlfilter.mkDecoder [] EOF)
                                               [Documents.X.name "p"])
          = xmlfilter.Err (xmlfilter.DecoderError EOF)
          /\ EOF = EOF)).
Proof.
  split; (split; [|split]).
  - apply (proj1 (proj1 C5_tokenizer_error_passing)
                 (htmlfilter.mkTokenizer [Documents.H.text "x"]
                                         (Failure (str "read error")))
                 [str "p"]
                 (htmlfilter.TokenizerError (Failure (str "read error")))).
    reflexivity.
  - apply (proj1 (proj2 (proj1 C5_tokenizer_error_passing))
                 Documents.failing_html [str "p"]
                 (Documents.H.startTag "p" [])
                 (htmlfilter.mkTokenizer [] (Failure (str "read error")))
                 [str "p"] []
                 (htmlfilter.mkTokenizer [] (Failure (str "read error")))).
    + reflexivity.
    + apply htmlfilter.reaches_here.
    + discriminate.
    + reflexivity.
  - apply (proj2 (proj2 (proj1 C5_tokenizer_error_passing))
                 (htmlfilter.mkTokenizer [] EOF) [str "p"] EOF).
    reflexivity.
  - apply (proj1 (proj2 C5_tokenizer_error_passing)
                 (xmlfilter.mkDecoder [Documents.X.charData "x"]
                                      (Failure (str "read error")))
                 [Documents.X.name "p"]
                 (xmlfilter.DecoderError (Failure (str "read error")))).
    reflexivity.
  - apply (proj1 (proj2 (proj2 C5_tokenizer_error_passing))
                 Documents.failing_xml [Documents.X.name "p"]
                 (Documents.X.startElement "p" [])
                 (xmlfilter.mkDecoder [] (Failure (str "read error")))
                 [Documents.X.name "p"] []
                 (xmlfilter.mkDecoder [] (Failure (str "read error")))
                 (Failure (str "read error"))
                 (xmlfilter.mkDecoder [] (Failure (str "read error")))).
    + reflexivity.
    + apply xmlfilter.reaches_here.
    + discriminate.
    + reflexivity.
  - apply (proj2 (proj2 (proj2 C5_tokenizer_error_passing))
                 (xmlfilter.mkDecoder [] EOF) [Documents.X.name "p"] EOF).
    reflexivity.
Defined.

(** C5 as stated fails: the reader fails after [<p>], inside the builder,
    and the call returns the unclosed-tags error, not the reader's error. *)
Lemma C5_counterexample :
  (htmlfilter.err Documents.failing_html = Failure (str "read error")
   /\ fst (htmlfilter.NextTextFilter Documents.failing_html [str "p"])
      = htmlfilter.Err (htmlfilter.UnclosedTags [str "p"])
   /\ fst (htmlfilter.NextTextFilter Documents.failing_html [str "p"])
      <> htmlfilter.Err (htmlfilter.TokenizerError (Failure (str "read error"))))
  /\ (xmlfilter.err Documents.failing_xml = Failure (str "read error")
      /\ fst (xmlfilter.NextNames Documents.failing_xml [Documents.X.name "p"])
         = xmlfilter.Err (xmlfilter.UnclosedTags [Documents.X.name "p"])
      /\ fst (xmlfilter.NextNames Documents.failing_xml [Documents.X.name "p"])
         <> xmlfilter.Err (xmlfilter.DecoderError (Failure (str "read error")))).
Proof.
  repeat split; try (vm_compute; reflexivity); vm_compute; discriminate.
Qed.

(** C6.  When the call succeeds, every element node of the tree, the root
    and the nested ones, has a name of the set given to the call; the other
    nodes are text nodes. *)
Theorem C6_element_names_in_set :
  (forall t tagNames n t',
      htmlfilter.NextTextFilter t tagNames = (htmlfilter.Ok n, t') ->
      htmlfilter.wellTagged tagNames n = true)
  /\ (forall d names n d',
         xmlfilter.NextNames d names = (xmlfilter.Ok n, d') ->
         xmlfilter.wellTagged names n = true).
Proof.
  split.
  - exact HtmlSteps.NextTextFilter_wellTagged.
  - exact XmlSteps.NextNames_wellTagged.
Qed.

Lemma C6_witness :
  htmlfilter.wellTagged Documents.p_a_sup_html Documents.filtering_tree_html
  = true
  /\ xmlfilter.wellTagged Documents.p_a_sup_xml Documents.filtering_tree_xml
     = true.
Proof.
  split.
  - apply (proj1 C6_element_names_in_set
                 (htmlfilter.mkTokenizer Documents.filtering_html EOF)
                 Documents.p_a_sup_html Documents.filtering_tree_html
                 (htmlfilter.mkTokenizer [] EOF)).
    vm_compute; reflexivity.
  - apply (proj2 C6_element_names_in_set
                 (xmlfilter.mkDecoder Documents.filtering_xml EOF)
                 Documents.p_a_sup_xml Documents.filtering_tree_xml
                 (xmlfilter.mkDecoder [] EOF)).
    vm_compute; reflexivity.
Defined.

(** C7.  A text token that the builder consumes appends nothing when its
    content is empty or white space only, and otherwise appends exactly one
    text node, whose content is the token's content without its leading and
    trailing white space; the stack is unchanged.  When the call succeeds,
    that text node is in the returned tree, and the texts of the returned
    nodes are exactly the contents, trimmed and in the order of the input,
    of the text tokens consumed in the scope that are not blank: one text
    node for each of them and none for the others.  No text node of a
    returned tree is empty or white space only. *)
Theorem C7_text_trimmed_or_dropped :
  (* white space: space, tab and newline among it *)
  (IsSpace 32%N = true /\ IsSpace 9%N = true /\ IsSpace 10%N = true)
  (* what is kept of a content *)
  /\ (forall s,
         (TrimSpace s = [] <-> forallb IsSpace s = true)
         /\ (exists l r, s = l ++ TrimSpace s ++ r
                         /\ forallb IsSpace l = true
                         /\ forallb IsSpace r = true)
         /\ (TrimSpace s <> [] ->
             IsSpace (hd 0%N (TrimSpace s)) = false
             /\ IsSpace (last (TrimSpace s) 0%N) = false))
  (* htmlfilter *)
  /\ (forall tagNames stack c t tok t1,
         htmlfilter.Next t = (tok, t1) ->
         htmlfilter.TType tok = htmlfilter.TextToken ->
         htmlfilter.step tagNames stack c t
         = if forallb IsSpace (htmlfilter.Data tok)
           then htmlfilter.Continue stack c t1
           else htmlfilter.Continue
                  stack
                  (c ++ [htmlfilter.mkNode
                           (htmlfilter.mkToken htmlfilter.TextToken
                                               (TrimSpace (htmlfilter.Data tok))
                                               (htmlfilter.Attr tok)) []])
                  t1)
  /\ (forall t tagNames n t',
         htmlfilter.NextTextFilter t tagNames = (htmlfilter.Ok n, t') ->
         htmlfilter.noBlankText n = true)
  (* xmlfilter *)
  /\ (forall names stack c d b d1,
         xmlfilter.RawToken d = (inl (xmlfilter.TokCharData b), d1) ->
         xmlfilter.step names stack c d
         = if forallb IsSpace b
           then xmlfilter.Continue stack c d1
           else xmlfilter.Continue
                  stack
                  (c ++ [xmlfilter.mkNode (xmlfilter.ValString (TrimSpace b)) []])
                  d1)
  /\ (forall d names n d',
         xmlfilter.NextNames d names = (xmlfilter.Ok n, d') ->
         xmlfilter.noBlankText n = true)
  (* htmlfilter: what the calls return *)
  /\ (forall t tagNames tok0 t0 stack c t' tok t1 root t2,
         htmlfilter.NextStartTag t tagNames = (htmlfilter.Ok tok0, t0) ->
         htmlfilter.reaches tagNames ([htmlfilter.Data tok0], [], t0)
                            (stack, c, t') ->
         stack <> [] ->
         htmlfilter.Next t' = (tok, t1) ->
         htmlfilter.TType tok = htmlfilter.TextToken ->
         forallb IsSpace (htmlfilter.Data tok) = false ->
         htmlfilter.NextTextFilter t tagNames = (htmlfilter.Ok root, t2) ->
         exists m,
           In m (htmlfilter.Node_List root)
           /\ htmlfilter.inTree
                (htmlfilter.mkNode
                   (htmlfilter.mkToken htmlfilter.TextToken
                                       (TrimSpace (htmlfilter.Data tok))
                                       (htmlfilter.Attr tok)) [])
                m)
  /\ (forall t startTag tagNames list t',
         htmlfilter.TextInTag t startTag tagNames = (htmlfilter.Ok list, t') ->
         exists scope,
           htmlfilter.pending t = scope ++ htmlfilter.pending t'
           /\ flat_map htmlfilter.texts list = htmlfilter.tokenTexts scope)
  /\ (forall t tagNames n t',
         htmlfilter.NextTextFilter t tagNames = (htmlfilter.Ok n, t') ->
         exists skipped scope,
           htmlfilter.pending t
           = skipped ++ htmlfilter.Node_Token n :: scope
                     ++ htmlfilter.pending t'
           /\ forallb (htmlfilter.isSkipped tagNames) skipped = true
           /\ htmlfilter.isMatch tagNames (htmlfilter.Node_Token n) = true
           /\ htmlfilter.texts n = htmlfilter.tokenTexts scope)
  (* xmlfilter: what the calls return *)
  /\ (forall d names t0 d0 stack c d' b d1 root d2,
         xmlfilter.skipUntilStartElement d names = (xmlfilter.Ok t0, d0) ->
         xmlfilter.reaches names ([xmlfilter.ElemName t0], [], d0)
                           (stack, c, d') ->
         stack <> [] ->
         xmlfilter.RawToken d' = (inl (xmlfilter.TokCharData b), d1) ->
         forallb IsSpace b = false ->
         xmlfilter.NextNames d names = (xmlfilter.Ok root, d2) ->
         exists m,
           In m (xmlfilter.Node_List root)
           /\ xmlfilter.inTree
                (xmlfilter.mkNode (xmlfilter.ValString (TrimSpace b)) []) m)
  /\ (forall d names stack list d',
         xmlfilter.parseList d names stack = (xmlfilter.Ok list, d') ->
         exists scope,
           xmlfilter.pending d = scope ++ xmlfilter.pending d'
           /\ flat_map xmlfilter.texts list = xmlfilter.tokenTexts scope)
  /\ (forall d names n d',
         xmlfilter.NextNames d names = (xmlfilter.Ok n, d') ->
         exists skipped t scope,
           xmlfilter.Node_Token n
           = xmlfilter.ValToken (xmlfilter.TokStartElement t)
           /\ xmlfilter.pending d
              = skipped ++ xmlfilter.TokStartElement t :: scope
                        ++ xmlfilter.pending d'
           /\ forallb (fun tok => negb (xmlfilter.isMatch names tok)) skipped
              = true
           /\ xmlfilter.hasName names (xmlfilter.ElemName t) = true
           /\ xmlfilter.texts n = xmlfilter.tokenTexts scope).
Proof.
  split; [repeat split|].
  split.
  { intros s. split; [exact (TrimSpace_blank s)|].
    split; [exact (TrimSpace_split s)|].
    intros Hne. destruct (TrimSpace_ends s Hne) as [[x [s' [E Hx]]] [s'' [y [E' Hy]]]].
    split.
    - rewrite E; exact Hx.
    - rewrite E', last_last; exact Hy. }
  split.
  { intros tagNames stack c t tok t1 HN HT.
    exact (HtmlSteps.step_TextToken tagNames stack c t t1 tok HN HT). }
  split; [exact HtmlSteps.NextTextFilter_noBlankText|].
  split.
  { intros names stack c d b d1 HN.
    exact (XmlSteps.step_CharData names stack c d d1 b HN). }
  split; [exact XmlSteps.NextNames_noBlankText|].
  split.
  { intros t tagNames tok0 t0 stack c t' tok t1 root t2 HS HR Hne HN HT HB Hroot.
    pose proof (HtmlSteps.step_TextToken tagNames stack c t' t1 tok HN HT)
      as Hstep.
    rewrite HB in Hstep.
    apply (HtmlScope.NextTextFilter_keeps_appended
             t tagNames tok0 t0 stack c t' _ _ _ _ root t2 HS HR Hne Hstep);
      [|exact Hroot].
    apply in_or_app; right; left; reflexivity. }
  split; [exact HtmlScope.TextInTag_texts|].
  split; [exact HtmlScope.NextTextFilter_texts|].
  split.
  { intros d names t0 d0 stack c d' b d1 root d2 HS HR Hne HN HB Hroot.
    pose proof (XmlSteps.step_CharData names stack c d' d1 b HN) as Hstep.
    rewrite HB in Hstep.
    apply (XmlScope.NextNames_keeps_appended
             d names t0 d0 stack c d' _ _ _ _ root d2 HS HR Hne Hstep);
      [|exact Hroot].
    apply in_or_app; right; left; reflexivity. }
  split; [exact XmlScope.parseList_texts | exact XmlScope.NextNames_texts].
Qed.

Lemma C7_witness :
  (IsSpace (hd 0%N (TrimSpace (str " Foo "))) = false
   /\ IsSpace (last (TrimSpace (str " Foo ")) 0%N) = false)
  /\ htmlfilter.step [str "p"] [str "p"] []
                     (htmlfilter.mkTokenizer [Documents.H.text " Foo "] EOF)
     = htmlfilter.Continue [str "p"] [Documents.H.textNode "Foo"]
                           (htmlfilter.mkTokenizer [] EOF)
  /\ htmlfilter.step [str "p"] [str "p"] []
                     (htmlfilter.mkTokenizer [Documents.H.text "   "] EOF)
     = htmlfilter.Continue [str "p"] [] (htmlfilter.mkTokenizer [] EOF)
  /\ htmlfilter.noBlankText Documents.filtering_tree_html = true
  /\ xmlfilter.step [Documents.X.name "p"] [Documents.X.name "p"] []
                    (xmlfilter.mkDecoder [Documents.X.charData " Foo "] EOF)
     = xmlfilter.Continue [Documents.X.name "p"] [Documents.X.textNode "Foo"]
                          (xmlfilter.mkDecoder [] EOF)
  /\ xmlfilter.noBlankText Documents.filtering_tree_xml = true
  /\ (exists m,
         In m (htmlfilter.Node_List Documents.filtering_tree_html)
         /\ htmlfilter.inTree
              (htmlfilter.mkNode
                 (htmlfilter.mkToken htmlfilter.TextToken
                                     (TrimSpace (str " Bar ")) []) [])
              m)
  /\ (exists skipped scope,
         Documents.filtering_html
         = skipped
             ++ htmlfilter.Node_Token Documents.filtering_tree_html :: scope
             ++ []
         /\ forallb (htmlfilter.isSkipped Documents.p_a_sup_html) skipped = true
         /\ htmlfilter.isMatch
              Documents.p_a_sup_html
              (htmlfilter.Node_Token Documents.filtering_tree_html) = true
         /\ htmlfilter.texts Documents.filtering_tree_html
            = htmlfilter.tokenTexts scope)
  /\ (exists m,
         In m (xmlfilter.Node_List Documents.filtering_tree_xml)
         /\ xmlfilter.inTree
              (xmlfilter.mkNode (xmlfilter.ValString (TrimSpace (str " Bar ")))
                                []) m)
  /\ (exists skipped t scope,
         xmlfilter.Node_Token Documents.filtering_tree_xml
         = xmlfilter.ValToken (xmlfilter.TokStartElement t)
         /\ Documents.filtering_xml
            = skipped ++ xmlfilter.TokStartElement t :: scope ++ []
         /\ forallb (fun tok =>
                       negb (xmlfilter.isMatch Documents.p_a_sup_xml tok))
                    skipped = true
         /\ xmlfilter.hasName Documents.p_a_sup_xml (xmlfilter.ElemName t)
            = true
         /\ xmlfilter.texts Documents.filtering_tree_xml
            = xmlfilter.tokenTexts scope).
Proof.
  destruct C7_text_trimmed_or_dropped
    as [_ [HT [Hh [Hht [Hx [Hxt [HhA [_ [HhB [HxA [_ HxB]]]]]]]]]]].
  split; [|split; [|split; [|split; [|split; [|split; [|split; [|split;
    [|split]]]]]]]].
  - apply (proj2 (proj2 (HT (str " Foo ")))). vm_compute; discriminate.
  - apply (Hh [str "p"] [str "p"] []
              (htmlfilter.mkTokenizer [Documents.H.text " Foo "] EOF)
              (Documents.H.text " Foo ") (htmlfilter.mkTokenizer [] EOF));
      reflexivity.
  - apply (Hh [str "p"] [str "p"] []
              (htmlfilter.mkTokenizer [Documents.H.text "   "] EOF)
              (Documents.H.text "   ") (htmlfilter.mkTokenizer [] EOF));
      reflexivity.
  - apply (Hht (htmlfilter.mkTokenizer Documents.filtering_html EOF)
               Documents.p_a_sup_html Documents.filtering_tree_html
               (htmlfilter.mkTokenizer [] EOF)).
    vm_compute; reflexivity.
  - apply (Hx [Documents.X.name "p"] [Documents.X.name "p"] []
              (xmlfilter.mkDecoder [Documents.X.charData " Foo "] EOF)
              (str " Foo ") (xmlfilter.mkDecoder [] EOF)).
    reflexivity.
  - apply (Hxt (xmlfilter.mkDecoder Documents.filtering_xml EOF)
               Documents.p_a_sup_xml Documents.filtering_tree_xml
               (xmlfilter.mkDecoder [] EOF)).
    vm_compute; reflexivity.
  - apply (HhA Documents.filtering_tokenizer Documents.p_a_sup_html
               (Documents.H.startTag "p" [])
               (htmlfilter.mkTokenizer (tl Documents.filtering_html) EOF)
               [str "sup"; str "u"; str "b"] []
               (htmlfilter.mkTokenizer (skipn 6 Documents.filtering_html) EOF)
               (Documents.H.text " Bar ")
               (htmlfilter.mkTokenizer (skipn 7 Documents.filtering_html) EOF)
               Documents.filtering_tree_html Documents.exhausted_html).
    + reflexivity.
    + eapply htmlfilter.reaches_trip; [discriminate | vm_compute; reflexivity|].
      eapply htmlfilter.reaches_trip; [discriminate | vm_compute; reflexivity|].
      eapply htmlfilter.reaches_call;
        [discriminate | vm_compute; reflexivity | reflexivity | reflexivity|].
      eapply htmlfilter.reaches_trip; [discriminate | vm_compute; reflexivity|].
      eapply htmlfilter.reaches_trip; [discriminate | vm_compute; reflexivity|].
      apply htmlfilter.reaches_here.
    + discriminate.
    + reflexivity.
    + reflexivity.
    + reflexivity.
    + vm_compute; reflexivity.
  - exact (HhB Documents.filtering_tokenizer Documents.p_a_sup_html
               Documents.filtering_tree_html Documents.exhausted_html eq_refl).
  - apply (HxA Documents.filtering_decoder Documents.p_a_sup_xml
               (Documents.X.startElement "p" [])
               (xmlfilter.mkDecoder (tl Documents.filtering_xml) EOF)
               [Documents.X.name "sup"; Documents.X.name "u";
                Documents.X.name "b"] []
               (xmlfilter.mkDecoder (skipn 7 Documents.filtering_xml) EOF)
               (str " Bar ")
               (xmlfilter.mkDecoder (skipn 8 Documents.filtering_xml) EOF)
               Documents.filtering_tree_xml Documents.exhausted_xml).
    + reflexivity.
    + eapply xmlfilter.reaches_trip; [discriminate | vm_compute; reflexivity|].
      eapply xmlfilter.reaches_trip; [discriminate | vm_compute; reflexivity|].
      eapply (xmlfilter.reaches_call
                _ _ _ _ _ _
                [Documents.X.name "p"; Documents.X.name "a"]
                (Documents.X.name "sup") []);
        [discriminate | vm_compute; reflexivity | reflexivity | reflexivity
         | vm_compute; reflexivity |].
      eapply xmlfilter.reaches_trip; [discriminate | vm_compute; reflexivity|].
      eapply xmlfilter.reaches_trip; [discriminate | vm_compute; reflexivity|].
      apply xmlfilter.reaches_here.
    + discriminate.
    + reflexivity.
    + reflexivity.
    + vm_compute; reflexivity.
  - exact (HxB Documents.filtering_decoder Documents.p_a_sup_xml
               Documents.filtering_tree_xml Documents.exhausted_xml eq_refl).
Defined.

(** C8.  The two packages differ on a list of names with a duplicate: for
    [<p><p>x</p></p>] and the names [p], [p], [NextTextFilter] returns the
    tree [<p><p>x</p></p>], while [NextNames], whose [range] loop has no
    [break], calls [parseList] a second time for the same start element,
    which consumes the end tag of the outer [p], and fails with the
    unclosed-tags error.  With the name [p] once, [NextNames] returns the
    same tree as [NextTextFilter]. *)
Theorem C8_duplicate_names_diverge :
  fst (htmlfilter.NextTextFilter
         (htmlfilter.mkTokenizer Documents.twice_html EOF) [str "p"; str "p"])
  = htmlfilter.Ok
      (htmlfilter.mkNode
         (Documents.H.startTag "p" [])
         [htmlfilter.mkNode (Documents.H.startTag "p" [])
                            [Documents.H.textNode "x"]])
  /\ fst (xmlfilter.NextNames
            (xmlfilter.mkDecoder Documents.twice_xml EOF)
            [Documents.X.name "p"; Documents.X.name "p"])
     = xmlfilter.Err (xmlfilter.UnclosedTags [Documents.X.name "p"])
  /\ fst (xmlfilter.NextNames
            (xmlfilter.mkDecoder Documents.twice_xml EOF) [Documents.X.name "p"])
     = xmlfilter.Ok
         (Documents.X.element
            "p" [] [Documents.X.element "p" [] [Documents.X.textNode "x"]]).
Proof. repeat split; vm_compute; reflexivity. Qed.

(** C9.  [popTag] ([popName]) defends against an end tag on an empty stack
    with the unexpected-closing-tag error, and only there.  The loop of the
    builder does not run on an empty stack, so no pop of the builder meets
    one: neither the builder nor the whole call ever returns that error. *)
Theorem C9_unexpected_closing_tag_unreachable :
  ((forall tag,
       htmlfilter.popTag [] tag
       = htmlfilter.Err (htmlfilter.UnexpectedClosingTag tag))
   /\ (forall stack tag x,
          htmlfilter.popTag stack tag
          = htmlfilter.Err (htmlfilter.UnexpectedClosingTag x) ->
          stack = [])
   /\ (forall tagNames c t,
          htmlfilter.TextInTag_loop tagNames [] c t = (htmlfilter.Ok c, t))
   /\ (forall tagNames stack c t x,
          fst (htmlfilter.TextInTag_loop tagNames stack c t)
          <> htmlfilter.Err (htmlfilter.UnexpectedClosingTag x))
   /\ (forall t tagNames x,
          fst (htmlfilter.NextTextFilter t tagNames)
          <> htmlfilter.Err (htmlfilter.UnexpectedClosingTag x)))
  /\ ((forall name,
          xmlfilter.popName [] name
          = xmlfilter.Err (xmlfilter.UnexpectedClosingTag name))
      /\ (forall stack name x,
             xmlfilter.popName stack name
             = xmlfilter.Err (xmlfilter.UnexpectedClosingTag x) ->
             stack = [])
      /\ (forall names c d,
             xmlfilter.parseList_loop names [] c d = (xmlfilter.Ok c, d))
      /\ (forall names stack c d x,
             fst (xmlfilter.parseList_loop names stack c d)
             <> xmlfilter.Err (xmlfilter.UnexpectedClosingTag x))
      /\ (forall d names x,
             fst (xmlfilter.NextNames d names)
             <> xmlfilter.Err (xmlfilter.UnexpectedClosingTag x))).
Proof.
  split; (split; [|split; [|split; [|split]]]).
  - reflexivity.
  - intros stack tag x H.
    exact (proj1 (HtmlSteps.popTag_UnexpectedClosingTag stack tag x H)).
  - intros tagNames c t. rewrite HtmlFacts.TextInTag_loop_eq; reflexivity.
  - exact HtmlSteps.TextInTag_loop_not_unexpected.
  - exact HtmlSteps.NextTextFilter_not_unexpected.
  - reflexivity.
  - intros stack name x H.
    exact (proj1 (XmlSteps.popName_UnexpectedClosingTag stack name x H)).
  - intros names c d. rewrite XmlFacts.parseList_loop_eq; reflexivity.
  - exact XmlSteps.parseList_loop_not_unexpected.
  - exact XmlSteps.NextNames_not_unexpected.
Qed.

Lemma C9_witness :
  (htmlfilter.popTag [] (str "i")
   = htmlfilter.Err (htmlfilter.UnexpectedClosingTag (str "i"))
   /\ (@nil gostring) = [])
  /\ (xmlfilter.popName [] (Documents.X.name "i")
      = xmlfilter.Err (xmlfilter.UnexpectedClosingTag (Documents.X.name "i"))
      /\ (@nil xmlfilter.Name) = []).
Proof.
  split; split.
  - apply (proj1 (proj1 C9_unexpected_closing_tag_unreachable)).
  - apply (proj1 (proj2 (proj1 C9_unexpected_closing_tag_unreachable))
                 [] (str "i") (str "i")).
    reflexivity.
  - apply (proj1 (proj2 C9_unexpected_closing_tag_unreachable)).
  - apply (proj1 (proj2 (proj2 C9_unexpected_closing_tag_unreachable))
                 [] (Documents.X.name "i") (Documents.X.name "i")).
    reflexivity.
Defined.




(** * Further properties of the two packages *)

(** X1 ([htmlfilter.NextStartTag]).  The call succeeds exactly when the
    pending tokens are some skipped tokens, the returned token, and the
    tokens left: the returned token is a start tag or a self-closing tag
    with a name of the set, none of the skipped tokens is one, none of them
    is an error, and the tokenizer's error is kept. *)
Theorem X1_NextStartTag_first_match
        (t : htmlfilter.Tokenizer) (tagNames : list gostring)
        (tok : htmlfilter.Token) (t1 : htmlfilter.Tokenizer) :
  htmlfilter.NextStartTag t tagNames = (htmlfilter.Ok tok, t1)
  <-> exists skipped,
      htmlfilter.pending t = skipped ++ tok :: htmlfilter.pending t1
      /\ htmlfilter.err t1 = htmlfilter.err t
      /\ htmlfilter.isMatch tagNames tok = true
      /\ forallb (htmlfilter.isSkipped tagNames) skipped = true.
Proof.
  unfold htmlfilter.NextStartTag. apply HtmlScope.NextStartTag_scan_Ok.
Qed.

(** X2 ([xmlfilter.skipUntilStartElement]).  The call succeeds exactly when
    the pending tokens are some skipped tokens, the returned start element,
    and the tokens left: the name of the returned element is in the set,
    and no skipped token is a start element with a name of the set. *)
Theorem X2_skipUntilStartElement_first_match
        (d : xmlfilter.Decoder) (names : list xmlfilter.Name)
        (t : xmlfilter.StartElement) (d1 : xmlfilter.Decoder) :
  xmlfilter.skipUntilStartElement d names = (xmlfilter.Ok t, d1)
  <-> exists skipped,
      xmlfilter.pending d
      = skipped ++ xmlfilter.TokStartElement t :: xmlfilter.pending d1
      /\ xmlfilter.err d1 = xmlfilter.err d
      /\ xmlfilter.hasName names (xmlfilter.ElemName t) = true
      /\ forallb (fun tok => negb (xmlfilter.isMatch names tok)) skipped = true.
Proof.
  unfold xmlfilter.skipUntilStartElement.
  apply XmlScope.skipUntilStartElement_scan_Ok.
Qed.

(** X3 ([htmlfilter.TextInTag]).  A call that succeeds has consumed the
    tokens up to and including an end tag named as [startTag], whatever
    [startTag] is.  The nodes it returns are the parse of the tokens before
    that end tag that matter to it: flattened, they are the tags with a
    name of the set and the texts that are not blank, in the order of the
    input, the texts trimmed.  Their texts are all the texts of the scope
    that are not blank, also those inside tags that are left out. *)
Theorem X3_TextInTag_consumed
        (t : htmlfilter.Tokenizer) (startTag : gostring)
        (tagNames : list gostring) (list : list htmlfilter.Node)
        (t' : htmlfilter.Tokenizer) :
  htmlfilter.TextInTag t startTag tagNames = (htmlfilter.Ok list, t') ->
  exists inner closing,
    htmlfilter.pending t = inner ++ closing :: htmlfilter.pending t'
    /\ htmlfilter.err t' = htmlfilter.err t
    /\ htmlfilter.TType closing = htmlfilter.EndTagToken
    /\ htmlfilter.Data closing = startTag
    /\ flat_map htmlfilter.flatten list
       = map htmlfilter.normal (filter (htmlfilter.kept tagNames) inner)
    /\ flat_map htmlfilter.texts list = htmlfilter.tokenTexts inner.
Proof.
  destruct t as [ts e]. unfold htmlfilter.TextInTag. intros H.
  destruct (HtmlScope.TextInTag_loop_anatomy
              tagNames (length ts) ts e startTag [] [] list t' (le_n _) H)
    as [inner [closing [E [He [HT [HD Hx]]]]]].
  destruct (HtmlScope.TextInTag_loop_flatten
              tagNames (length ts) ts e startTag [] [] list t' (le_n _)
              (Forall_nil _) H)
    as [inner' [closing' [E' [_ [_ Hf]]]]].
  rewrite E in E'. apply split_unique in E'. destruct E' as [<- _].
  exists inner, closing. simpl. repeat split; auto.
Qed.

Lemma X3_witness :
  exists inner closing,
    htmlfilter.pending Documents.nested_scope_html
    = inner ++ closing :: htmlfilter.pending Documents.exhausted_html
    /\ htmlfilter.err Documents.exhausted_html
       = htmlfilter.err Documents.nested_scope_html
    /\ htmlfilter.TType closing = htmlfilter.EndTagToken
    /\ htmlfilter.Data closing = str "p"
    /\ flat_map htmlfilter.flatten
                [htmlfilter.mkNode (Documents.H.startTag "a" [])
                                   [Documents.H.textNode "x"]]
       = map htmlfilter.normal
             (filter (htmlfilter.kept [str "p"; str "a"]) inner)
    /\ flat_map htmlfilter.texts
                [htmlfilter.mkNode (Documents.H.startTag "a" [])
                                   [Documents.H.textNode "x"]]
       = htmlfilter.tokenTexts inner.
Proof.
  exact (X3_TextInTag_consumed
           Documents.nested_scope_html (str "p") [str "p"; str "a"]
           [htmlfilter.mkNode (Documents.H.startTag "a" [])
                              [Documents.H.textNode "x"]]
           Documents.exhausted_html eq_refl).
Defined.

(** X4 ([htmlfilter.NextTextFilter]).  A call that succeeds has consumed
    some skipped tokens without a match, the token of the root, the tokens
    of its scope and the end tag named as the root, so at least two tokens.
    The children of the root are the parse of the tokens of the scope that
    matter, and the texts of the tree are the texts of the scope that are
    not blank, trimmed, in the order of the input. *)
Theorem X4_NextTextFilter_consumed
        (t : htmlfilter.Tokenizer) (tagNames : list gostring)
        (n : htmlfilter.Node) (t' : htmlfilter.Tokenizer) :
  htmlfilter.NextTextFilter t tagNames = (htmlfilter.Ok n, t') ->
  exists skipped inner closing,
    htmlfilter.pending t
    = skipped ++ htmlfilter.Node_Token n :: inner
              ++ closing :: htmlfilter.pending t'
    /\ htmlfilter.err t' = htmlfilter.err t
    /\ forallb (htmlfilter.isSkipped tagNames) skipped = true
    /\ htmlfilter.isMatch tagNames (htmlfilter.Node_Token n) = true
    /\ htmlfilter.TType closing = htmlfilter.EndTagToken
    /\ htmlfilter.Data closing = htmlfilter.Data (htmlfilter.Node_Token n)
    /\ flat_map htmlfilter.flatten (htmlfilter.Node_List n)
       = map htmlfilter.normal (filter (htmlfilter.kept tagNames) inner)
    /\ htmlfilter.texts n = htmlfilter.tokenTexts inner.
Proof.
  unfold htmlfilter.NextTextFilter, htmlfilter.NextStartTag.
  destruct (htmlfilter.NextStartTag_scan tagNames (htmlfilter.err t)
                                         (htmlfilter.pending t))
    as [[tok0|e0] [ts0 e0']] eqn:HS; [|discriminate].
  apply HtmlScope.NextStartTag_scan_Ok in HS.
  destruct HS as [skipped [E [He [Hm Hs]]]]. simpl in E, He. subst e0'.
  unfold htmlfilter.TextInTag.
  destruct (htmlfilter.TextInTag_loop
              tagNames [htmlfilter.Data tok0] []
              (htmlfilter.mkTokenizer ts0 (htmlfilter.err t)))
    as [[list|e1] t2] eqn:HL; [|discriminate].
  intros H; injection H as <- <-.
  destruct (HtmlScope.TextInTag_loop_anatomy
              tagNames (length ts0) ts0 (htmlfilter.err t)
              (htmlfilter.Data tok0) [] [] list t2 (le_n _) HL)
    as [inner [closing [E2 [He2 [HT [HD Hx]]]]]].
  destruct (HtmlScope.TextInTag_loop_flatten
              tagNames (length ts0) ts0 (htmlfilter.err t)
              (htmlfilter.Data tok0) [] [] list t2 (le_n _) (Forall_nil _) HL)
    as [inner' [closing' [E' [_ [_ Hf]]]]].
  rewrite E2 in E'. apply split_unique in E'. destruct E' as [<- _].
  exists skipped, inner, closing. simpl.
  rewrite E, E2. repeat split; auto.
  unfold htmlfilter.isMatch in Hm.
  destruct (htmlfilter.TType tok0); try discriminate; exact Hx.
Qed.

Lemma X4_witness :
  exists skipped inner closing,
    htmlfilter.pending Documents.filtering_tokenizer
    = skipped ++ htmlfilter.Node_Token Documents.filtering_tree_html :: inner
              ++ closing :: htmlfilter.pending Documents.exhausted_html
    /\ htmlfilter.err Documents.exhausted_html
       = htmlfilter.err Documents.filtering_tokenizer
    /\ forallb (htmlfilter.isSkipped Documents.p_a_sup_html) skipped = true
    /\ htmlfilter.isMatch Documents.p_a_sup_html
                          (htmlfilter.Node_Token Documents.filtering_tree_html)
       = true
    /\ htmlfilter.TType closing = htmlfilter.EndTagToken
    /\ htmlfilter.Data closing
       = htmlfilter.Data (htmlfilter.Node_Token Documents.filtering_tree_html)
    /\ flat_map htmlfilter.flatten
                (htmlfilter.Node_List Documents.filtering_tree_html)
       = map htmlfilter.normal
             (filter (htmlfilter.kept Documents.p_a_sup_html) inner)
    /\ htmlfilter.texts Documents.filtering_tree_html
       = htmlfilter.tokenTexts inner.
Proof.
  exact (X4_NextTextFilter_consumed
           Documents.filtering_tokenizer Documents.p_a_sup_html
           Documents.filtering_tree_html Documents.exhausted_html eq_refl).
Defined.

(** X5 ([xmlfilter.NextNames]).  With names without duplicates, a call that
    succeeds has consumed some skipped tokens without a match, the start
    element of the root, the tokens of its scope and the end element of the
    root's name.  The children of the root are the parse of the tokens of
    the scope that matter: flattened, they are the elements with a name of
    the set and the character data that is not blank, in the order of the
    input, the character data trimmed. *)
Theorem X5_NextNames_consumed
        (d : xmlfilter.Decoder) (names : list xmlfilter.Name)
        (n : xmlfilter.Node) (d' : xmlfilter.Decoder) :
  NoDup names ->
  xmlfilter.NextNames d names = (xmlfilter.Ok n, d') ->
  exists skipped t inner,
    xmlfilter.Node_Token n = xmlfilter.ValToken (xmlfilter.TokStartElement t)
    /\ xmlfilter.pending d
       = skipped ++ xmlfilter.TokStartElement t :: inner
                 ++ xmlfilter.TokEndElement (xmlfilter.ElemName t)
                 :: xmlfilter.pending d'
    /\ xmlfilter.err d' = xmlfilter.err d
    /\ forallb (fun tok => negb (xmlfilter.isMatch names tok)) skipped = true
    /\ xmlfilter.hasName names (xmlfilter.ElemName t) = true
    /\ flat_map xmlfilter.flatten (xmlfilter.Node_List n)
       = map xmlfilter.normal (filter (xmlfilter.kept names) inner)
    /\ xmlfilter.texts n = xmlfilter.tokenTexts inner.
Proof.
  intros Hnd.
  unfold xmlfilter.NextNames, xmlfilter.skipUntilStartElement.
  destruct (xmlfilter.skipUntilStartElement_scan names (xmlfilter.err d)
                                                 (xmlfilter.pending d))
    as [[t0|e0] [ts0 e0']] eqn:HS; [|discriminate].
  apply XmlScope.skipUntilStartElement_scan_Ok in HS.
  destruct HS as [skipped [E [He [Hm Hs]]]]. simpl in E, He. subst e0'.
  unfold xmlfilter.parseList.
  destruct (xmlfilter.parseList_loop
              names [xmlfilter.ElemName t0] []
              (xmlfilter.mkDecoder ts0 (xmlfilter.err d)))
    as [[list|e1] d2] eqn:HL; [|discriminate].
  intros H; injection H as <- <-.
  destruct (XmlScope.parseList_loop_anatomy
              names (length ts0) Hnd ts0 (xmlfilter.err d)
              (xmlfilter.ElemName t0) [] [] list d2 (le_n _) HL)
    as [inner [E2 [He2 Hx]]].
  destruct (XmlScope.parseList_loop_flatten
              names (length ts0) Hnd ts0 (xmlfilter.err d)
              (xmlfilter.ElemName t0) [] [] list d2 (le_n _) (Forall_nil _) HL)
    as [inner' [E' Hf]].
  rewrite E2 in E'. apply split_unique in E'. destruct E' as [<- _].
  exists skipped, t0, inner. simpl.
  rewrite E, E2. repeat split; auto.
Qed.

Lemma X5_witness :
  exists skipped t inner,
    xmlfilter.Node_Token Documents.filtering_tree_xml
    = xmlfilter.ValToken (xmlfilter.TokStartElement t)
    /\ xmlfilter.pending Documents.filtering_decoder
       = skipped ++ xmlfilter.TokStartElement t :: inner
                 ++ xmlfilter.TokEndElement (xmlfilter.ElemName t)
                 :: xmlfilter.pending Documents.exhausted_xml
    /\ xmlfilter.err Documents.exhausted_xml
       = xmlfilter.err Documents.filtering_decoder
    /\ forallb (fun tok => negb (xmlfilter.isMatch Documents.p_a_sup_xml tok))
               skipped = true
    /\ xmlfilter.hasName Documents.p_a_sup_xml (xmlfilter.ElemName t) = true
    /\ flat_map xmlfilter.flatten
                (xmlfilter.Node_List Documents.filtering_tree_xml)
       = map xmlfilter.normal
             (filter (xmlfilter.kept Documents.p_a_sup_xml) inner)
    /\ xmlfilter.texts Documents.filtering_tree_xml
       = xmlfilter.tokenTexts inner.
Proof.
  apply (X5_NextNames_consumed
           Documents.filtering_decoder Documents.p_a_sup_xml
           Documents.filtering_tree_xml Documents.exhausted_xml).
  - repeat (constructor; [simpl; intuition discriminate|]). constructor.
  - reflexivity.
Defined.

(** X6 ([htmlfilter.TextInTag]).  The plain nesting check of all the tags
    from [startTag] on, which does not look at the names of the set, decides
    what the call ends in and where it stops.  Where the check closes the
    scope, the call succeeds and leaves the tokens after the closing tag.
    Where the check meets an end tag that does not close the innermost open
    tag, the call returns [MismatchedClosingTag] with that open tag and
    that end tag, and leaves the tokens after it.  Where the input ends or
    fails first, the call returns [UnclosedTags] and leaves the tokens
    after that place; the tags it reports are, of the tags that the check
    has open, those of the innermost invocation: the ones from the last
    open tag on whose name is in the set.  The names of the set have a part
    in that payload only, and in the nodes. *)
Theorem X6_TextInTag_nesting
        (t : htmlfilter.Tokenizer) (startTag : gostring)
        (tagNames : list gostring) :
  htmlfilter.follows
    tagNames
    (htmlfilter.balance [startTag] (htmlfilter.pending t)) (htmlfilter.err t)
    (htmlfilter.TextInTag t startTag tagNames).
Proof.
  destruct t as [ts e]. unfold htmlfilter.TextInTag. simpl.
  exact (HtmlScope.TextInTag_loop_balance tagNames (length ts) ts e startTag
                                          [] [] (le_n _) (Forall_nil _)).
Qed.

(** X7 ([xmlfilter.parseList]).  With names without duplicates, and a stack
    that holds no name of the set above its first name, the plain nesting
    check of all the elements from the stack on decides what the call ends
    in and where it stops: success with the tokens after the closing end
    element left; [MismatchedClosingTag] with the innermost open name and
    the end element's name, the tokens after it left; or, at the end of the
    input, [UnclosedTags] with the decoder exhausted, the names reported
    being, of the names that the check has open, those from the last one on
    that is in the set. *)
Theorem X7_parseList_nesting
        (d : xmlfilter.Decoder) (names : list xmlfilter.Name)
        (start : xmlfilter.Name) (opened : list xmlfilter.Name) :
  NoDup names ->
  Forall (fun name => xmlfilter.hasName names name = false) opened ->
  xmlfilter.follows
    names
    (xmlfilter.balance (start :: opened) (xmlfilter.pending d))
    (xmlfilter.err d)
    (xmlfilter.parseList d names (start :: opened)).
Proof.
  intros Hnd Ho. destruct d as [ts e]. unfold xmlfilter.parseList. simpl.
  exact (XmlScope.parseList_loop_balance names (length ts) Hnd ts e start
                                         opened [] (le_n _) Ho).
Qed.

Lemma X7_witness :
  xmlfilter.follows
    Documents.p_a_sup_xml
    (xmlfilter.balance [Documents.X.name "p"; Documents.X.name "span"]
                       (xmlfilter.pending Documents.unclosed_scope_xml))
    (xmlfilter.err Documents.unclosed_scope_xml)
    (xmlfilter.parseList Documents.unclosed_scope_xml Documents.p_a_sup_xml
                         [Documents.X.name "p"; Documents.X.name "span"]).
Proof.
  apply (X7_parseList_nesting
           Documents.unclosed_scope_xml Documents.p_a_sup_xml
           (Documents.X.name "p") [Documents.X.name "span"]).
  - repeat (constructor; [simpl; intuition discriminate|]). constructor.
  - repeat constructor.
Defined.

(** X8 ([htmlfilter.NextTextFilter]).  A call that succeeds returns the
    same tree on the input without the tokens that do not matter to it:
    the tags with a name outside the set, the comments, the doctypes and
    the blank texts; and it stops at the same place of that input. *)
Theorem X8_NextTextFilter_erase
        (t : htmlfilter.Tokenizer) (tagNames : list gostring)
        (n : htmlfilter.Node) (t' : htmlfilter.Tokenizer) :
  htmlfilter.NextTextFilter t tagNames = (htmlfilter.Ok n, t') ->
  htmlfilter.NextTextFilter (htmlfilter.erase tagNames t) tagNames
  = (htmlfilter.Ok n, htmlfilter.erase tagNames t').
Proof. apply HtmlScope.NextTextFilter_erase. Qed.

Lemma X8_witness :
  htmlfilter.NextTextFilter
    (htmlfilter.erase Documents.p_a_sup_html Documents.filtering_tokenizer)
    Documents.p_a_sup_html
  = (htmlfilter.Ok Documents.filtering_tree_html,
     htmlfilter.erase Documents.p_a_sup_html Documents.exhausted_html).
Proof.
  exact (X8_NextTextFilter_erase
           Documents.filtering_tokenizer Documents.p_a_sup_html
           Documents.filtering_tree_html Documents.exhausted_html eq_refl).
Defined.

(** X9 ([xmlfilter.NextNames]).  With names without duplicates, a call that
    succeeds returns the same tree on the input without the elements with a
    name outside the set, the comments, the processing instructions, the
    directives and the blank character data. *)
Theorem X9_NextNames_erase
        (d : xmlfilter.Decoder) (names : list xmlfilter.Name)
        (n : xmlfilter.Node) (d' : xmlfilter.Decoder) :
  NoDup names ->
  xmlfilter.NextNames d names = (xmlfilter.Ok n, d') ->
  xmlfilter.NextNames (xmlfilter.erase names d) names
  = (xmlfilter.Ok n, xmlfilter.erase names d').
Proof. intros Hnd. apply XmlScope.NextNames_erase. exact Hnd. Qed.

Lemma X9_witness :
  xmlfilter.NextNames
    (xmlfilter.erase Documents.p_a_sup_xml Documents.filtering_decoder)
    Documents.p_a_sup_xml
  = (xmlfilter.Ok Documents.filtering_tree_xml,
     xmlfilter.erase Documents.p_a_sup_xml Documents.exhausted_xml).
Proof.
  apply (X9_NextNames_erase
           Documents.filtering_decoder Documents.p_a_sup_xml
           Documents.filtering_tree_xml Documents.exhausted_xml).
  - repeat (constructor; [simpl; intuition discriminate|]). constructor.
  - reflexivity.
Defined.

(** X10 ([htmlfilter.NextTextFilter]).  On an input that fails only at its
    end, a call that fails with another error than a mismatched closing tag
    has consumed the whole input, and every later call returns the
    tokenizer's error. *)
Theorem X10_NextTextFilter_after_failure
        (t : htmlfilter.Tokenizer) (tagNames : list gostring)
        (e : htmlfilter.error) (t' : htmlfilter.Tokenizer) :
  Forall (fun tok => htmlfilter.TType tok <> htmlfilter.ErrorToken)
         (htmlfilter.pending t) ->
  htmlfilter.NextTextFilter t tagNames = (htmlfilter.Err e, t') ->
  (forall last tag, e <> htmlfilter.MismatchedClosingTag last tag) ->
  t' = htmlfilter.mkTokenizer [] (htmlfilter.err t)
  /\ forall tagNames',
      htmlfilter.NextTextFilter t' tagNames'
      = (htmlfilter.Err (htmlfilter.TokenizerError (htmlfilter.err t)), t').
Proof.
  intros Hts H Hm.
  rewrite (HtmlScope.NextTextFilter_failure t tagNames e t' Hts H Hm).
  split; reflexivity.
Qed.

Lemma X10_witness :
  Documents.exhausted_html
  = htmlfilter.mkTokenizer [] (htmlfilter.err Documents.unclosed_html)
  /\ forall tagNames',
      htmlfilter.NextTextFilter Documents.exhausted_html tagNames'
      = (htmlfilter.Err
           (htmlfilter.TokenizerError (htmlfilter.err Documents.unclosed_html)),
         Documents.exhausted_html).
Proof.
  apply (X10_NextTextFilter_after_failure
           Documents.unclosed_html [str "p"; str "a"]
           (htmlfilter.UnclosedTags [str "a"]) Documents.exhausted_html).
  - repeat constructor; discriminate.
  - reflexivity.
  - intros last tag; discriminate.
Defined.

(** X11 ([xmlfilter.NextNames]).  A call that fails with another error than
    a mismatched closing tag has consumed the whole input, and every later
    call returns the decoder's error; this holds for names with duplicates
    as well. *)
Theorem X11_NextNames_after_failure
        (d : xmlfilter.Decoder) (names : list xmlfilter.Name)
        (e : xmlfilter.error) (d' : xmlfilter.Decoder) :
  xmlfilter.NextNames d names = (xmlfilter.Err e, d') ->
  (forall last name, e <> xmlfilter.MismatchedClosingTag last name) ->
  d' = xmlfilter.mkDecoder [] (xmlfilter.err d)
  /\ forall names',
      xmlfilter.NextNames d' names'
      = (xmlfilter.Err (xmlfilter.DecoderError (xmlfilter.err d)), d').
Proof.
  intros H Hm.
  rewrite (XmlScope.NextNames_failure d names e d' H Hm).
  split; reflexivity.
Qed.

Lemma X11_witness :
  Documents.exhausted_xml
  = xmlfilter.mkDecoder [] (xmlfilter.err Documents.unclosed_xml)
  /\ forall names',
      xmlfilter.NextNames Documents.exhausted_xml names'
      = (xmlfilter.Err
           (xmlfilter.DecoderError (xmlfilter.err Documents.unclosed_xml)),
         Documents.exhausted_xml).
Proof.
  apply (X11_NextNames_after_failure
           Documents.unclosed_xml [Documents.X.name "p"; Documents.X.name "a"]
           (xmlfilter.UnclosedTags [Documents.X.name "a"])
           Documents.exhausted_xml).
  - reflexivity.
  - intros last name; discriminate.
Defined.

(** X12 ([htmlfilter.popTag]).  The call succeeds exactly on the stack that
    ends with the tag, and returns the stack before it: it undoes the
    [append(stack, tag)] of the loop. *)
Theorem X12_popTag_undoes_push (tags : list gostring) (tag : gostring)
        (s : list gostring) :
  htmlfilter.popTag tags tag = htmlfilter.Ok s <-> tags = s ++ [tag].
Proof. apply HtmlScope.popTag_Ok. Qed.

(** X13 ([xmlfilter.popName]).  The call succeeds exactly on the stack that
    ends with the name, name space included, and returns the stack before
    it. *)
Theorem X13_popName_undoes_push (stack : list xmlfilter.Name)
        (name : xmlfilter.Name) (s : list xmlfilter.Name) :
  xmlfilter.popName stack name = xmlfilter.Ok s <-> stack = s ++ [name].
Proof. apply XmlScope.popName_Ok. Qed.



(** X15 ([xmlfilter.Node.String], in its two revisions).  [String] does not
    panic on a tree that [NextNames] returns, and it returns on it what the
    revision without the case for [xml.CharData] returns: the trees hold
    strings, never [xml.CharData]. *)
Theorem X15_String_of_result
        (d : xmlfilter.Decoder) (names : list xmlfilter.Name)
        (n : xmlfilter.Node) (d' : xmlfilter.Decoder) :
  xmlfilter.NextNames d names = (xmlfilter.Ok n, d') ->
  xmlfilter.String0 n = xmlfilter.String n
  /\ exists s, xmlfilter.String n = Some s.
Proof.
  intros H. apply (XmlRendering.xml_String_wellTagged names).
  exact (XmlSteps.NextNames_wellTagged d names n d' H).
Qed.

Lemma X15_witness :
  xmlfilter.String0 Documents.filtering_tree_xml
  = xmlfilter.String Documents.filtering_tree_xml
  /\ exists s, xmlfilter.String Documents.filtering_tree_xml = Some s.
Proof.
  exact (X15_String_of_result
           Documents.filtering_decoder Documents.p_a_sup_xml
           Documents.filtering_tree_xml Documents.exhausted_xml eq_refl).
Defined.

(** X16 ([htmlfilter.Node.String]).  The rendering of a tree does not
    depend on the attributes of its tokens: [String] writes none. *)
Theorem X16_String_without_attributes (n : htmlfilter.Node) :
  htmlfilter.String (htmlfilter.stripAttr n) = htmlfilter.String n.
Proof. apply HtmlRendering.html_String_stripAttr. Qed.

(** X17 ([xmlfilter.Node.String]).  The rendering of a tree depends neither
    on the attributes nor on the name spaces of its elements: [String]
    writes the local names only. *)
Theorem X17_String_without_attributes (n : xmlfilter.Node) :
  xmlfilter.String (xmlfilter.stripAttr n) = xmlfilter.String n.
Proof. apply XmlRendering.xml_String_stripAttr. Qed.

(** X18 ([htmlfilter.NextTextFilter] and [xmlfilter.NextNames]).  With names
    without duplicates, on an input that fails only at its end and whose
    first match is a start tag, [NextNames] on the decoder's tokens returns
    what [NextTextFilter] returns on the tokenizer's: the same tree or the
    same error, and the same input left. *)
Theorem X18_packages_agree
        (tagNames : list gostring) (t : htmlfilter.Tokenizer) :
  NoDup tagNames ->
  Forall (fun tok => htmlfilter.TType tok <> htmlfilter.ErrorToken)
         (htmlfilter.pending t) ->
  (forall tok t1,
      htmlfilter.NextStartTag t tagNames = (htmlfilter.Ok tok, t1) ->
      htmlfilter.TType tok = htmlfilter.StartTagToken) ->
  xmlfilter.NextNames (Correspondence.toDecoder t)
                      (map Correspondence.toName tagNames)
  = Correspondence.toReturn Correspondence.toNode
                            (htmlfilter.NextTextFilter t tagNames).
Proof.
  intros Hnd Hts Hroot.
  exact (Agreement.packages_agree tagNames Hnd t Hts Hroot).
Qed.

Lemma X18_witness :
  xmlfilter.NextNames (Correspondence.toDecoder Documents.filtering_tokenizer)
                      (map Correspondence.toName Documents.p_a_sup_html)
  = Correspondence.toReturn
      Correspondence.toNode
      (htmlfilter.NextTextFilter Documents.filtering_tokenizer
                                 Documents.p_a_sup_html).
Proof.
  apply (X18_packages_agree Documents.p_a_sup_html
                            Documents.filtering_tokenizer).
  - repeat (constructor; [simpl; intuition discriminate|]). constructor.
  - repeat constructor; discriminate.
  - intros tok t1 H. injection H as <- _. reflexivity.
Defined.
